(** * ColorLab: the numerical optimisation core, embedded in Rocq

    A shallow embedding of the blend catalogue ([blendModes.js]), the colour
    helpers ([colorUtils.js]), the single-blend optimiser ([optimizer.js]),
    the Levels and HSL tools and the multi-step sequence search
    ([multiStepOptimizer.js]), followed by the properties established about
    them.

    Numbers.  A JavaScript number is modelled by an exact rational [Q]:
    decimal literals are read as the fractions they denote ([0.5] is [1#2],
    [9.99] is [999#100]), [===] on numbers is [Qeq], and arithmetic is exact.
    The non-finite values (NaN, the infinities) are modelled where the
    source tests for them or a statement depends on them: [jsnum] for the
    value an [inverse] may hand back ([divide] is the quotient of two
    numbers with its overflow to an infinity, used by the Multiply inverse),
    and [None] in an [option Q] accumulator for [Infinity].  The rounding
    of a finite result to the nearest double is not part of the functions;
    where a statement carries a tolerance, [rounded] relates an exact
    result to the doubles the program may hold in its place.

    Arrays are lists; an array updated in place is a list updated by index.
    The vertices of a simplex are distinct arrays in every routine, so the
    in-place updates of the source are not visible through another name.

    Taken as given (section variables), so that every statement holds for
    all of their behaviours: the perceptual distance ([rgbToLab] and
    [deltaE], CIEDE2000 over CIE Lab, built on [Math.pow], [Math.cbrt],
    [Math.atan2], ..., which have no rational model); the colour transforms
    [applyHslAdjustment] and [applyLevelsAdjustment] that the parametric
    optimisers tune; the printing of a number inside a template string; the
    draws of [Math.random()]; the host's decision to call [cancel()]; and
    the two randomised candidate generators of the multi-step search.

    Two of these are also embedded on their own, for the properties stated
    about them: [generateModeSequences] (module [Enumeration]) and
    [applyHslAdjustment] with [rgbToHsl] and [hslToRgb] (module
    [HslAdjust]).  In [HslAdjust] the channels of a colour are taken to be
    integers between 0 and 255, as [hexToRgb] produces them: no quotient of
    the three functions has a zero divisor then. *)

From Stdlib Require Import QArith Qround Qminmax Qabs Lqa Lia ZArith Ascii String.
From stdpp Require Import base option list strings sorting gmap.

Open Scope Q_scope.

(* ================================================================== *)
(** * Embedding                                                        *)
(* ================================================================== *)

(** ** JavaScript values used by the core *)

(** How a call finishes: with a value, or by raising. *)
Inductive completion (A : Type) : Type :=
  | Normal (a : A)
  | Throw.
Arguments Normal {A} a.
Arguments Throw {A}.

(** A number that may be non-finite ([NaN], [Infinity], [-Infinity]). *)
Inductive jsnum : Type :=
  | Num (q : Q)
  | NonFinite.

(** A quotient overflows when its magnitude reaches [2^1024 - 2^970], half
    way between the largest double, [2^1024 - 2^971], and [2^1024]: from
    there on, rounding to nearest gives an infinity. *)
Definition overflowThreshold : Q := inject_Z (2 ^ 1024 - 2 ^ 970).

(** [a / b] on numbers: an infinity or NaN when [b] is zero or the quotient
    overflows. *)
Definition divide (a b : Q) : jsnum :=
  if Qeq_dec b 0 then NonFinite
  else if Qlt_le_dec (Qabs (a / b)) overflowThreshold then Num (a / b)
  else NonFinite.

(** [ToNumber] on a number-or-null: [null] coerces to [0] in a comparison. *)
Definition toNumber (o : option Q) : Q := default 0 o.

(** [x !== null] *)
Definition notNull {A : Type} (o : option A) : bool :=
  match o with Some _ => true | None => false end.

(** [a < b], [a >= b], [a === b] on finite numbers, as booleans. *)
Definition ltb (a b : Q) : bool := if Qlt_le_dec a b then true else false.
Definition geb (a b : Q) : bool := if Qlt_le_dec a b then false else true.
Definition eqb (a b : Q) : bool := if Qeq_dec a b then true else false.

(** [Math.round]: nearest integer, halves towards plus infinity. *)
Definition Math_round (x : Q) : Q := inject_Z (Qfloor (x + (1#2))).

(** [x || d] on a numeric option value: [undefined] and [0] are both falsy. *)
Definition orDefaultQ (o : option Q) (d : Q) : Q :=
  match o with
  | Some x => if Qeq_dec x 0 then d else x
  | None => d
  end.

Definition orDefaultNat (o : option nat) (d : nat) : nat :=
  match o with
  | Some O => d
  | Some n => n
  | None => d
  end.

(** ** colorUtils.js *)

Module ColorUtils.

(** [const clamp = (val, min, max) => Math.max(min, Math.min(max, val))] *)
Definition clamp (val min max : Q) : Q := Qmax min (Qmin max val).

Definition hexDigit (c : ascii) : option Z :=
  let n := Z.of_nat (nat_of_ascii c) in
  if ((48 <=? n) && (n <=? 57))%Z then Some (n - 48)%Z
  else if ((97 <=? n) && (n <=? 102))%Z then Some (n - 87)%Z
  else if ((65 <=? n) && (n <=? 70))%Z then Some (n - 55)%Z
  else None.

(** One capture group [([a-f\d]{2})] read with [parseInt(_, 16)]. *)
Definition hexByte (hi lo : ascii) : option Z :=
  match hexDigit hi, hexDigit lo with
  | Some h, Some l => Some (16 * h + l)%Z
  | _, _ => None
  end.

Definition sixDigits (s : string) : option (list Q) :=
  match s with
  | String r1 (String r2 (String g1 (String g2 (String b1 (String b2 EmptyString))))) =>
      match hexByte r1 r2, hexByte g1 g2, hexByte b1 b2 with
      | Some r, Some g, Some b => Some [inject_Z r; inject_Z g; inject_Z b]
      | _, _, _ => None
      end
  | _ => None
  end.

(** [hexToRgb]: the regular expression [^#?(hh)(hh)(hh)$], case-insensitive.
    The argument is [None] for a [null] or absent colour, which the
    expression does not match. *)
Definition hexToRgb (hex : option string) : option (list Q) :=
  match hex with
  | None => None
  | Some (String "#" rest) => sixDigits rest
  | Some s => sixDigits s
  end.

Definition hexChar (d : Z) : ascii :=
  ascii_of_nat (Z.to_nat (if (d <? 10)%Z then d + 48 else d + 87)%Z).

(** [h = x.toString(16); h.length === 1 ? "0" + h : h] for an integer [x]
    between 0 and 255. *)
Definition hexPair (x : Q) : string :=
  let n := Qfloor x in
  String (hexChar (n / 16)%Z) (String (hexChar (n mod 16)%Z) EmptyString).

(** [rgbToHex]: each channel clamped to [0, 255], rounded, printed in two
    hexadecimal digits after a [#]. *)
Definition rgbToHex (r g b : Q) : string :=
  String "#"
    (hexPair (Math_round (clamp r 0 255)) ++
     hexPair (Math_round (clamp g 0 255)) ++
     hexPair (Math_round (clamp b 0 255)))%string.

End ColorUtils.

(** ** Arrays of numbers *)

(** [v[i]] and [simplex[i]]; the default stands for an out-of-range read,
    which no run on vectors of the expected dimension performs. *)
Definition nthQ (i : nat) (v : list Q) : Q := nth i v 0.
Definition nthV (i : nat) (s : list (list Q)) : list Q := nth i s [].

(** [f(...rgb)]: a call that spreads a colour triplet. *)
Definition spread {A : Type} (f : Q -> Q -> Q -> A) (rgb : list Q) : A :=
  f (nthQ 0 rgb) (nthQ 1 rgb) (nthQ 2 rgb).

(** A stable sort by a numeric key: what [Array.prototype.sort] does with a
    comparator [(a, b) => key(a) - key(b)]. *)
Fixpoint insertBy {A : Type} (key : A -> Q) (x : A) (l : list A) : list A :=
  match l with
  | [] => [x]
  | y :: l' =>
      if Qlt_le_dec (key y) (key x) then y :: insertBy key x l'
      else x :: y :: l'
  end.

Fixpoint sortBy {A : Type} (key : A -> Q) (l : list A) : list A :=
  match l with
  | [] => []
  | x :: l' => insertBy key x (sortBy key l')
  end.

(** [values.map((v, i) => i).sort((a, b) => values[a] - values[b])] *)
Definition sortedIndices (values : list Q) : list nat :=
  sortBy (fun i => nthQ i values) (seq 0 (length values)).

(** [a.indexOf(x)] for an index array; [-1] is not needed: every search
    made by the source is for a member. *)
Fixpoint indexOfNat (x : nat) (a : list nat) : nat :=
  match a with
  | [] => O
  | y :: a' => if Nat.eqb x y then O else S (indexOfNat x a')
  end.

(** [values.indexOf(Math.min(...values))]: the first position of the
    least value. *)
Fixpoint indexOfMinFrom (best : Q) (bestIdx idx : nat) (values : list Q) : nat :=
  match values with
  | [] => bestIdx
  | v :: values' =>
      if Qlt_le_dec v best then indexOfMinFrom v idx (S idx) values'
      else indexOfMinFrom best bestIdx (S idx) values'
  end.

Definition indexOfMin (values : list Q) : nat :=
  match values with
  | [] => O
  | v :: values' => indexOfMinFrom v O 1%nat values'
  end.

(** The centroid of the first [n] vertices:
    [centroid[j] += simplex[i][j]] for [i, j < n], then [centroid[j] /= n]. *)
Definition centroidOf (n : nat) (simplex : list (list Q)) : list Q :=
  map (fun j =>
         fold_left (fun acc i => acc + nthQ j (nthV i simplex)) (seq 0 n) 0
         / inject_Z (Z.of_nat n))
      (seq 0 n).

(** ** Objective evaluations, recorded

    The optimisers call their objective as a black box.  To speak about the
    points it is called on, a run threads the list of those points, in call
    order, through every evaluation. *)

Abbreviation point := (list Q) (only parsing).
Definition Eval (A : Type) : Type := list point -> A * list point.

Definition ret {A : Type} (a : A) : Eval A := fun log => (a, log).
Definition bind {A B : Type} (m : Eval A) (k : A -> Eval B) : Eval B :=
  fun log => let '(a, log') := m log in k a log'.
Definition call (objective : point -> Q) (v : point) : Eval Q :=
  fun log => (objective v, log ++ [v]).

Notation "x <<- m ;; k" := (bind m (fun x => k))
  (at level 100, m at next level, right associativity).

(** [vs.map(v => objective(v))], left to right. *)
Fixpoint callAll (objective : point -> Q) (vs : list point) : Eval (list Q) :=
  match vs with
  | [] => ret []
  | v :: vs' =>
      y <<- call objective v ;;
      ys <<- callAll objective vs' ;;
      ret (y :: ys)
  end.

Definition runEval {A : Type} (m : Eval A) : A * list point := m [].
Definition value {A : Type} (m : Eval A) : A := fst (runEval m).
Definition evaluated {A : Type} (m : Eval A) : list point := snd (runEval m).

(** ** blendModes.js *)

Module BlendModes.
Import ColorUtils.

(** A catalogue entry.  [inverse] may return [null] ([None]) or a
    non-finite number: the Multiply entry does when its quotient overflows,
    and so may an entry supplied from outside the catalogue.  The quotients
    of the other entries are taken exactly; on channels read from colours,
    [k / 255], none of them overflows. *)
Record BlendMode : Type := {
  name : string;
  inverse : Q -> Q -> option jsnum;
}.

Definition fin (o : option Q) : option jsnum := Num <$> o.

(** *** The analytic inverses, entry by entry *)

Definition inverse_Normal (s t : Q) : option Q := Some t.

(** [s === 0 ? (t === 0 ? 0.5 : null) : t / s]; the quotient is an infinity
    when it overflows, for a source channel below [2^-1022]. *)
Definition inverse_Multiply (s t : Q) : option jsnum :=
  if Qeq_dec s 0 then (if Qeq_dec t 0 then Some (Num (1#2)) else None)
  else Some (divide t s).

Definition inverse_Screen (s t : Q) : option Q :=
  if Qeq_dec s 1 then (if Qeq_dec t 1 then Some (1#2) else None)
  else Some (1 - (1 - t) / (1 - s)).

Definition inverse_Subtract (s t : Q) : option Q := Some (s - t).

Definition inverse_Divide (s t : Q) : option Q :=
  if Qeq_dec t 0 then (if Qeq_dec s 0 then Some (1#2) else None)
  else Some (s / t).

Definition inverse_Difference (s t : Q) : option Q := Some (s - t).

Definition inverse_Overlay (s t : Q) : option Q :=
  if Qlt_le_dec s (1#2) then
    (if Qeq_dec s 0 then (if Qeq_dec t 0 then Some (1#2) else None)
     else Some (t / (2 * s)))
  else
    (if Qeq_dec s 1 then (if Qeq_dec t 1 then Some (1#2) else None)
     else Some (1 - (1 - t) / (2 * (1 - s)))).

Definition inverse_HardLight (s t : Q) : option Q :=
  let b_m := if Qeq_dec s 0 then None else Some (t / (2 * s)) in
  if notNull b_m && ltb (toNumber b_m) (1#2) then b_m else
  let b_s := if Qeq_dec s 1 then None else Some (1 - (1 - t) / (2 * (1 - s))) in
  if notNull b_s && geb (toNumber b_s) (1#2) then b_s else
  if ltb (toNumber b_m) (1#2) then b_m
  else if geb (toNumber b_s) (1#2) then b_s else None.

Definition inverse_SoftLight (s t : Q) : option Q :=
  if eqb s 0 || eqb s 1 then (if Qeq_dec s t then Some (1#2) else None)
  else Some ((1#2) * (1 - (s - t) / (s * (1 - s)))).

Definition inverse_ColorBurn (s t : Q) : option Q :=
  if Qeq_dec s 0 then (if Qeq_dec t 0 then Some (1#2) else None)
  else if Qeq_dec s 1 then (if Qeq_dec t 1 then Some (1#2) else None)
  else if Qlt_le_dec s t then None
  else if Qeq_dec t s then Some 1
  else if Qeq_dec t 1 then None
  else Some ((1 - s) / (1 - t)).

Definition inverse_LinearBurn (s t : Q) : option Q := Some (t - s + 1).

Definition inverse_ColorDodge (s t : Q) : option Q :=
  if Qeq_dec s 0 then
    (if Qeq_dec t 0 then Some (1#2)
     else if Qeq_dec t 1 then Some 1
     else None)
  else if Qeq_dec s 1 then (if Qeq_dec t 1 then Some (1#2) else None)
  else if Qeq_dec t 0 then None
  else if Qeq_dec t s then Some 0
  else if Qlt_le_dec t s then None
  else Some (1 - s / t).

Definition inverse_LinearDodge (s t : Q) : option Q := Some (t - s).

(** The two quotients are taken exactly, so the [isFinite(bBurn)] and
    [isFinite(bDodge)] tests of the source (both divisions are guarded)
    pass. *)
Definition inverse_VividLight (s t : Q) : option Q :=
  let bBurn :=
    if Qeq_dec t 1 then (if Qeq_dec s 1 then Some (1#4) else None)
    else Some ((1 - s) / (2 * (1 - t))) in
  if notNull bBurn && ltb (toNumber bBurn) (1#2) then bBurn else
  let bDodge :=
    if Qeq_dec t 0 then (if Qeq_dec s 0 then Some (3#4) else None)
    else Some (1 - s / (2 * t)) in
  if notNull bDodge && geb (toNumber bDodge) (1#2) then bDodge else
  if ltb (toNumber bBurn) (1#2) then bBurn
  else if geb (toNumber bDodge) (1#2) then bDodge else None.

Definition inverse_LinearLight (s t : Q) : option Q := Some ((t - s + 1) / 2).

Definition inverse_PinLight (s t : Q) : option Q :=
  let bLow :=
    if Qlt_le_dec t s then Some (t / 2)
    else if Qeq_dec t s then
      (if Qeq_dec s 1 then Some (499#1000) else Some ((s / 2 + (1#2)) / 2))
    else None in
  if notNull bLow && ltb (toNumber bLow) (1#2) then bLow else
  let bHigh :=
    if Qlt_le_dec s t then Some ((t + 1) / 2)
    else if Qeq_dec t s then Some (((1#2) + (s + 1) / 2) / 2)
    else None in
  if notNull bHigh && geb (toNumber bHigh) (1#2) then bHigh else
  if ltb (toNumber bLow) (1#2) then bLow
  else if geb (toNumber bHigh) (1#2) then bHigh else None.

Definition inverse_HardMix (s t : Q) : option Q :=
  if Qeq_dec t 0 then Some (1#4)
  else if Qeq_dec t 1 then Some (3#4)
  else None.

Definition mkMode (n : string) (inv : Q -> Q -> option Q) : BlendMode :=
  {| name := n; inverse := fun s t => fin (inv s t) |}.

(** [const blendModes = [...]], in catalogue order. *)
Definition blendModes : list BlendMode :=
  [ mkMode "Normal" inverse_Normal;
    {| name := "Multiply"; inverse := inverse_Multiply |};
    mkMode "Screen" inverse_Screen;
    mkMode "Subtract" inverse_Subtract;
    mkMode "Divide" inverse_Divide;
    mkMode "Difference" inverse_Difference;
    mkMode "Overlay" inverse_Overlay;
    mkMode "Hard Light" inverse_HardLight;
    mkMode "Soft Light (Pegtop)" inverse_SoftLight;
    mkMode "Color Burn" inverse_ColorBurn;
    mkMode "Linear Burn" inverse_LinearBurn;
    mkMode "Color Dodge" inverse_ColorDodge;
    mkMode "Linear Dodge (Add)" inverse_LinearDodge;
    mkMode "Vivid Light" inverse_VividLight;
    mkMode "Linear Light" inverse_LinearLight;
    mkMode "Pin Light" inverse_PinLight;
    mkMode "Hard Mix" inverse_HardMix ].

(** *** The forward evaluators *)

Definition vividLightChannel (s b : Q) : Q :=
  if Qlt_le_dec b (1#2) then
    (if Qlt_le_dec 0 b then 1 - (1 - s) / (2 * b) else 0)
  else if Qlt_le_dec b 1 then s / (2 * (1 - b))
  else 1.

(** [switch (modeName)] over the catalogue names, [default: return s]. *)
Definition applyBlendChannel (modeName : string) (s b : Q) : Q :=
  if String.eqb modeName "Normal" then b
  else if String.eqb modeName "Multiply" then s * b
  else if String.eqb modeName "Screen" then 1 - (1 - s) * (1 - b)
  else if String.eqb modeName "Linear Dodge (Add)" then clamp (s + b) 0 1
  else if String.eqb modeName "Subtract" then clamp (s - b) 0 1
  else if String.eqb modeName "Divide" then
    (if Qeq_dec b 0 then (if Qeq_dec s 0 then 0 else 1) else s / b)
  else if String.eqb modeName "Difference" then Qabs (s - b)
  else if String.eqb modeName "Overlay" then
    (if Qlt_le_dec s (1#2) then 2 * s * b else 1 - 2 * (1 - s) * (1 - b))
  else if String.eqb modeName "Hard Light" then
    (if Qlt_le_dec b (1#2) then 2 * s * b else 1 - 2 * (1 - s) * (1 - b))
  else if String.eqb modeName "Soft Light (Pegtop)" then
    (1 - 2 * b) * s * s + 2 * b * s
  else if String.eqb modeName "Color Burn" then
    (if Qeq_dec b 0 then 0 else 1 - (1 - s) / b)
  else if String.eqb modeName "Linear Burn" then clamp (s + b - 1) 0 1
  else if String.eqb modeName "Color Dodge" then
    (if Qeq_dec b 1 then 1 else s / (1 - b))
  else if String.eqb modeName "Vivid Light" then vividLightChannel s b
  else if String.eqb modeName "Linear Light" then clamp (s + 2 * b - 1) 0 1
  else if String.eqb modeName "Pin Light" then
    (if Qlt_le_dec b (1#2) then Qmin s (2 * b) else Qmax s (2 * b - 1))
  else if String.eqb modeName "Hard Mix" then
    (if Qlt_le_dec (vividLightChannel s b) (1#2) then 0 else 1)
  else s.

(** [case "Multiply": return s * b] on the value an [inverse] handed back:
    the product of a number with an infinity or NaN is an infinity or
    NaN. *)
Definition multiplyForward (s : Q) (b : jsnum) : jsnum :=
  match b with
  | Num q => Num (applyBlendChannel "Multiply" s q)
  | NonFinite => NonFinite
  end.

End BlendModes.

(** ** Options of the simplex routines *)

(** [{min, max}] *)
Record Bound : Type := { min : Q; max : Q }.

(** The [options] object; an absent field is [None]. *)
Record Options : Type := {
  maxIterations : option nat;
  tolerance : option Q;
  initialStep : option Q;
  paramConfigs : option (list Bound);
}.

Definition noOptions : Options :=
  {| maxIterations := None; tolerance := None;
     initialStep := None; paramConfigs := None |}.

(** The Nelder-Mead coefficients, the same in every copy of the routine. *)
Definition alpha : Q := 1.
Definition gamma : Q := 2.
Definition rho : Q := 1 # 2.
Definition sigma : Q := 1 # 2.

(** What one turn of the main loop decides. *)
Inductive turn (S : Type) : Type :=
  | Break (st : S)
  | Continue (st : S).
Arguments Break {S} st.
Arguments Continue {S} st.

(** ** The main loop shared by [nelderMeadMultiDim], [nelderMead5D] and
    [nelderMead3D]

    These three routines have the same loop body, word for word, around
    their own [clampParams], dimension and objective. *)

(** The simplex and the objective values of its vertices. *)
Abbreviation simplexState := (list (list Q) * list Q)%type (only parsing).

Section SimplexLoop.

Variable clampParams : point -> point.
Variable fn : point -> Q.
Variable n : nat.
Variable tol : Q.

(** [indices], [sortedSimplex] (of copies) and [sortedValues], written back
    over [simplex] and [values]. *)
Definition sortByValue (st : simplexState) : simplexState :=
  let '(simplex, values) := st in
  let indices := sortedIndices values in
  (map (fun i => nthV i simplex) indices, map (fun i => nthQ i values) indices).

(** The shrink loop from vertex [i] on: move the vertex towards the best
    one coordinate by coordinate, clamp it, evaluate it. *)
Fixpoint shrinkLoop (i count : nat) (st : simplexState) : Eval simplexState :=
  match count with
  | O => ret st
  | S count' =>
      let '(simplex, values) := st in
      let best := nthV 0 simplex in
      let vertex :=
        clampParams
          (imap (fun j x =>
                   if (j <? n)%nat
                   then nthQ j best + sigma * (x - nthQ j best)
                   else x)
                (nthV i simplex)) in
      y <<- call fn vertex ;;
      shrinkLoop (S i) count' (<[i := vertex]> simplex, <[i := y]> values)
  end.

Definition loopBody (st : simplexState) : Eval (turn simplexState) :=
  let '(simplex, values) := sortByValue st in
  if Qlt_le_dec (nthQ n values - nthQ 0 values) tol
  then ret (Break (simplex, values))
  else
    let centroid := centroidOf n simplex in
    let reflected :=
      clampParams
        (imap (fun j c => c + alpha * (c - nthQ j (nthV n simplex))) centroid) in
    reflectedValue <<- call fn reflected ;;
    if geb reflectedValue (nthQ 0 values)
       && ltb reflectedValue (nthQ (n - 1) values)
    then ret (Continue (<[n := reflected]> simplex,
                        <[n := reflectedValue]> values))
    else if ltb reflectedValue (nthQ 0 values) then
      let expanded :=
        clampParams
          (imap (fun j c => c + gamma * (nthQ j reflected - c)) centroid) in
      expandedValue <<- call fn expanded ;;
      if ltb expandedValue reflectedValue
      then ret (Continue (<[n := expanded]> simplex,
                          <[n := expandedValue]> values))
      else ret (Continue (<[n := reflected]> simplex,
                          <[n := reflectedValue]> values))
    else
      let contracted :=
        clampParams
          (imap (fun j c => c + rho * (nthQ j (nthV n simplex) - c)) centroid) in
      contractedValue <<- call fn contracted ;;
      if ltb contractedValue (nthQ n values)
      then ret (Continue (<[n := contracted]> simplex,
                          <[n := contractedValue]> values))
      else
        st' <<- shrinkLoop 1 n (simplex, values) ;;
        ret (Continue st').

(** [for (let iter = 0; iter < maxIterations; iter++)] *)
Fixpoint mainLoop (iters : nat) (st : simplexState) : Eval simplexState :=
  match iters with
  | O => ret st
  | S iters' =>
      t <<- loopBody st ;;
      match t with
      | Break st' => ret st'
      | Continue st' => mainLoop iters' st'
      end
  end.

(** [{ solution: simplex[bestIdx], value: values[bestIdx] }] *)
Record Found : Type := { solution : point; found_value : Q }.

Definition bestOf (st : simplexState) : Found :=
  let bestIdx := indexOfMin (snd st) in
  {| solution := nthV bestIdx (fst st); found_value := nthQ bestIdx (snd st) |}.

(** Evaluate the initial simplex, run the loop, return the best vertex. *)
Definition simplexSearch (simplex : list point) (iters : nat) : Eval Found :=
  values <<- callAll fn simplex ;;
  st <<- mainLoop iters (simplex, values) ;;
  ret (bestOf st).

End SimplexLoop.

(** ** Colour pairs *)

(** [{source, target, weight}]: the colours are hex strings or [null], the
    weight may be absent. *)
Record Pair : Type := {
  source : option string;
  target : option string;
  weight : option Q;
}.

(** Truthiness of a colour field: a non-empty string. *)
Definition truthy (c : option string) : bool :=
  match c with
  | Some (String _ _) => true
  | _ => false
  end.

(** [pairs.filter(p => p.source && p.target)] *)
Definition validPairsOf (pairs : list Pair) : list Pair :=
  filter (fun p => truthy (source p) && truthy (target p) = true) pairs.

(** [pair.weight !== undefined ? pair.weight : 1] *)
Definition weightOf (p : Pair) : Q := default 1 (weight p).

(** [rgb.map(c => c / 255)] *)
Definition normalize (rgb : list Q) : list Q :=
  map (fun c => c / 255) rgb.

Inductive Quality : Type := exact | good | approx | poor.

(** The badge thresholds on the weighted average Delta E. *)
Definition qualityOf (avgError : Q) : Quality :=
  if Qlt_le_dec avgError 1 then exact
  else if Qlt_le_dec avgError 3 then good
  else if Qlt_le_dec avgError 6 then approx
  else poor.

Record PerPairResult : Type := {
  pp_source : option string;
  pp_target : option string;
  pp_weight : Q;
  pp_achieved : string;
  pp_achievedRgb : list Q;
  pp_error : Q;
}.

Record ErrorStats : Type := {
  totalError : Q;
  avgError : Q;
  maxError : Q;
  perPairResults : list PerPairResult;
}.

(** The running sums of an error loop:
    [totalWeightedError], [totalWeight], [maxError], [perPairResults]. *)
Record ErrorAcc : Type := {
  acc_total : Q;
  acc_weight : Q;
  acc_max : Q;
  acc_results : list PerPairResult;
}.

Definition emptyAcc : ErrorAcc :=
  {| acc_total := 0; acc_weight := 0; acc_max := 0; acc_results := [] |}.

(** [push]; [totalWeightedError += error * weight]; [totalWeight += weight];
    [maxError = Math.max(maxError, error)]. *)
Definition accumulate (acc : ErrorAcc) (r : PerPairResult) : ErrorAcc :=
  {| acc_total := acc_total acc + pp_error r * pp_weight r;
     acc_weight := acc_weight acc + pp_weight r;
     acc_max := Qmax (acc_max acc) (pp_error r);
     acc_results := acc_results acc ++ [r] |}.

(** [avgError = totalWeight > 0 ? totalWeightedError / totalWeight : 0] and
    the returned object. *)
Definition finish (acc : ErrorAcc) : ErrorStats :=
  {| totalError := acc_total acc;
     avgError := if Qlt_le_dec 0 (acc_weight acc)
                 then acc_total acc / acc_weight acc else 0;
     maxError := acc_max acc;
     perPairResults := acc_results acc |}.

(** ** optimizer.js *)

Module Optimizer.
Import ColorUtils BlendModes.

Section WithPerceptualDistance.

(** [rgbToLab] and [deltaE] (CIEDE2000), taken as given. *)
Variable Lab : Type.
Variable rgbToLab : Q -> Q -> Q -> Lab.
Variable deltaE : Lab -> Lab -> Q.

(** The body of the loop of [computeBlendError] for one pair; [None] is the
    [continue] taken when a colour does not parse. *)
Definition blendPairResult (modeName : string) (blendNorm : list Q)
    (pair : Pair) : option PerPairResult :=
  match hexToRgb (source pair), hexToRgb (target pair) with
  | Some sRgb, Some tRgb =>
      let sNorm := normalize sRgb in
      let achievedNorm :=
        map (fun c => clamp c 0 1)
          [ applyBlendChannel modeName (nthQ 0 sNorm) (nthQ 0 blendNorm);
            applyBlendChannel modeName (nthQ 1 sNorm) (nthQ 1 blendNorm);
            applyBlendChannel modeName (nthQ 2 sNorm) (nthQ 2 blendNorm) ] in
      let achievedRgb := map (fun c => Math_round (c * 255)) achievedNorm in
      Some {| pp_source := source pair;
              pp_target := target pair;
              pp_weight := weightOf pair;
              pp_achieved := spread rgbToHex achievedRgb;
              pp_achievedRgb := achievedRgb;
              pp_error :=
                deltaE (spread rgbToLab tRgb) (spread rgbToLab achievedRgb) |}
  | _, _ => None
  end.

(** One turn of the loop over the pairs. *)
Definition blendStep (modeName : string) (blendNorm : list Q)
    (acc : ErrorAcc) (pair : Pair) : ErrorAcc :=
  match blendPairResult modeName blendNorm pair with
  | Some r => accumulate acc r
  | None => acc
  end.

Definition computeBlendError (modeName : string) (pairs : list Pair)
    (blendNorm : list Q) : ErrorStats :=
  finish (fold_left (blendStep modeName blendNorm) pairs emptyAcc).

(** The inner loop of [computeInitialGuess] over [count] channels from
    channel [i] on.  [b === null || !isFinite(b)] is the case of [None] or
    [Some NonFinite]: the loop breaks and the pair is not valid ([None]).
    Otherwise the result holds the clamped blend values. *)
Fixpoint invertChannels (mode : BlendMode) (sNorm tNorm : list Q)
    (i count : nat) : option (list Q) :=
  match count with
  | O => Some []
  | S count' =>
      match inverse mode (nthQ i sNorm) (nthQ i tNorm) with
      | Some (Num b) =>
          match invertChannels mode sNorm tNorm (S i) count' with
          | Some rest => Some (clamp b 0 1 :: rest)
          | None => None
          end
      | _ => None
      end
  end.

(** An entry of [validInverses]. *)
Record ValidInverse : Type := { norm : list Q; vi_weight : Q }.

(** One turn of the loop over the pairs: the state is [validInverses] and
    [totalWeight]. *)
Definition guessStep (mode : BlendMode)
    (st : list ValidInverse * Q) (pair : Pair) : list ValidInverse * Q :=
  match hexToRgb (source pair), hexToRgb (target pair) with
  | Some sRgb, Some tRgb =>
      match invertChannels mode (normalize sRgb) (normalize tRgb) 0 3 with
      | Some blendNorm =>
          (fst st ++ [{| norm := blendNorm; vi_weight := weightOf pair |}],
           snd st + weightOf pair)
      | None => st
      end
  | _, _ => st
  end.

Definition computeInitialGuess (mode : BlendMode) (pairs : list Pair) : list Q :=
  let '(validInverses, totalWeight) := fold_left (guessStep mode) pairs ([], 0) in
  match validInverses with
  | _ :: _ =>
      if Qlt_le_dec 0 totalWeight then
        let avg :=
          fold_left
            (fun avg item =>
               [ nthQ 0 avg + nthQ 0 (norm item) * vi_weight item;
                 nthQ 1 avg + nthQ 1 (norm item) * vi_weight item;
                 nthQ 2 avg + nthQ 2 (norm item) * vi_weight item ])
            validInverses [0; 0; 0] in
        [ nthQ 0 avg / totalWeight;
          nthQ 1 avg / totalWeight;
          nthQ 2 avg / totalWeight ]
      else
        let avg :=
          fold_left
            (fun avg item =>
               [ nthQ 0 avg + nthQ 0 (norm item);
                 nthQ 1 avg + nthQ 1 (norm item);
                 nthQ 2 avg + nthQ 2 (norm item) ])
            validInverses [0; 0; 0] in
        let len := inject_Z (Z.of_nat (length validInverses)) in
        [ nthQ 0 avg / len; nthQ 1 avg / len; nthQ 2 avg / len ]
  | [] => [1#2; 1#2; 1#2]
  end.

(** The second, in-place sort of [nelderMead]: [simplex.sort] with the
    comparator [values[indices.indexOf(simplex.indexOf(a))] - ...].  The
    vertices are distinct arrays, so [simplex.indexOf(a)] is the position of
    [a] before the sort (the comparator sees the array as it was). *)
Definition resort (indices : list nat) (values : list Q)
    (simplex : list point) : list point :=
  map snd
    (sortBy (fun pv : nat * point => nthQ (indexOfNat (fst pv) indices) values)
            (imap (fun i v => (i, v)) simplex)).

Definition n3 : nat := 3.

(** The sort at the head of the loop body of [nelderMead]. *)
Definition sortSimplex (st : list point * list Q) : list point * list Q :=
  let '(simplex, values) := st in
  let indices := sortedIndices values in
  let simplex := resort indices values simplex in
  (map (fun i => nthV i simplex) indices, map (fun i => nthQ i values) indices).

(** The shrink loop, [for (let i = 1; i <= n; i++)], from vertex [i] on. *)
Fixpoint shrinkFrom (objective : point -> Q) (i count : nat)
    (st : list point * list Q) : Eval (list point * list Q) :=
  match count with
  | O => ret st
  | S count' =>
      let '(simplex, values) := st in
      let best := nthV 0 simplex in
      let vertex :=
        imap (fun j x =>
                if (j <? n3)%nat
                then clamp (nthQ j best + sigma * (x - nthQ j best)) 0 1
                else x)
             (nthV i simplex) in
      y <<- call objective vertex ;;
      shrinkFrom objective (S i) count'
        (<[i := vertex]> simplex, <[i := y]> values)
  end.

(** One pass through the body of the main loop of [nelderMead]. *)
Definition iteration (objective : point -> Q) (tol : Q)
    (st : list point * list Q) : Eval (turn (list point * list Q)) :=
  let '(simplex, values) := sortSimplex st in
  if Qlt_le_dec (nthQ n3 values - nthQ 0 values) tol
  then ret (Break (simplex, values))
  else
    let centroid := centroidOf n3 simplex in
    let reflected :=
      imap (fun j c => clamp (c + alpha * (c - nthQ j (nthV n3 simplex))) 0 1)
           centroid in
    reflectedValue <<- call objective reflected ;;
    if geb reflectedValue (nthQ 0 values)
       && ltb reflectedValue (nthQ (n3 - 1) values)
    then ret (Continue (<[n3 := reflected]> simplex,
                        <[n3 := reflectedValue]> values))
    else if ltb reflectedValue (nthQ 0 values) then
      let expanded :=
        imap (fun j c => clamp (c + gamma * (nthQ j reflected - c)) 0 1)
             centroid in
      expandedValue <<- call objective expanded ;;
      if ltb expandedValue reflectedValue
      then ret (Continue (<[n3 := expanded]> simplex,
                          <[n3 := expandedValue]> values))
      else ret (Continue (<[n3 := reflected]> simplex,
                          <[n3 := reflectedValue]> values))
    else
      let contracted :=
        imap (fun j c => clamp (c + rho * (nthQ j (nthV n3 simplex) - c)) 0 1)
             centroid in
      contractedValue <<- call objective contracted ;;
      if ltb contractedValue (nthQ n3 values)
      then ret (Continue (<[n3 := contracted]> simplex,
                          <[n3 := contractedValue]> values))
      else
        st' <<- shrinkFrom objective 1 n3 (simplex, values) ;;
        ret (Continue st').

(** [for (let iter = 0; iter < maxIterations; iter++)] *)
Fixpoint iterate (objective : point -> Q) (tol : Q) (iters : nat)
    (st : list point * list Q) : Eval (list point * list Q) :=
  match iters with
  | O => ret st
  | S iters' =>
      t <<- iteration objective tol st ;;
      match t with
      | Break st' => ret st'
      | Continue st' => iterate objective tol iters' st'
      end
  end.

(** The initial simplex: the starting point as given, then one vertex per
    axis with that coordinate moved by [step] and clamped. *)
Definition initialSimplex (initial : point) : list point :=
  initial ::
  map (fun i => <[i := clamp (nthQ i initial + (1#10)) 0 1]> initial)
      (seq 0 n3).

Definition nelderMead (objective : point -> Q) (initial : point)
    (options : Options) : Eval point :=
  let iters := orDefaultNat (maxIterations options) 200 in
  let tol := orDefaultQ (tolerance options) (1 # 1000000) in
  let simplex := initialSimplex initial in
  values <<- callAll objective simplex ;;
  st <<- iterate objective tol iters (simplex, values) ;;
  ret (nthV (indexOfMin (snd st)) (fst st)).

Record OptimizationResult : Type := {
  blend : point;
  blendHex : string;
  blendRgb : list Q;
  or_totalError : Q;
  or_avgError : Q;
  or_maxError : Q;
  or_perPairResults : list PerPairResult;
  quality : Quality;
}.

(** [optimizeBlend]; [None] is the [null] returned when no complete pair is
    left. *)
Definition optimizeBlend (mode : BlendMode) (pairs : list Pair)
    : option OptimizationResult :=
  let validPairs := validPairsOf pairs in
  match validPairs with
  | [] => None
  | _ :: _ =>
      let initialGuess := computeInitialGuess mode validPairs in
      let objective := fun blendNorm =>
        totalError (computeBlendError (name mode) validPairs blendNorm) in
      let optimizedBlend :=
        value (nelderMead objective initialGuess
                 {| maxIterations := Some 300%nat;
                    tolerance := Some (1 # 10000000);
                    initialStep := None; paramConfigs := None |}) in
      let finalResult := computeBlendError (name mode) validPairs optimizedBlend in
      let blendRgb := map (fun c => Math_round (c * 255)) optimizedBlend in
      Some {| blend := optimizedBlend;
              blendHex := spread rgbToHex blendRgb;
              blendRgb := blendRgb;
              or_totalError := totalError finalResult;
              or_avgError := avgError finalResult;
              or_maxError := maxError finalResult;
              or_perPairResults := perPairResults finalResult;
              quality := qualityOf (avgError finalResult) |}
  end.

End WithPerceptualDistance.

End Optimizer.

(** ** The Levels tool *)

Module Levels.
Import ColorUtils.

Record LevelsParams : Type := {
  inputBlack : Q;
  inputWhite : Q;
  inputGamma : Q;
  outputBlack : Q;
  outputWhite : Q;
}.

Section WithColorMath.

Variable Lab : Type.
Variable rgbToLab : Q -> Q -> Q -> Lab.
Variable deltaE : Lab -> Lab -> Q.

(** [applyLevelsAdjustment(rgb, params)] is defined outside the files at
    hand (it raises the normalised channel to a power); it is taken as
    given. *)
Variable applyLevelsAdjustment : list Q -> LevelsParams -> list Q.

Definition levelsPairResult (params : LevelsParams) (pair : Pair)
    : option PerPairResult :=
  match hexToRgb (source pair), hexToRgb (target pair) with
  | Some sRgb, Some tRgb =>
      let achievedRgb := applyLevelsAdjustment sRgb params in
      Some {| pp_source := source pair;
              pp_target := target pair;
              pp_weight := weightOf pair;
              pp_achieved := spread rgbToHex achievedRgb;
              pp_achievedRgb := achievedRgb;
              pp_error :=
                deltaE (spread rgbToLab tRgb) (spread rgbToLab achievedRgb) |}
  | _, _ => None
  end.

Definition computeLevelsError (pairs : list Pair) (params : LevelsParams)
    : ErrorStats :=
  finish
    (fold_left
       (fun acc pair =>
          match levelsPairResult params pair with
          | Some r => accumulate acc r
          | None => acc
          end)
       pairs emptyAcc).

(** [clampParams] of [nelderMead5D]: black first, then white at least two
    above it. *)
Definition clampParams (p : point) : point :=
  let ib := Qmax 0 (Qmin 253 (nthQ 0 p)) in
  let iw := Qmax (ib + 2) (Qmin 255 (nthQ 1 p)) in
  let gam := Qmax (1#10) (Qmin (999#100) (nthQ 2 p)) in
  let ob := Qmax 0 (Qmin 255 (nthQ 3 p)) in
  let ow := Qmax 0 (Qmin 255 (nthQ 4 p)) in
  [ib; iw; gam; ob; ow].

Definition n5 : nat := 5.
Definition steps : list Q := [10; -10; 2#10; 10; -10].

Definition nelderMead5D (fn : point -> Q) (initial : point)
    (options : Options) : Eval Found :=
  let iters := orDefaultNat (maxIterations options) 800 in
  let tol := orDefaultQ (tolerance options) (1 # 1000000) in
  let simplex :=
    clampParams initial ::
    map (fun i => clampParams (<[i := nthQ i initial + nthQ i steps]> initial))
        (seq 0 n5) in
  simplexSearch clampParams fn n5 tol simplex iters.

Definition startingPoints : list point :=
  [ [0; 255; 1; 0; 255];
    [10; 245; 1; 0; 255];
    [0; 255; 8#10; 0; 255];
    [0; 255; 12#10; 0; 255];
    [0; 255; 1; 10; 245];
    [20; 235; 1; 0; 255];
    [0; 255; 1; 0; 200];
    [0; 255; 1; 50; 255] ].

(** [result.value < bestValue], with [None] for the initial [Infinity]. *)
Definition improves (v : Q) (bestValue : option Q) : bool :=
  match bestValue with
  | None => true
  | Some b => ltb v b
  end.

(** The restart loop: [bestResult] and [bestValue] after trying every
    starting point. *)
Definition tryStart (objective : point -> Q)
    (best : option point * option Q) (start : point)
    : option point * option Q :=
  let result :=
    value (nelderMead5D objective start
             {| maxIterations := Some 500%nat; tolerance := None;
                initialStep := None; paramConfigs := None |}) in
  if improves (found_value result) (snd best)
  then (Some (solution result), Some (found_value result))
  else best.

Definition restarts (objective : point -> Q)
    : option point * option Q :=
  fold_left (tryStart objective) startingPoints (None, None).

Record LevelsResult : Type := {
  params : LevelsParams;
  stats : ErrorStats;
  lv_quality : Quality;
}.

(** [optimizeLevels]: [Normal None] is the [null] for an empty pair list;
    [Throw] is the [TypeError] that reading [p[0]] would raise were
    [bestResult] still [null] after the restarts. *)
Definition optimizeLevels (pairs : list Pair)
    : completion (option LevelsResult) :=
  let validPairs := validPairsOf pairs in
  match validPairs with
  | [] => Normal None
  | _ :: _ =>
      let objective := fun p =>
        totalError
          (computeLevelsError validPairs
             {| inputBlack := nthQ 0 p; inputWhite := nthQ 1 p;
                inputGamma := nthQ 2 p; outputBlack := nthQ 3 p;
                outputWhite := nthQ 4 p |}) in
      match fst (restarts objective) with
      | None => Throw
      | Some p =>
          let finalParams :=
            {| inputBlack := Math_round (nthQ 0 p);
               inputWhite := Math_round (nthQ 1 p);
               inputGamma := Math_round (nthQ 2 p * 100) / 100;
               outputBlack := Math_round (nthQ 3 p);
               outputWhite := Math_round (nthQ 4 p) |} in
          let finalStats := computeLevelsError validPairs finalParams in
          Normal (Some {| params := finalParams;
                          stats := finalStats;
                          lv_quality := qualityOf (avgError finalStats) |})
      end
  end.

End WithColorMath.

End Levels.

(** ** hslTool.js *)

Module HslTool.
Import ColorUtils.

Section WithColorMath.

Variable Lab : Type.
Variable rgbToLab : Q -> Q -> Q -> Lab.
Variable deltaE : Lab -> Lab -> Q.

(** [applyHslAdjustment(rgb, hueShift, satAdj, lightAdj)], the colour
    transform under optimisation, taken as given. *)
Variable applyHslAdjustment : list Q -> Q -> Q -> Q -> list Q.

Definition hslPairResult (hueShift satAdj lightAdj : Q) (pair : Pair)
    : option PerPairResult :=
  match hexToRgb (source pair), hexToRgb (target pair) with
  | Some sRgb, Some tRgb =>
      let achievedRgb := applyHslAdjustment sRgb hueShift satAdj lightAdj in
      Some {| pp_source := source pair;
              pp_target := target pair;
              pp_weight := weightOf pair;
              pp_achieved := spread rgbToHex achievedRgb;
              pp_achievedRgb := achievedRgb;
              pp_error :=
                deltaE (spread rgbToLab tRgb) (spread rgbToLab achievedRgb) |}
  | _, _ => None
  end.

Definition computeHslError (pairs : list Pair)
    (hueShift satAdj lightAdj : Q) : ErrorStats :=
  finish
    (fold_left
       (fun acc pair =>
          match hslPairResult hueShift satAdj lightAdj pair with
          | Some r => accumulate acc r
          | None => acc
          end)
       pairs emptyAcc).

(** [clampParams] of [nelderMead3D]. *)
Definition clampParams (p : point) : point :=
  [ Qmax (-180) (Qmin 180 (nthQ 0 p));
    Qmax (-100) (Qmin 100 (nthQ 1 p));
    Qmax (-100) (Qmin 100 (nthQ 2 p)) ].

Definition n3 : nat := 3.
Definition steps : list Q := [30; 20; 20].

(** The starting point itself enters the simplex as given. *)
Definition nelderMead3D (fn : point -> Q) (initial : point)
    (options : Options) : Eval Found :=
  let iters := orDefaultNat (maxIterations options) 500 in
  let tol := orDefaultQ (tolerance options) (1 # 100000000) in
  let simplex :=
    initial ::
    map (fun i => clampParams (<[i := nthQ i initial + nthQ i steps]> initial))
        (seq 0 n3) in
  simplexSearch clampParams fn n3 tol simplex iters.

Definition startingPoints : list point :=
  [ [0; 0; 0]; [0; -50; 0]; [0; 50; 0]; [0; 0; -30]; [0; 0; 30];
    [60; 0; 0]; [-60; 0; 0]; [120; 0; 0]; [-120; 0; 0] ].

Definition tryStart (objective : point -> Q)
    (best : option point * option Q) (start : point)
    : option point * option Q :=
  let result :=
    value (nelderMead3D objective start
             {| maxIterations := Some 300%nat;
                tolerance := Some (1 # 10000000);
                initialStep := None; paramConfigs := None |}) in
  if Levels.improves (found_value result) (snd best)
  then (Some (solution result), Some (found_value result))
  else best.

Definition restarts (objective : point -> Q) : option point * option Q :=
  fold_left (tryStart objective) startingPoints (None, None).

Record HslResult : Type := {
  hue : Q;
  saturation : Q;
  lightness : Q;
  hsl_stats : ErrorStats;
  hsl_quality : Quality;
}.

(** [optimizeHsl]: [Normal None] is the [null] for an empty pair list,
    [Throw] the [TypeError] of reading [bestResult[0]] on [null]. *)
Definition optimizeHsl (pairs : list Pair) : completion (option HslResult) :=
  let validPairs := validPairsOf pairs in
  match validPairs with
  | [] => Normal None
  | _ :: _ =>
      let objective := fun params =>
        totalError
          (computeHslError validPairs
             (nthQ 0 params) (nthQ 1 params) (nthQ 2 params)) in
      match fst (restarts objective) with
      | None => Throw
      | Some bestResult =>
          let hue := Math_round (nthQ 0 bestResult * 10) / 10 in
          let sat := Math_round (nthQ 1 bestResult * 10) / 10 in
          let light := Math_round (nthQ 2 bestResult * 10) / 10 in
          let finalResult := computeHslError validPairs hue sat light in
          Normal (Some {| hue := hue; saturation := sat; lightness := light;
                          hsl_stats := finalResult;
                          hsl_quality := qualityOf (avgError finalResult) |})
      end
  end.

End WithColorMath.

End HslTool.

(** ** multiStepOptimizer.js *)

Module MultiStep.
Import ColorUtils BlendModes.

Definition HSL_MODE_NAME : string := "Hue/Saturation".
Definition LEVELS_MODE_NAME : string := "Levels".

Definition getModeParamCount (modeName : string) : nat :=
  if String.eqb modeName LEVELS_MODE_NAME then 5%nat else 3%nat.

(** [{ h, s, l }] and the Levels display object of a finished step. *)
Record HslValues : Type := { hv_h : Q; hv_s : Q; hv_l : Q }.

Record Step : Type := {
  modeName : string;
  step_blend : point;
  opacity : Q;
  hslValues : option HslValues;
  levelsValues : option Levels.LevelsParams;
  step_blendHex : string;
  stepError : Q;
}.

(** A step as the objective builds it: mode, parameters, opacity. *)
Definition bareStep (mode : string) (blend : point) (op : Q) : Step :=
  {| modeName := mode; step_blend := blend; opacity := op;
     hslValues := None; levelsValues := None;
     step_blendHex := EmptyString; stepError := 0 |}.

Record MultiPairResult : Type := {
  mp_source : option string;
  mp_target : option string;
  mp_weight : Q;
  mp_achieved : string;
  mp_intermediates : list string;
  mp_error : Q;
}.

Record MultiStats : Type := {
  ms_totalError : Q;
  ms_avgError : Q;
  ms_maxError : Q;
  ms_perPairResults : list MultiPairResult;
}.

Section WithColorMath.

Variable Lab : Type.
Variable rgbToLab : Q -> Q -> Q -> Lab.
Variable deltaE : Lab -> Lab -> Q.
Variable applyHslAdjustment : list Q -> Q -> Q -> Q -> list Q.
Variable applyLevelsAdjustment : list Q -> Levels.LevelsParams -> list Q.

(** How a number prints inside a template string. *)
Variable numberToString : Q -> string.

(** [clamp(opacity * res[k] + (1 - opacity) * source[k], 0, 1)] for the
    three channels. *)
Definition mix (op : Q) (res sourceNorm : list Q) : list Q :=
  [ clamp (op * nthQ 0 res + (1 - op) * nthQ 0 sourceNorm) 0 1;
    clamp (op * nthQ 1 res + (1 - op) * nthQ 1 sourceNorm) 0 1;
    clamp (op * nthQ 2 res + (1 - op) * nthQ 2 sourceNorm) 0 1 ].

Definition applyBlendNorm (modeName : string) (sourceNorm blendNorm : list Q)
    (op : Q) : list Q :=
  if String.eqb modeName HSL_MODE_NAME then
    let h := nthQ 0 blendNorm * 360 - 180 in
    let s := nthQ 1 blendNorm * 200 - 100 in
    let l := nthQ 2 blendNorm * 200 - 100 in
    let sRgb := map (fun c => Math_round (c * 255)) sourceNorm in
    let resRgb := applyHslAdjustment sRgb h s l in
    mix op (map (fun c => c / 255) resRgb) sourceNorm
  else if String.eqb modeName LEVELS_MODE_NAME then
    let inBlack := Qmin 253 (Qmax 0 (nthQ 0 blendNorm * 255)) in
    let inWhite := Qmax (inBlack + 2) (Qmin 255 (nthQ 1 blendNorm * 255)) in
    let gam := Qmax (1#10) (Qmin (999#100) (nthQ 2 blendNorm * (989#100) + (1#10))) in
    let params :=
      {| Levels.inputBlack := inBlack;
         Levels.inputWhite := inWhite;
         Levels.inputGamma := gam;
         Levels.outputBlack := nthQ 3 blendNorm * 255;
         Levels.outputWhite := nthQ 4 blendNorm * 255 |} in
    let sRgb := map (fun c => Math_round (c * 255)) sourceNorm in
    let resRgb := applyLevelsAdjustment sRgb params in
    mix op (map (fun c => c / 255) resRgb) sourceNorm
  else
    mix op
      [ applyBlendChannel modeName (nthQ 0 sourceNorm) (nthQ 0 blendNorm);
        applyBlendChannel modeName (nthQ 1 sourceNorm) (nthQ 1 blendNorm);
        applyBlendChannel modeName (nthQ 2 sourceNorm) (nthQ 2 blendNorm) ]
      sourceNorm.

(** The loop over the steps for one pair: the current colour and the
    [intermediates] labels. *)
Definition runSteps (steps : list Step) (sNorm : list Q)
    : list Q * list string :=
  fold_left
    (fun (st : list Q * list string) step =>
       let current :=
         applyBlendNorm (modeName step) (fst st) (step_blend step) (opacity step) in
       let hex := spread rgbToHex (map (fun c => Math_round (c * 255)) current) in
       let label :=
         if Qlt_le_dec (opacity step) 1
         then (hex ++ " @ " ++ numberToString (Math_round (opacity step * 100))
                   ++ "%")%string
         else hex in
       (current, snd st ++ [label]))
    steps (sNorm, []).

Definition multiPairResult (steps : list Step) (pair : Pair)
    : option MultiPairResult :=
  match hexToRgb (source pair), hexToRgb (target pair) with
  | Some sRgb, Some tRgb =>
      let '(current, intermediates) := runSteps steps (normalize sRgb) in
      let achievedRgb := map (fun c => Math_round (c * 255)) current in
      Some {| mp_source := source pair;
              mp_target := target pair;
              mp_weight := weightOf pair;
              mp_achieved := spread rgbToHex achievedRgb;
              mp_intermediates := intermediates;
              mp_error :=
                deltaE (spread rgbToLab tRgb) (spread rgbToLab achievedRgb) |}
  | _, _ => None
  end.

Definition computeMultiStepError (pairs : list Pair) (steps : list Step)
    : MultiStats :=
  let '(total, totalWeight, maxErr, results) :=
    fold_left
      (fun '(total, totalWeight, maxErr, results) pair =>
         match multiPairResult steps pair with
         | Some r =>
             (total + mp_error r * mp_weight r,
              totalWeight + mp_weight r,
              Qmax maxErr (mp_error r),
              results ++ [r])
         | None => (total, totalWeight, maxErr, results)
         end)
      pairs (0, 0, 0, []) in
  {| ms_totalError := total;
     ms_avgError := if Qlt_le_dec 0 totalWeight then total / totalWeight else 0;
     ms_maxError := maxErr;
     ms_perPairResults := results |}.

(** [clampParams] of [nelderMeadMultiDim]:
    [paramConfigs[idx] || { min: 0, max: 1 }]. *)
Definition clampParams (paramConfigs : list Bound) (v : point) : point :=
  imap (fun idx val =>
          let config := default {| min := 0; max := 1 |} (paramConfigs !! idx) in
          clamp val (min config) (max config))
       v.

Definition nelderMeadMultiDim (objective : point -> Q) (initial : point)
    (options : Options) : Eval Found :=
  let iters := orDefaultNat (maxIterations options) 500 in
  let tol := orDefaultQ (tolerance options) (1 # 100000000) in
  let configs := default [] (paramConfigs options) in
  let n := length initial in
  let step := orDefaultQ (initialStep options) (2 # 10) in
  let simplex :=
    clampParams configs initial ::
    map (fun i => clampParams configs (<[i := nthQ i initial + step]> initial))
        (seq 0 n) in
  simplexSearch (clampParams configs) objective n tol simplex iters.

(** [Math.random()]: the draws of a run, in order; a computation that
    draws threads the number of draws made so far. *)
Variable random : nat -> Q.

Definition perturbSolution (solution : point) (strength : Q)
    (paramConfigs : list Bound) (drawn : nat) : point * nat :=
  (imap (fun idx v =>
           let config := default {| min := 0; max := 1 |} (paramConfigs !! idx) in
           let val := v + (random (drawn + idx)%nat - (1#2)) * 2 * strength in
           clamp val (min config) (max config))
        solution,
   (drawn + length solution)%nat).

Definition randomSolution (dims : nat) (paramConfigs : list Bound)
    (drawn : nat) : point * nat :=
  (map (fun idx =>
          let config := default {| min := 0; max := 1 |} (paramConfigs !! idx) in
          min config + random (drawn + idx)%nat * (max config - min config))
       (seq 0 dims),
   (drawn + dims)%nat).

(** One basin hop: perturb the current solution, refine from there, and
    adopt the refined point only if its value is lower. *)
Definition basinHop (objective : point -> Q) (paramConfigs : list Bound)
    (hop : nat) (current : Found) (drawn : nat) : Found * nat :=
  let '(perturbed, drawn') :=
    perturbSolution (solution current)
      ((2#10) + inject_Z (Z.of_nat hop) * (1#10)) paramConfigs drawn in
  let hopResult :=
    value (nelderMeadMultiDim objective perturbed
             {| maxIterations := Some 300%nat;
                tolerance := Some (1 # 10000000);
                initialStep := Some (15 # 100);
                paramConfigs := Some paramConfigs |}) in
  (if ltb (found_value hopResult) (found_value current)
   then hopResult else current,
   drawn').

(** [for (let hop = 0; hop < basinHops; hop++)], from hop number [hop]. *)
Fixpoint basinHopping (objective : point -> Q) (paramConfigs : list Bound)
    (hop count : nat) (current : Found) (drawn : nat) : Found * nat :=
  match count with
  | O => (current, drawn)
  | S count' =>
      let '(current', drawn') :=
        basinHop objective paramConfigs hop current drawn in
      basinHopping objective paramConfigs (S hop) count' current' drawn'
  end.

(** [{ paramCount, startIndex }] *)
Record StepConfig : Type := { paramCount : nat; startIndex : nat }.

(** Part 1 of [jointOptimizeModeSequenceEnhanced]: [stepConfigs], the
    flattened [paramConfigs] and [totalDims]. *)
Definition layout (modeSequence : list string) (minOpacity maxOpacity : Q)
    : list StepConfig * list Bound * nat :=
  fold_left
    (fun '(stepConfigs, paramConfigs, currentIdx) mode =>
       let count := getModeParamCount mode in
       (stepConfigs ++ [{| paramCount := count; startIndex := currentIdx |}],
        paramConfigs ++ replicate count {| min := 0; max := 1 |}
                     ++ [{| min := minOpacity; max := maxOpacity |}],
        (currentIdx + count + 1)%nat))
    modeSequence ([], [], O).

Definition configAt (stepConfigs : list StepConfig) (i : nat) : StepConfig :=
  default {| paramCount := O; startIndex := O |} (stepConfigs !! i).

(** [flatParams[base + j]] for [j < count]. *)
Definition slice (flatParams : point) (base count : nat) : point :=
  map (fun j => nthQ (base + j) flatParams) (seq 0 count).

(** Part 2: the objective on a flattened parameter vector. *)
Definition objectiveOf (validPairs : list Pair) (modeSequence : list string)
    (stepConfigs : list StepConfig) (flatParams : point) : Q :=
  let steps :=
    imap (fun i mode =>
            let config := configAt stepConfigs i in
            bareStep mode
              (slice flatParams (startIndex config) (paramCount config))
              (nthQ (startIndex config + paramCount config) flatParams))
         modeSequence in
  ms_totalError (computeMultiStepError validPairs steps).

(** The starting point of restart number [restart]. *)
Definition initialOf (restart : nat) (initialBlends : option (list point))
    (modeSequence : list string) (stepConfigs : list StepConfig)
    (maxOpacity : Q) (totalDims : nat) (paramConfigs : list Bound)
    (drawn : nat) : point * nat :=
  let neutralOrRandom :=
    if Nat.eqb restart 1 then
      (concat (map (fun config =>
                      replicate (paramCount config) (1#2) ++ [maxOpacity])
                   stepConfigs), drawn)
    else randomSolution totalDims paramConfigs drawn in
  match initialBlends with
  | Some blends =>
      if Nat.eqb restart 0 && Nat.eqb (length blends) (length modeSequence)
      then (concat (map (fun blend => blend ++ [maxOpacity]) blends), drawn)
      else neutralOrRandom
  | None => neutralOrRandom
  end.

(** Part 3: the restart loop from restart number [restart]; the state is
    [globalBest], [globalBestValue] ([None] for [Infinity]) and the number
    of random draws made. *)
Fixpoint restartLoop (objective : point -> Q)
    (initialBlends : option (list point)) (modeSequence : list string)
    (stepConfigs : list StepConfig) (maxOpacity : Q) (totalDims : nat)
    (paramConfigs : list Bound) (basinHops : nat) (restart count : nat)
    (st : option point * option Q * nat) : option point * option Q * nat :=
  match count with
  | O => st
  | S count' =>
      let '(globalBest, globalBestValue, drawn) := st in
      let '(initial, drawn1) :=
        initialOf restart initialBlends modeSequence stepConfigs maxOpacity
          totalDims paramConfigs drawn in
      let found :=
        value (nelderMeadMultiDim objective initial
                 {| maxIterations := Some 400%nat;
                    tolerance := Some (1 # 100000000);
                    initialStep := Some (25 # 100);
                    paramConfigs := Some paramConfigs |}) in
      let '(hopped, drawn2) :=
        basinHopping objective paramConfigs 0 basinHops found drawn1 in
      let st' :=
        if Levels.improves (found_value hopped) globalBestValue
        then (Some (solution hopped), Some (found_value hopped), drawn2)
        else (globalBest, globalBestValue, drawn2) in
      restartLoop objective initialBlends modeSequence stepConfigs maxOpacity
        totalDims paramConfigs basinHops (S restart) count' st'
  end.

(** [parseFloat(x.toFixed(2))] *)
Definition toFixed2 (x : Q) : Q := Math_round (x * 100) / 100.

(** Part 4, one step of the result, read off [globalBest]. *)
Definition buildStep (globalBest : point) (minOpacity maxOpacity : Q)
    (mode : string) (config : StepConfig) : Step :=
  let base := startIndex config in
  let blend :=
    map (fun j => clamp (nthQ (base + j) globalBest) 0 1)
        (seq 0 (paramCount config)) in
  let op := clamp (nthQ (base + paramCount config) globalBest)
                  minOpacity maxOpacity in
  if String.eqb mode HSL_MODE_NAME then
    {| modeName := mode; step_blend := blend; opacity := op;
       hslValues :=
         Some {| hv_h := Math_round (nthQ 0 blend * 360 - 180);
                 hv_s := Math_round (nthQ 1 blend * 200 - 100);
                 hv_l := Math_round (nthQ 2 blend * 200 - 100) |};
       levelsValues := None;
       step_blendHex := "#HSL"; stepError := 0 |}
  else if String.eqb mode LEVELS_MODE_NAME then
    let ib := Qmin 253 (Qmax 0 (Math_round (nthQ 0 blend * 255))) in
    let iw := Qmax (ib + 2) (Qmin 255 (Math_round (nthQ 1 blend * 255))) in
    {| modeName := mode; step_blend := blend; opacity := op;
       hslValues := None;
       levelsValues :=
         Some {| Levels.inputBlack := ib;
                 Levels.inputWhite := iw;
                 Levels.inputGamma :=
                   toFixed2 (Qmax (1#10)
                               (Qmin (999#100)
                                  (nthQ 2 blend * (989#100) + (1#10))));
                 Levels.outputBlack := Math_round (nthQ 3 blend * 255);
                 Levels.outputWhite := Math_round (nthQ 4 blend * 255) |};
       step_blendHex := "#LVL"; stepError := 0 |}
  else
    {| modeName := mode; step_blend := blend; opacity := op;
       hslValues := None; levelsValues := None;
       step_blendHex :=
         spread rgbToHex (map (fun c => Math_round (c * 255)) blend);
       stepError := 0 |}.

Record SequenceResult : Type := {
  steps : list Step;
  modeSequence : list string;
  seq_stats : MultiStats;
}.

(** [stepWeightedError] of one step: the weighted Delta E of every pair
    at its current colour; [None] when [hexToRgb(p.target)] is [null] and
    the spread call raises. *)
Definition stepWeightedError (validPairs : list Pair)
    (currentColors : list (list Q)) : option Q :=
  fold_left
    (fun (acc : option Q) '(idx, p) =>
       match acc, hexToRgb (target p) with
       | Some total, Some targetRgb =>
           let achievedRgb :=
             map (fun c => Math_round (c * 255))
                 (default [] (currentColors !! idx)) in
           Some (total +
                 deltaE (spread rgbToLab targetRgb) (spread rgbToLab achievedRgb)
                 * weightOf p)
       | _, _ => None
       end)
    (imap (fun idx p => (idx, p)) validPairs) (Some 0).

(** The per-step error loop of part 4. *)
Fixpoint stepErrors (validPairs : list Pair) (totalWeight : Q)
    (currentColors : list (list Q)) (steps : list Step)
    : option (list Step) :=
  match steps with
  | [] => Some []
  | step :: steps' =>
      let currentColors :=
        map (fun c => applyBlendNorm (modeName step) c (step_blend step)
                        (opacity step)) currentColors in
      match stepWeightedError validPairs currentColors with
      | None => None
      | Some weighted =>
          let step' :=
            {| modeName := modeName step; step_blend := step_blend step;
               opacity := opacity step; hslValues := hslValues step;
               levelsValues := levelsValues step;
               step_blendHex := step_blendHex step;
               stepError := if Qlt_le_dec 0 totalWeight
                            then weighted / totalWeight else 0 |} in
          match stepErrors validPairs totalWeight currentColors steps' with
          | Some rest => Some (step' :: rest)
          | None => None
          end
      end
  end.

(** [jointOptimizeModeSequenceEnhanced].  [Normal None] is the [null] for
    an empty pair list.  [Throw] is a [TypeError]: [globalBest] still
    [null] when the steps are read off it (no restart ran), or a complete
    pair whose colour does not parse when the per-step errors are
    computed.  The second component is the number of random draws made. *)
Definition jointOptimizeModeSequenceEnhanced (pairs : list Pair)
    (modeSequence : list string) (initialBlends : option (list point))
    (numRestarts basinHops : nat) (minOpacity maxOpacity : Q) (drawn : nat)
    : completion (option SequenceResult) * nat :=
  let validPairs := validPairsOf pairs in
  match validPairs with
  | [] => (Normal None, drawn)
  | _ :: _ =>
      let '(stepConfigs, paramConfigs, totalDims) :=
        layout modeSequence minOpacity maxOpacity in
      let objective := objectiveOf validPairs modeSequence stepConfigs in
      let '(globalBest, _, drawn') :=
        restartLoop objective initialBlends modeSequence stepConfigs maxOpacity
          totalDims paramConfigs basinHops 0 numRestarts (None, None, drawn) in
      let built : option (list Step) :=
        match modeSequence, globalBest with
        | [], _ => Some []
        | _ :: _, None => None
        | _ :: _, Some best =>
            Some (imap (fun i mode =>
                          buildStep best minOpacity maxOpacity mode
                            (configAt stepConfigs i))
                       modeSequence)
        end in
      match built with
      | None => (Throw, drawn')
      | Some steps0 =>
          let result := computeMultiStepError validPairs steps0 in
          let totalWeight :=
            fold_left (fun sum p => sum + weightOf p) validPairs 0 in
          match mapM (fun p => normalize <$> hexToRgb (source p)) validPairs with
          | None => (Throw, drawn')
          | Some currentColors =>
              match stepErrors validPairs totalWeight currentColors steps0 with
              | None => (Throw, drawn')
              | Some steps1 =>
                  (Normal (Some {| steps := steps1;
                                   modeSequence := modeSequence;
                                   seq_stats := result |}), drawn')
              end
          end
      end
  end.

(** *** The asynchronous search object *)

(** A result with the baseline fields [optimize] adds to it. *)
Record MetaResult : Type := {
  result : SequenceResult;
  singleBestMode : option string;
  singleBestError : option Q;
  improvement : jsnum;
}.

Definition metaAvgError (r : MetaResult) : Q := ms_avgError (seq_stats (result r)).

(** The signature of one step inside a sequence key. *)
Definition stepKey (s : Step) : string :=
  match hslValues s, levelsValues s with
  | Some v, _ =>
      ("HSL:" ++ numberToString (hv_h v) ++ "," ++ numberToString (hv_s v)
              ++ "," ++ numberToString (hv_l v))%string
  | None, Some v => ("LVL:" ++ numberToString (Levels.inputGamma v))%string
  | None, None => (modeName s ++ ":" ++ step_blendHex s)%string
  end.

(** [getKey]: the step signatures joined by a bar. *)
Definition getKey (res : MetaResult) : string :=
  String.concat "|" (map stepKey (steps (result res))).

(** [updateTopSolutions], as a function from the stored list and the new
    result to the stored list. *)
Definition updateTopSolutions (topSolutions : list MetaResult)
    (newResult : MetaResult) : list MetaResult :=
  let MAX := 6%nat in
  let seqKey := getKey newResult in
  let all :=
    match list_find (fun s => getKey s = seqKey) topSolutions with
    | Some (idx, stored) =>
        if ltb (metaAvgError newResult) (metaAvgError stored)
        then <[idx := newResult]> topSolutions
        else topSolutions
    | None => topSolutions ++ [newResult]
    end in
  take MAX (sortBy metaAvgError all).

(** The fields of a [MultiStepOptimizerAsync] object. *)
Record Instance : Type := {
  cancelled : bool;
  bestResult : option MetaResult;
  topSolutions : list MetaResult;
}.

(** [cancel() { this.cancelled = true; }] *)
Definition cancel (this : Instance) : Instance :=
  {| cancelled := true;
     bestResult := bestResult this;
     topSolutions := topSolutions this |}.

Inductive Phase : Type :=
  | single | greedy | generating | optimizing | done.

(** What the host sees of a run: progress reports, best-list reports and
    the points where the run suspends itself. *)
Inductive HostEvent : Type :=
  | Progress (phase : Phase) (current total : option nat)
             (currentSequence : option (list string))
  | BestFound (tops : list MetaResult)
  | Sleep.

(** The host gets control at every such event, and only there.
    [cancelDuring k] tells whether it calls [cancel()] during the [k]-th
    one. *)
Variable cancelDuring : nat -> bool.

Record Run : Type := {
  this : Instance;
  hostTurns : nat;
  drawn : nat;
  trace : list HostEvent;
}.

Definition hostTurn (ev : HostEvent) (r : Run) : Run :=
  {| this := if cancelDuring (hostTurns r) then cancel (this r) else this r;
     hostTurns := S (hostTurns r);
     drawn := drawn r;
     trace := trace r ++ [ev] |}.

(** [await this.sleep()] *)
Definition sleep (r : Run) : Run := hostTurn Sleep r.

Definition withThis (r : Run) (i : Instance) : Run :=
  {| this := i; hostTurns := hostTurns r; drawn := drawn r; trace := trace r |}.

Definition withDrawn (r : Run) (d : nat) : Run :=
  {| this := this r; hostTurns := hostTurns r; drawn := d; trace := trace r |}.

Record SearchOptions : Type := {
  existingBest : option MetaResult;
  onProgress : bool;
  onBestFound : bool;
  minOpacity : option Q;
  maxOpacity : option Q;
  allowHsl : bool;
  allowLevels : bool;
  extensive : bool;
}.

(** [if (this.onProgress) this.onProgress({...})] *)
Definition report (options : SearchOptions) (ev : HostEvent) (r : Run) : Run :=
  if onProgress options then hostTurn ev r else r.

(** What [optimize] resolves to: [null], [this.bestResult] or
    [this.topSolutions]. *)
Inductive Returned : Type :=
  | RetNull
  | RetBest (best : option MetaResult)
  | RetTop (tops : list MetaResult).

Record Candidate : Type := {
  cand_modeSequence : list string;
  cand_initialBlends : option (list point);
}.

(** The candidate generators draw random numbers in loops and are taken as
    given: the greedy search (which raises when a complete pair has a
    colour that does not parse) and the enumeration. *)
Variable greedySearchSequences :
  list Pair -> nat -> nat -> Q -> Q -> bool -> bool -> nat ->
  completion (list Candidate) * nat.
Variable generateModeSequences :
  nat -> nat -> bool -> bool -> nat -> list (list string) * nat.

(** Phase 0, the loop over [blendModes]: [inl] is the early return on
    cancellation, [inr] carries [singleBestMode] and [singleBestError]. *)
Fixpoint singlePhase (this : Instance) (validPairs : list Pair)
    (modes : list BlendMode) (best : option string * option Q)
    : Returned + (option string * option Q) :=
  match modes with
  | [] => inr best
  | mode :: modes' =>
      if cancelled this then inl (RetBest (bestResult this))
      else
        let best' :=
          match Optimizer.optimizeBlend Lab rgbToLab deltaE mode validPairs with
          | Some res =>
              if Levels.improves (Optimizer.or_avgError res) (snd best)
              then (Some (name mode), Some (Optimizer.or_avgError res))
              else best
          | None => best
          end in
        singlePhase this validPairs modes' best'
  end.

(** [{ ...result, singleBestMode, singleBestError, improvement }].  With
    [singleBestError] still [Infinity] the improvement is [NaN]. *)
Definition metaOf (res : SequenceResult) (bestMode : option string)
    (bestError : option Q) : MetaResult :=
  {| result := res;
     singleBestMode := bestMode;
     singleBestError := bestError;
     improvement :=
       match bestError with
       | None => NonFinite
       | Some e =>
           if Qlt_le_dec 0 e
           then Num (Qmax 0 ((e - ms_avgError (seq_stats res)) / e * 100))
           else Num (Qmax 0 0)
       end |}.

(** The [try { ... } catch (e) { console.error(e); }] block of phase 3. *)
Definition evaluateCandidate (options : SearchOptions) (validPairs : list Pair)
    (minOp maxOp : Q) (numRestartsBase basinHopsCount : nat)
    (bestMode : option string) (bestError : option Q)
    (candidate : Candidate) (r : Run) : Run :=
  let numRestarts :=
    match cand_initialBlends candidate with
    | Some _ => numRestartsBase
    | None => (numRestartsBase + 2)%nat
    end in
  let '(outcome, d) :=
    jointOptimizeModeSequenceEnhanced validPairs (cand_modeSequence candidate)
      (cand_initialBlends candidate) numRestarts basinHopsCount minOp maxOp
      (drawn r) in
  let r := withDrawn r d in
  match outcome with
  | Normal (Some res) =>
      let metaResult := metaOf res bestMode bestError in
      let tops := updateTopSolutions (topSolutions (this r)) metaResult in
      let best :=
        match bestResult (this r) with
        | None => Some metaResult
        | Some b =>
            if ltb (metaAvgError metaResult) (metaAvgError b)
            then Some metaResult else Some b
        end in
      let r :=
        withThis r {| cancelled := cancelled (this r);
                      bestResult := best; topSolutions := tops |} in
      if onBestFound options then hostTurn (BestFound tops) r else r
  | Normal None => r
  | Throw => r
  end.

(** The body of the phase 3 loop after the cancellation check, for the
    candidate counted as number [evaluated]. *)
Definition candidateTurn (options : SearchOptions) (validPairs : list Pair)
    (minOp maxOp : Q) (numRestartsBase basinHopsCount : nat)
    (bestMode : option string) (bestError : option Q)
    (candidate : Candidate) (evaluated total : nat) (r : Run) : Run :=
  let r :=
    report options
      (Progress optimizing (Some evaluated) (Some total)
         (Some (cand_modeSequence candidate))) r in
  let r :=
    evaluateCandidate options validPairs minOp maxOp numRestartsBase
      basinHopsCount bestMode bestError candidate r in
  if Nat.eqb (evaluated mod 3) 0 then sleep r else r.

(** Phase 3, the loop over [allCandidates], and what follows it. *)
Fixpoint optimizingPhase (options : SearchOptions) (validPairs : list Pair)
    (minOp maxOp : Q) (numRestartsBase basinHopsCount : nat)
    (bestMode : option string) (bestError : option Q)
    (candidates : list Candidate) (evaluated total : nat) (r : Run)
    : Returned * Run :=
  match candidates with
  | [] =>
      let r := report options (Progress done None None None) r in
      (RetTop (topSolutions (this r)), r)
  | candidate :: candidates' =>
      if cancelled (this r) then (RetBest (bestResult (this r)), r)
      else
        let evaluated := S evaluated in
        optimizingPhase options validPairs minOp maxOp numRestartsBase
          basinHopsCount bestMode bestError candidates' evaluated total
          (candidateTurn options validPairs minOp maxOp numRestartsBase
             basinHopsCount bestMode bestError candidate evaluated total r)
  end.

(** The merge of the greedy and the enumerated candidates, first
    occurrence of each mode sequence kept. *)
Definition dedupe (candidates : list Candidate) : list Candidate :=
  fst (fold_left
         (fun (st : list Candidate * gset string) c =>
            let key := String.concat "|" (cand_modeSequence c) in
            if bool_decide (key ∈ snd st) then st
            else (fst st ++ [c], {[ key ]} ∪ snd st))
         candidates ([], ∅)).

(** [async optimize(pairs, numSteps, options)], run on the object and host
    position held in [r0]. *)
Definition optimize (pairs : list Pair) (numSteps : nat)
    (options : SearchOptions) (r0 : Run) : completion Returned * Run :=
  let r :=
    withThis r0
      {| cancelled := false;
         bestResult := existingBest options;
         topSolutions := option_list (existingBest options) |} in
  let minOp := orDefaultQ (minOpacity options) 10 / 100 in
  let maxOp := orDefaultQ (maxOpacity options) 100 / 100 in
  let greedyTrials := if extensive options then 100%nat else 30%nat in
  let maxSequences := if extensive options then 600%nat else 200%nat in
  let numRestartsBase := if extensive options then 5%nat else 2%nat in
  let basinHopsCount := if extensive options then 4%nat else 1%nat in
  let validPairs := validPairsOf pairs in
  match validPairs with
  | [] => (Normal RetNull, r)
  | _ :: _ =>
      let r := report options (Progress single None None None) r in
      match singlePhase (this r) validPairs blendModes (None, None) with
      | inl ret => (Normal ret, r)
      | inr (bestMode, bestError) =>
          let r := sleep r in
          let r := report options (Progress greedy None None None) r in
          let '(found, d) :=
            greedySearchSequences validPairs numSteps greedyTrials minOp maxOp
              (allowHsl options) (allowLevels options) (drawn r) in
          match found with
          | Throw => (Throw, withDrawn r d)
          | Normal greedyCandidates =>
              let r := sleep (withDrawn r d) in
              let r := report options (Progress generating None None None) r in
              let '(enumerated, d) :=
                generateModeSequences numSteps maxSequences
                  (allowHsl options) (allowLevels options) (drawn r) in
              let allCandidates :=
                dedupe (greedyCandidates ++
                        map (fun seq => {| cand_modeSequence := seq;
                                           cand_initialBlends := None |})
                            enumerated) in
              let r := sleep (withDrawn r d) in
              let '(ret, r) :=
                optimizingPhase options validPairs minOp maxOp numRestartsBase
                  basinHopsCount bestMode bestError allCandidates 0
                  (length allCandidates) r in
              (Normal ret, r)
          end
      end
  end.

End WithColorMath.

End MultiStep.

(** ** multiStepOptimizer.js: the enumeration of mode sequences *)

Module Enumeration.
Import BlendModes.

(** [modeNames]: the catalogue names, then the two tool names when they
    are allowed. *)
Definition modeNamesOf (allowHsl allowLevels : bool) : list string :=
  map name blendModes
  ++ (if allowHsl then [MultiStep.HSL_MODE_NAME] else [])
  ++ (if allowLevels then [MultiStep.LEVELS_MODE_NAME] else []).

(** The recursive [generate(current)] of the exhaustive branch;
    [remaining] is [numSteps - current.length].  The result is what the
    call appends to [sequences]. *)
Fixpoint generate (modeNames : list string) (remaining : nat)
    (current : list string) : list (list string) :=
  match remaining with
  | O => [current]
  | S remaining' =>
      flat_map (fun mode => generate modeNames remaining' (current ++ [mode]))
               modeNames
  end.

(** [if (!used.has(key)) { used.add(key); sequences.push(seq); }] on the
    pair of [sequences] and [used]. *)
Definition addIfNew (st : list (list string) * gset string)
    (seq : list string) : list (list string) * gset string :=
  let key := String.concat "|" seq in
  if bool_decide (key ∈ snd st) then st
  else (fst st ++ [seq], {[ key ]} ∪ snd st).

(** The uniform sequences [Array(numSteps).fill(mode)]. *)
Definition uniform (modeNames : list string) (numSteps : nat)
    : list (list string) * gset string :=
  fold_left (fun st mode => addIfNew st (replicate numSteps mode))
            modeNames ([], ∅).

Section Sampling.

(** [Math.random()], as in [MultiStep]: the draws of a run, in order. *)
Variable random : nat -> Q.

(** [modeNames[Math.floor(Math.random() * numModes)]], [numSteps] times.
    A draw lies in [0, 1), so the index is in range; the default stands for
    a read that no run performs. *)
Definition randomSequence (modeNames : list string) (numSteps drawn : nat)
    : list string :=
  map (fun i =>
         nth (Z.to_nat
                (Qfloor (random (drawn + i)%nat
                         * inject_Z (Z.of_nat (length modeNames)))))
             modeNames EmptyString)
      (seq 0 numSteps).

(** [while (sequences.length < maxSequences)]: the loop need not end, so
    it runs on fuel, and [None] is a run that is still sampling when the
    fuel is spent. *)
Fixpoint sampling (fuel : nat) (modeNames : list string)
    (numSteps maxSequences : nat) (st : list (list string) * gset string)
    (drawn : nat) : option (list (list string)) * nat :=
  if (length (fst st) <? maxSequences)%nat then
    match fuel with
    | O => (None, drawn)
    | S fuel' =>
        sampling fuel' modeNames numSteps maxSequences
          (addIfNew st (randomSequence modeNames numSteps drawn))
          (drawn + numSteps)%nat
    end
  else (Some (fst st), drawn).

(** [generateModeSequences(numSteps, maxSequences, allowHsl, allowLevels)];
    the second component is the number of random draws made. *)
Definition generateModeSequences (fuel numSteps maxSequences : nat)
    (allowHsl allowLevels : bool) (drawn : nat)
    : option (list (list string)) * nat :=
  let modeNames := modeNamesOf allowHsl allowLevels in
  let numModes := length modeNames in
  if Nat.eqb numSteps 1 then (Some (map (fun m => [m]) modeNames), drawn)
  else if (numModes ^ numSteps <=? maxSequences)%nat
  then (Some (generate modeNames numSteps []), drawn)
  else sampling fuel modeNames numSteps maxSequences
         (uniform modeNames numSteps) drawn.

End Sampling.

End Enumeration.

(** ** colorUtils.js: the Hue/Saturation adjustment *)

Module HslAdjust.
Import ColorUtils.

(** [Math.trunc], and [a % n] on numbers: the remainder has the sign of
    the dividend. *)
Definition trunc (x : Q) : Z :=
  if Qlt_le_dec x 0 then Qceiling x else Qfloor x.

Definition remainder (a n : Q) : Q := a - n * inject_Z (trunc (a / n)).

(** [Math.max(r, g, b)] and [Math.min(r, g, b)] *)
Definition max3 (r g b : Q) : Q := Qmax (Qmax r g) b.
Definition min3 (r g b : Q) : Q := Qmin (Qmin r g) b.

(** [rgbToHsl]: channels in 0..255 to hue in degrees, saturation and
    lightness in [0,1].  The [switch (max)] tries [r], [g], [b] in this
    order; the maximum is one of them, so the last case needs no test. *)
Definition rgbToHsl (r g b : Q) : list Q :=
  let r := r / 255 in
  let g := g / 255 in
  let b := b / 255 in
  let max := max3 r g b in
  let min := min3 r g b in
  let l := (max + min) / 2 in
  if Qeq_dec max min then [0; 0; l]
  else
    let d := max - min in
    let s := if Qlt_le_dec (1#2) l then d / (2 - max - min) else d / (max + min) in
    let h :=
      if Qeq_dec max r then ((g - b) / d + (if Qlt_le_dec g b then 6 else 0)) / 6
      else if Qeq_dec max g then ((b - r) / d + 2) / 6
      else ((r - g) / d + 4) / 6 in
    [h * 360; s; l].

Definition hue2rgb (p q t : Q) : Q :=
  let t := if Qlt_le_dec t 0 then t + 1 else t in
  let t := if Qlt_le_dec 1 t then t - 1 else t in
  if Qlt_le_dec t (1#6) then p + (q - p) * 6 * t
  else if Qlt_le_dec t (1#2) then q
  else if Qlt_le_dec t (2#3) then p + (q - p) * ((2#3) - t) * 6
  else p.

(** [hslToRgb]: back to channels in 0..255, rounded. *)
Definition hslToRgb (h s l : Q) : list Q :=
  let h := remainder (remainder h 360 + 360) 360 in
  let h := h / 360 in
  if Qeq_dec s 0 then
    let v := Math_round (l * 255) in [v; v; v]
  else
    let q := if Qlt_le_dec l (1#2) then l * (1 + s) else l + s - l * s in
    let p := 2 * l - q in
    [ Math_round (hue2rgb p q (h + (1#3)) * 255);
      Math_round (hue2rgb p q h * 255);
      Math_round (hue2rgb p q (h - (1#3)) * 255) ].

(** [applyHslAdjustment(rgb, hueShift, satAdj, lightAdj)]: the hue is
    rotated in HSL space, saturation and lightness are applied to the
    channels, and the channels are clamped to [0, 255]. *)
Definition applyHslAdjustment (rgb : list Q) (hueShift satAdj lightAdj : Q)
    : list Q :=
  let hsl := rgbToHsl (nthQ 0 rgb) (nthQ 1 rgb) (nthQ 2 rgb) in
  let h := remainder (nthQ 0 hsl + hueShift) 360 in
  let h := if Qlt_le_dec h 0 then h + 360 else h in
  let rotated := hslToRgb h (nthQ 1 hsl) (nthQ 2 hsl) in
  let r := nthQ 0 rotated in
  let g := nthQ 1 rotated in
  let b := nthQ 2 rotated in
  let gray := (max3 r g b + min3 r g b) / 2 in
  let satMultiplier :=
    if Qlt_le_dec satAdj 0 then 1 + satAdj / 100
    else if Qeq_dec satAdj 100 then 1000
    else 1 / (1 - satAdj / 100) in
  let r := gray + (r - gray) * satMultiplier in
  let g := gray + (g - gray) * satMultiplier in
  let b := gray + (b - gray) * satMultiplier in
  let lightMultiplier := lightAdj / 100 in
  let lit (c : Q) : Q :=
    if Qlt_le_dec lightAdj 0 then c * (1 + lightMultiplier)
    else c + (255 - c) * lightMultiplier in
  [ clamp (lit r) 0 255; clamp (lit g) 0 255; clamp (lit b) 0 255 ].

End HslAdjust.

(* ================================================================== *)
(** * Vocabulary of the statements                                     *)
(* ================================================================== *)

Import ColorUtils BlendModes.

(** ** Ranges and bounds *)

(** The catalogue entries whose forward evaluator contains an unclamped
    quotient. *)
Definition quotientModes : list string :=
  ["Divide"; "Color Burn"; "Color Dodge"; "Vivid Light"].

(** The bound of a dimension: [paramConfigs[idx] || { min: 0, max: 1 }]. *)
Definition boundOf (configs : list Bound) (idx : nat) : Bound :=
  default {| min := 0; max := 1 |} (configs !! idx).

(** Every coordinate of [p] lies within the bound of its dimension. *)
Definition withinBounds (configs : list Bound) (p : point) : Prop :=
  forall idx x, p !! idx = Some x ->
    min (boundOf configs idx) <= x <= max (boundOf configs idx).

(** Every coordinate of [p] lies in [0,1]. *)
Definition inUnitCube (p : point) : Prop := Forall (fun x => 0 <= x <= 1) p.

(** No bound is empty. *)
Definition ordered (configs : list Bound) : Prop :=
  Forall (fun c => min c <= max c) configs.

(** The constraints on a Levels parameter vector. *)
Definition levelsOrdered (p : point) : Prop :=
  nthQ 0 p + 2 <= nthQ 1 p /\ 1 # 10 <= nthQ 2 p <= 999 # 100.

(** The restart loop of the Levels tool holds a vertex and its value, and
    the vertex satisfies the constraints. *)
Definition holdsOrdered (best : option point * option Q) : Prop :=
  exists p v, best = (Some p, Some v) /\ levelsOrdered p.

(** An integer between 0 and 255. *)
Definition isByte (x : Q) : Prop :=
  exists n : Z, (0 <= n <= 255)%Z /\ x = inject_Z n.

(** Three coordinates, each in [0,1]. *)
Definition unitTriple (p : point) : Prop := length p = 3%nat /\ inUnitCube p.

(** Three parameters within the ranges of the Hue/Saturation tool. *)
Definition hslBox (p : point) : Prop :=
  length p = 3%nat
  /\ -180 <= nthQ 0 p <= 180
  /\ -100 <= nthQ 1 p <= 100
  /\ -100 <= nthQ 2 p <= 100.

(** A restart loop holds a vertex and its value, and the vertex is in [P]. *)
Definition holds (P : point -> Prop) (best : option point * option Q) : Prop :=
  exists p v, best = (Some p, Some v) /\ P p.

(** ** Numbers as the program holds them *)

(** [|x - t| <= tol] for a value that may be non-finite: an infinity or NaN
    is within no tolerance of a number. *)
Definition differsAtMost (tol : Q) (x : jsnum) (t : Q) : Prop :=
  match x with
  | Num q => Qabs (q - t) <= tol
  | NonFinite => False
  end.

(** The doubles that may stand for the real number [x] after a correctly
    rounded operation that does not overflow: within a relative error of
    [2^-53] of it, or within [2^-1075] in the subnormal range. *)
Definition rounded (x y : Q) : Prop :=
  Qabs (y - x) <= Qabs x * (1 # 2 ^ 53) + (1 # 2 ^ 1075).

(** ** Recorded evaluations *)

(** [m] ends in a value satisfying [Post], and every point it adds to the
    record satisfies [I]. *)
Definition ensures {A : Type} (I : point -> Prop) (Post : A -> Prop)
    (m : Eval A) : Prop :=
  forall log, Forall I log -> Post (fst (m log)) /\ Forall I (snd (m log)).

(** A computation only ever extends the record. *)
Definition extends {A : Type} (m : Eval A) : Prop :=
  forall log, exists more, snd (m log) = log ++ more.

(** [n + 1] vertices with their values, every vertex in [P]. *)
Definition wellFormed (n : nat) (P : point -> Prop) (st : simplexState) : Prop :=
  length (fst st) = S n /\ length (snd st) = S n /\ Forall P (fst st).

(** The state a turn hands on. *)
Definition stateOf (t : turn simplexState) : simplexState :=
  match t with Break st => st | Continue st => st end.

(** ** Order *)

(** Ascending in a numeric key. *)
Definition ascending {A : Type} (key : A -> Q) : list A -> Prop :=
  Sorted (fun a b => key a <= key b).

(** ** The initial guess, as the specification words it *)

Definition isNumber (b : option jsnum) : bool :=
  match b with Some (Num _) => true | _ => false end.

Definition numberOf (b : option jsnum) : Q :=
  match b with Some (Num q) => q | _ => 0 end.

(** For a pair whose colours parse, each channel is inverted with the
    mode's inverse and passed through [post]; the pair counts only if all
    three inverses are finite numbers.  The result carries the weight of
    the pair. *)
Definition describedInverse (post : Q -> Q) (mode : BlendMode) (p : Pair)
    : option (list Q * Q) :=
  match hexToRgb (source p), hexToRgb (target p) with
  | Some sRgb, Some tRgb =>
      let channels :=
        map (fun i => inverse mode (nthQ i (normalize sRgb))
                                   (nthQ i (normalize tRgb)))
            [0; 1; 2]%nat in
      if forallb isNumber channels
      then Some (map (fun b => post (numberOf b)) channels, weightOf p)
      else None
  | _, _ => None
  end.

Definition Qsum (l : list Q) : Q := fold_right Qplus 0 l.

(** The weighted per-channel average of the valid inverses; the plain
    average when the weights sum to zero; mid-grey when there is none. *)
Definition describedGuess (post : Q -> Q) (mode : BlendMode)
    (pairs : list Pair) : list Q :=
  let valid := omap (describedInverse post mode) pairs in
  let total := Qsum (map snd valid) in
  match valid with
  | [] => [1#2; 1#2; 1#2]
  | _ :: _ =>
      if Qeq_dec total 0 then
        map (fun k => Qsum (map (fun e => nthQ k (fst e)) valid)
                      / inject_Z (Z.of_nat (length valid)))
            [0; 1; 2]%nat
      else
        map (fun k => Qsum (map (fun e => nthQ k (fst e) * snd e) valid) / total)
            [0; 1; 2]%nat
  end.

(** A described inverse as the entry of [validInverses] it becomes. *)
Definition toValid (e : list Q * Q) : Optimizer.ValidInverse :=
  {| Optimizer.norm := fst e; Optimizer.vi_weight := snd e |}.

(** ** The stored top solutions *)

(** What holds of the stored list between calls. *)
Definition retained (numberToString : Q -> string)
    (tops : list MultiStep.MetaResult) : Prop :=
  (length tops <= 6)%nat
  /\ NoDup (map (MultiStep.getKey numberToString) tops)
  /\ ascending MultiStep.metaAvgError tops.

(** The list [all] that [updateTopSolutions] sorts and cuts. *)
Definition merged (numberToString : Q -> string)
    (tops : list MultiStep.MetaResult) (newResult : MultiStep.MetaResult)
    : list MultiStep.MetaResult :=
  match list_find (fun s => MultiStep.getKey numberToString s
                            = MultiStep.getKey numberToString newResult) tops with
  | Some (idx, stored) =>
      if ltb (MultiStep.metaAvgError newResult) (MultiStep.metaAvgError stored)
      then <[idx := newResult]> tops
      else tops
  | None => tops ++ [newResult]
  end.

(** The stored top solutions are in ascending order of average error, and
    the stored best result is the first of them (null when there is
    none). *)
Definition bestFirst (i : MultiStep.Instance) : Prop :=
  ascending MultiStep.metaAvgError (MultiStep.topSolutions i)
  /\ head (MultiStep.topSolutions i) = MultiStep.bestResult i.

(** ** The candidates of a run *)

(** [c.modeSequence.join('|')] *)
Definition sequenceKey (c : MultiStep.Candidate) : string :=
  String.concat "|" (MultiStep.cand_modeSequence c).

(** One turn of the merge of [optimize], on the kept candidates and the set
    of their keys. *)
Definition dedupeStep (st : list MultiStep.Candidate * gset string)
    (c : MultiStep.Candidate) : list MultiStep.Candidate * gset string :=
  if bool_decide (sequenceKey c ∈ snd st) then st
  else (fst st ++ [c], {[ sequenceKey c ]} ∪ snd st).

(** The set holds the keys of the kept candidates, and no key is kept
    twice. *)
Definition keysOf (st : list MultiStep.Candidate * gset string) : Prop :=
  (forall k, k ∈ snd st <-> k ∈ map sequenceKey (fst st))
  /\ NoDup (map sequenceKey (fst st)).

(** ** The steps of a sequence result *)

(** A step of a result: as many parameters as its mode takes, each in
    [0,1], and an opacity within the opacity range. *)
Definition stepInRange (minOpacity maxOpacity : Q) (s : MultiStep.Step) : Prop :=
  length (MultiStep.step_blend s) = MultiStep.getModeParamCount (MultiStep.modeName s)
  /\ inUnitCube (MultiStep.step_blend s)
  /\ minOpacity <= MultiStep.opacity s <= maxOpacity.

(** The display values of a Hue/Saturation or Levels step lie in the ranges
    of the two tools. *)
Definition displayInRange (s : MultiStep.Step) : Prop :=
  match MultiStep.hslValues s with
  | Some v =>
      -180 <= MultiStep.hv_h v <= 180
      /\ -100 <= MultiStep.hv_s v <= 100
      /\ -100 <= MultiStep.hv_l v <= 100
  | None => True
  end
  /\ match MultiStep.levelsValues s with
     | Some v =>
         0 <= Levels.inputBlack v <= 253
         /\ Levels.inputBlack v + 2 <= Levels.inputWhite v <= 255
         /\ 1 # 10 <= Levels.inputGamma v <= 999 # 100
         /\ 0 <= Levels.outputBlack v <= 255
         /\ 0 <= Levels.outputWhite v <= 255
     | None => True
     end.

(** Initial blends as the greedy search hands them on: none, or for every
    mode of the sequence as many parameters as the mode takes. *)
Definition wellShaped (modeSequence : list string)
    (initialBlends : option (list point)) : Prop :=
  match initialBlends with
  | None => True
  | Some blends =>
      Forall2 (fun mode blend =>
                 length blend = MultiStep.getModeParamCount mode)
              modeSequence blends
  end.

(** The sources, and the targets, of the pairs are hex colours. *)
Definition sourcesParse (pairs : list Pair) : Prop :=
  Forall (fun p => is_Some (hexToRgb (source p))) pairs.

Definition targetsParse (pairs : list Pair) : Prop :=
  Forall (fun p => is_Some (hexToRgb (target p))) pairs.

(** ** Phase 3 without its checks *)

Section Turns.

Variable Lab : Type.
Variable rgbToLab : Q -> Q -> Q -> Lab.
Variable deltaE : Lab -> Lab -> Q.
Variable applyHslAdjustment : list Q -> Q -> Q -> Q -> list Q.
Variable applyLevelsAdjustment : list Q -> Levels.LevelsParams -> list Q.
Variable numberToString : Q -> string.
Variable random : nat -> Q.
Variable cancelDuring : nat -> bool.
Variable options : MultiStep.SearchOptions.
Variable validPairs : list Pair.
Variables minOp maxOp : Q.
Variables numRestartsBase basinHopsCount : nat.
Variable bestMode : option string.
Variable bestError : option Q.
Variable total : nat.

(** The state after the loop body has run on each of [processed], the
    first of them counted as number [evaluated + 1]. *)
Fixpoint runTurns (processed : list MultiStep.Candidate) (evaluated : nat)
    (r : MultiStep.Run) : MultiStep.Run :=
  match processed with
  | [] => r
  | candidate :: processed' =>
      runTurns processed' (S evaluated)
        (MultiStep.candidateTurn Lab rgbToLab deltaE applyHslAdjustment
           applyLevelsAdjustment numberToString random cancelDuring options
           validPairs minOp maxOp numRestartsBase basinHopsCount bestMode
           bestError candidate (S evaluated) total r)
  end.

End Turns.

(** ** The run of [optimize], phase by phase *)

(** [best] is the best of [found]: null when there is none, and otherwise
    one of them with the lowest average error. *)
Definition bestAmong (found : list MultiStep.MetaResult)
    (best : option MultiStep.MetaResult) : Prop :=
  match best with
  | None => found = []
  | Some m =>
      In m found
      /\ Forall (fun x => MultiStep.metaAvgError m <= MultiStep.metaAvgError x)
           found
  end.

Section WholeRun.

Variable Lab : Type.
Variable rgbToLab : Q -> Q -> Q -> Lab.
Variable deltaE : Lab -> Lab -> Q.
Variable applyHslAdjustment : list Q -> Q -> Q -> Q -> list Q.
Variable applyLevelsAdjustment : list Q -> Levels.LevelsParams -> list Q.
Variable numberToString : Q -> string.
Variable random : nat -> Q.
Variable cancelDuring : nat -> bool.
Variable greedySearchSequences :
  list Pair -> nat -> nat -> Q -> Q -> bool -> bool -> nat ->
  completion (list MultiStep.Candidate) * nat.
Variable generateModeSequences :
  nat -> nat -> bool -> bool -> nat -> list (list string) * nat.

(** [this] as [optimize] resets it, after the first progress report: the
    state in which the single-mode loop makes its checks (nothing suspends
    the run inside that loop). *)
Definition started (options : MultiStep.SearchOptions) (r0 : MultiStep.Run)
    : MultiStep.Run :=
  MultiStep.report cancelDuring options
    (MultiStep.Progress MultiStep.single None None None)
    (MultiStep.withThis r0
       {| MultiStep.cancelled := false;
          MultiStep.bestResult := MultiStep.existingBest options;
          MultiStep.topSolutions :=
            option_list (MultiStep.existingBest options) |}).

(** The constants [optimize] derives from its options. *)
Definition minOpacityOf (options : MultiStep.SearchOptions) : Q :=
  orDefaultQ (MultiStep.minOpacity options) 10 / 100.
Definition maxOpacityOf (options : MultiStep.SearchOptions) : Q :=
  orDefaultQ (MultiStep.maxOpacity options) 100 / 100.
Definition numRestartsBaseOf (options : MultiStep.SearchOptions) : nat :=
  if MultiStep.extensive options then 5%nat else 2%nat.
Definition basinHopsCountOf (options : MultiStep.SearchOptions) : nat :=
  if MultiStep.extensive options then 4%nat else 1%nat.

(** [singleBestMode] and [singleBestError] after a single-mode loop that no
    check stops. *)
Definition singleBest (validPairs : list Pair) : option string * option Q :=
  fold_left
    (fun best mode =>
       match Optimizer.optimizeBlend Lab rgbToLab deltaE mode validPairs with
       | Some res =>
           if Levels.improves (Optimizer.or_avgError res) (snd best)
           then (Some (name mode), Some (Optimizer.or_avgError res))
           else best
       | None => best
       end)
    blendModes (None, None).

(** What phases 1 and 2 hand to the candidate loop: [allCandidates] and the
    state in which the loop makes its first check. *)
Record Prepared : Type := {
  allCandidates : list MultiStep.Candidate;
  atLoop : MultiStep.Run;
}.

(** Phases 1 and 2 of [optimize], from the state [r1] the single-mode loop
    ends in; [None] when the greedy search raises. *)
Definition prepare (pairs : list Pair) (numSteps : nat)
    (options : MultiStep.SearchOptions) (r1 : MultiStep.Run)
    : option Prepared :=
  let r := MultiStep.sleep cancelDuring r1 in
  let r :=
    MultiStep.report cancelDuring options
      (MultiStep.Progress MultiStep.greedy None None None) r in
  let '(found, d) :=
    greedySearchSequences (validPairsOf pairs) numSteps
      (if MultiStep.extensive options then 100%nat else 30%nat)
      (minOpacityOf options) (maxOpacityOf options)
      (MultiStep.allowHsl options) (MultiStep.allowLevels options)
      (MultiStep.drawn r) in
  match found with
  | Throw => None
  | Normal greedyCandidates =>
      let r := MultiStep.sleep cancelDuring (MultiStep.withDrawn r d) in
      let r :=
        MultiStep.report cancelDuring options
          (MultiStep.Progress MultiStep.generating None None None) r in
      let '(enumerated, d) :=
        generateModeSequences numSteps
          (if MultiStep.extensive options then 600%nat else 200%nat)
          (MultiStep.allowHsl options) (MultiStep.allowLevels options)
          (MultiStep.drawn r) in
      Some {| allCandidates :=
                MultiStep.dedupe
                  (greedyCandidates ++
                   map (fun seq => {| MultiStep.cand_modeSequence := seq;
                                      MultiStep.cand_initialBlends := None |})
                       enumerated);
              atLoop :=
                MultiStep.sleep cancelDuring (MultiStep.withDrawn r d) |}
  end.

(** The results the candidate loop obtains for [candidates], in order: one
    for each candidate on which the joint optimisation returns a result.
    From one candidate to the next only the position in the stream of
    random draws is passed on. *)
Fixpoint outcomes (validPairs : list Pair) (options : MultiStep.SearchOptions)
    (candidates : list MultiStep.Candidate) (drawn : nat)
    : list MultiStep.MetaResult :=
  match candidates with
  | [] => []
  | candidate :: candidates' =>
      let '(outcome, drawn') :=
        MultiStep.jointOptimizeModeSequenceEnhanced Lab rgbToLab deltaE
          applyHslAdjustment applyLevelsAdjustment numberToString random
          validPairs (MultiStep.cand_modeSequence candidate)
          (MultiStep.cand_initialBlends candidate)
          (match MultiStep.cand_initialBlends candidate with
           | Some _ => numRestartsBaseOf options
           | None => (numRestartsBaseOf options + 2)%nat
           end)
          (basinHopsCountOf options)
          (minOpacityOf options) (maxOpacityOf options) drawn in
      match outcome with
      | Normal (Some res) =>
          MultiStep.metaOf res (fst (singleBest validPairs))
            (snd (singleBest validPairs))
          :: outcomes validPairs options candidates' drawn'
      | _ => outcomes validPairs options candidates' drawn'
      end
  end.

(** The state of the run once the loop body has handled [processed], the
    first candidates of a loop over [total] of them that starts in [r]. *)
Definition handled (pairs : list Pair) (options : MultiStep.SearchOptions)
    (total : nat) (processed : list MultiStep.Candidate) (r : MultiStep.Run)
    : MultiStep.Run :=
  runTurns Lab rgbToLab deltaE applyHslAdjustment applyLevelsAdjustment
    numberToString random cancelDuring options (validPairsOf pairs)
    (minOpacityOf options) (maxOpacityOf options)
    (numRestartsBaseOf options) (basinHopsCountOf options)
    (fst (singleBest (validPairsOf pairs)))
    (snd (singleBest (validPairsOf pairs)))
    total processed 0 r.

End WholeRun.

(** ** Concrete inputs *)

Definition multiplyMode : BlendMode :=
  {| name := "Multiply"; inverse := inverse_Multiply |}.

(** [2^-1030], a subnormal double. *)
Definition subnormalChannel : Q := 1 # 2 ^ 1030.

Definition greyToDarkGrey : Pair :=
  {| source := Some "#808080"; target := Some "#404040"; weight := Some 1 |}.

Definition greyToWhite : Pair :=
  {| source := Some "#808080"; target := Some "#ffffff"; weight := Some 1 |}.

Definition blackToWhiteUnweighted : Pair :=
  {| source := Some "#000000"; target := Some "#ffffff"; weight := Some 0 |}.

Definition normalMode : BlendMode := mkMode "Normal" inverse_Normal.

Definition blackToWhiteTripled : Pair :=
  {| source := Some "#000000"; target := Some "#ffffff"; weight := Some 3 |}.

Definition blackToBlackNegative : Pair :=
  {| source := Some "#000000"; target := Some "#000000"; weight := Some (-1) |}.

Definition whiteOnly : Pair :=
  {| source := None; target := Some "#ffffff"; weight := None |}.

Definition quietOptions : MultiStep.SearchOptions :=
  {| MultiStep.existingBest := None;
     MultiStep.onProgress := true;
     MultiStep.onBestFound := false;
     MultiStep.minOpacity := None;
     MultiStep.maxOpacity := None;
     MultiStep.allowHsl := false;
     MultiStep.allowLevels := false;
     MultiStep.extensive := false |}.

Definition freshRun : MultiStep.Run :=
  {| MultiStep.this :=
       {| MultiStep.cancelled := false;
          MultiStep.bestResult := None;
          MultiStep.topSolutions := [] |};
     MultiStep.hostTurns := 0;
     MultiStep.drawn := 0;
     MultiStep.trace := [] |}.

Definition normalOnly : MultiStep.Candidate :=
  {| MultiStep.cand_modeSequence := ["Normal"];
     MultiStep.cand_initialBlends := None |}.

Definition multiplyOnly : MultiStep.Candidate :=
  {| MultiStep.cand_modeSequence := ["Multiply"];
     MultiStep.cand_initialBlends := None |}.

(** A complete pair whose source is not a hex colour. *)
Definition namedToWhite : Pair :=
  {| source := Some "red"; target := Some "#ffffff"; weight := None |}.

(** A host that calls [cancel()] when it gets control for the [n]-th time,
    counted from 0. *)
Definition cancelAt (n : nat) : nat -> bool := fun k => Nat.eqb k n.

(** A greedy search that proposes nothing.  Like [greedySearchSequences],
    whose trials begin with
    [validPairs.map(p => hexToRgb(p.source).map(c => c / 255))], it raises
    when the source of a complete pair is not a hex colour. *)
Definition greedyProposingNothing :
    list Pair -> nat -> nat -> Q -> Q -> bool -> bool -> nat ->
    completion (list MultiStep.Candidate) * nat :=
  fun validPairs _ _ _ _ _ _ d =>
    if forallb (fun p => notNull (hexToRgb (source p))) validPairs
    then (Normal [], d) else (Throw, d).

(** Enumerations of one and of two sequences. *)
Definition normalSequence :
    nat -> nat -> bool -> bool -> nat -> list (list string) * nat :=
  fun _ _ _ _ d => ([["Normal"]], d).

Definition normalThenMultiply :
    nat -> nat -> bool -> bool -> nat -> list (list string) * nat :=
  fun _ _ _ _ d => ([["Normal"]; ["Multiply"]], d).

(** The state in which the candidate loop starts when the host has let the
    six reports and sleeps of phases 0 to 2 pass, and the two candidates
    of [normalThenMultiply]. *)
Definition twoCandidates : Prepared :=
  {| allCandidates := [normalOnly; multiplyOnly];
     atLoop :=
       {| MultiStep.this :=
            {| MultiStep.cancelled := false;
               MultiStep.bestResult := None;
               MultiStep.topSolutions := [] |};
          MultiStep.hostTurns := 6;
          MultiStep.drawn := 0;
          MultiStep.trace :=
            [ MultiStep.Progress MultiStep.single None None None;
              MultiStep.Sleep;
              MultiStep.Progress MultiStep.greedy None None None;
              MultiStep.Sleep;
              MultiStep.Progress MultiStep.generating None None None;
              MultiStep.Sleep ] |} |}.

(* ================================================================== *)
(** * Properties                                                       *)
(* ================================================================== *)

(** ** Proof steps used more than once *)

Ltac in_cases H :=
  repeat (destruct H as [H | H]; [subst | ]); try contradiction.

Ltac unfold_mode :=
  unfold applyBlendChannel; cbn [String.eqb Ascii.eqb Bool.eqb].

Ltac split_conditionals :=
  repeat match goal with
         | |- context [if ?c then _ else _] => destruct c
         end.

(** Case analysis on the comparisons of the goal, innermost first. *)
(** Case analysis on the comparisons of the goal, innermost first. *)
Ltac split_comparisons :=
  repeat match goal with
         | |- context [Qlt_le_dec ?a ?b] =>
             lazymatch a with
             | context [Qlt_le_dec _ _] => fail
             | _ =>
                 lazymatch b with
                 | context [Qlt_le_dec _ _] => fail
                 | _ => destruct (Qlt_le_dec a b)
                 end
             end
         end.

(** Division by 6 as a product, for linear arithmetic. *)
(** Division by 6 as a product, for linear arithmetic. *)
Ltac sixths := unfold Qdiv in *; change (/ 6) with (1 # 6) in *.

(** A branch of [hue2rgb] on a hue written with the quotient [x], where
    [Hx] is the equation that defines [x]: linear arithmetic, after fixing
    [x] when the branch is one of the three corners. *)
Ltac close_branch x Hx :=
  first
    [ lra
    | assert (x == 1) as -> by lra; lra
    | assert (x == 0) as -> by lra; lra
    | assert (x == -1) as -> by lra; lra
    | (let E := fresh "E" in
       assert (E : x == 1) by lra; rewrite E in Hx; lra)
    | (let E := fresh "E" in
       assert (E : x == 0) by lra; rewrite E in Hx; lra)
    | (let E := fresh "E" in
       assert (E : x == -1) by lra; rewrite E in Hx; lra) ].

Ltac hue_cases x Hx :=
  unfold HslAdjust.hue2rgb;
  split_comparisons;
  close_branch x Hx.

Lemma clamp_bounds (v lo hi : Q) : lo <= hi -> lo <= clamp v lo hi <= hi.
Proof.
  intros Hle. unfold clamp. split.
  - apply Q.le_max_l.
  - apply Q.max_lub; [exact Hle | apply Q.le_min_l].
Qed.

(** ** The forward evaluators stay in range (C2) *)

Lemma Qabs_diff_unit (s b : Q) :
  0 <= s <= 1 -> 0 <= b <= 1 -> 0 <= Qabs (s - b) <= 1.
Proof.
  intros Hs Hb. split; [apply Qabs_nonneg |].
  apply Qabs_case; intros; lra.
Qed.

Lemma softLight_unit (s b : Q) :
  0 <= s <= 1 -> 0 <= b <= 1 -> 0 <= (1 - 2 * b) * s * s + 2 * b * s <= 1.
Proof.
  intros Hs Hb.
  assert (H0 : 0 <= s * (1 - s)) by (apply Qmult_le_0_compat; lra).
  assert (H1 : 0 <= b * (s * (1 - s))) by (apply Qmult_le_0_compat; lra).
  assert (H2 : 0 <= (1 - b) * (s * (1 - s))) by (apply Qmult_le_0_compat; lra).
  assert (H3 : 0 <= s * s) by (apply Qmult_le_0_compat; lra).
  assert (H4 : 0 <= (1 - s) * (1 - s)) by (apply Qmult_le_0_compat; lra).
  split; lra.
Qed.

Lemma pinLight_low (s b : Q) :
  0 <= s <= 1 -> 0 <= b <= 1 -> 0 <= Qmin s (2 * b) <= 1.
Proof.
  intros Hs Hb.
  destruct (Q.min_spec s (2 * b)) as [[H E] | [H E]]; rewrite E; lra.
Qed.

Lemma pinLight_high (s b : Q) :
  0 <= s <= 1 -> 0 <= b <= 1 -> 0 <= Qmax s (2 * b - 1) <= 1.
Proof.
  intros Hs Hb.
  destruct (Q.max_spec s (2 * b - 1)) as [[H E] | [H E]]; rewrite E; lra.
Qed.

(** C2, as amended.  For every catalogue mode other than Divide, Color Burn,
    Color Dodge and Vivid Light, and all source and blend channels in [0,1],
    [applyBlendChannel] returns a value in [0,1]; for every catalogue mode
    the value clamped as [computeBlendError] clamps it lies in [0,1]. *)
Theorem applyBlendChannel_in_range (modeName : string) (s b : Q) :
  In modeName (map name blendModes) ->
  0 <= s <= 1 -> 0 <= b <= 1 ->
  (~ In modeName quotientModes -> 0 <= applyBlendChannel modeName s b <= 1)
  /\ 0 <= clamp (applyBlendChannel modeName s b) 0 1 <= 1.
Proof.
  intros Hin Hs Hb. split; [| apply clamp_bounds; lra].
  intros Hq. simpl in Hin. in_cases Hin.
  all: try solve [exfalso; apply Hq; simpl; tauto].
  all: unfold_mode.
  all: try solve [apply clamp_bounds; lra].
  all: try match goal with
           | |- _ <= Qabs _ <= _ => apply Qabs_diff_unit; assumption
           end.
  all: try match goal with
           | |- _ <= (1 - 2 * _) * _ * _ + _ <= _ =>
               apply softLight_unit; assumption
           end.
  all: split_conditionals.
  all: try solve [split; nra].
  - apply pinLight_low; assumption.
  - apply pinLight_high; assumption.
Qed.

Lemma applyBlendChannel_in_range_witness :
  (~ In "Overlay" quotientModes ->
   0 <= applyBlendChannel "Overlay" (1#4) (3#4) <= 1)
  /\ 0 <= clamp (applyBlendChannel "Overlay" (1#4) (3#4)) 0 1 <= 1.
Proof.
  apply (applyBlendChannel_in_range "Overlay" (1#4) (3#4)).
  - simpl. tauto.
  - split; reflexivity || discriminate.
  - split; reflexivity || discriminate.
Defined.

(** C2 as stated fails: Divide on a full source and a half blend gives 2. *)
Lemma applyBlendChannel_Divide_out_of_range :
  In "Divide" (map name blendModes) /\
  0 <= 1 <= 1 /\ 0 <= (1#2) <= 1 /\
  ~ (0 <= applyBlendChannel "Divide" 1 (1#2) <= 1).
Proof.
  split; [simpl; tauto |].
  split; [split; discriminate |].
  split; [split; discriminate |].
  intros [_ H]. vm_compute in H. apply H. reflexivity.
Qed.

(** The other three quotient modes leave the range as well. *)
Example applyBlendChannel_ColorBurn_negative :
  applyBlendChannel "Color Burn" 0 (1#2) == -1.
Proof. reflexivity. Qed.

Example applyBlendChannel_ColorDodge_two :
  applyBlendChannel "Color Dodge" 1 (1#2) == 2.
Proof. reflexivity. Qed.

Example applyBlendChannel_VividLight_negative :
  applyBlendChannel "Vivid Light" 0 (1#4) == -1.
Proof. reflexivity. Qed.

(** ** Multiply: monotone forward, inverse within tolerance (C3) *)

Lemma Qabs_le_iff (x y : Q) : Qabs x <= y <-> - y <= x <= y.
Proof. apply Qabs_Qle_condition. Qed.

(** Two roundings, of the inverse and of the product that uses it, move the
    forward value by far less than the tolerance. *)
Lemma two_roundings (u eta s t b b' p : Q) :
  0 <= u <= 1 # 100000 -> 0 <= eta <= 1 # 100000 ->
  0 <= s <= 1 -> 0 <= t <= 1 -> 0 <= b -> s * b == t ->
  Qabs (b' - b) <= Qabs b * u + eta ->
  Qabs (p - s * b') <= Qabs (s * b') * u + eta ->
  Qabs (p - t) <= 1 # 10000.
Proof.
  intros [Hu0 Hu1] [He0 He1] [Hs0 Hs1] [Ht0 Ht1] Hb Hsb Hb' Hp.
  rewrite (Qabs_pos b Hb) in Hb'.
  apply Qabs_le_iff in Hb'. destruct Hb' as [Hlo Hhi].
  assert (H1 : (b' - b) * s <= (b * u + eta) * s)
    by (apply Qmult_le_compat_r; assumption).
  assert (H2 : (- (b * u + eta)) * s <= (b' - b) * s)
    by (apply Qmult_le_compat_r; assumption).
  assert (Hsu : 0 <= (1 - s) * eta) by (apply Qmult_le_0_compat; lra).
  assert (Htu : 0 <= t * u) by (apply Qmult_le_0_compat; lra).
  assert (Htu' : 0 <= (1 - t) * u) by (apply Qmult_le_0_compat; lra).
  assert (Hd : - (u + eta) <= s * b' - t <= u + eta).
  { assert (E : (b * u + eta) * s == t * u + s * eta)
      by (rewrite <- Hsb; ring).
    assert (E' : (b' - b) * s == s * b' - t) by (rewrite <- Hsb; ring).
    assert (E'' : (- (b * u + eta)) * s == - (t * u + s * eta))
      by (rewrite <- Hsb; ring).
    lra. }
  assert (Hm : Qabs (s * b') <= 1 + u + eta).
  { apply Qabs_le_iff. lra. }
  assert (Hmu : Qabs (s * b') * u <= (1 + u + eta) * u)
    by (apply Qmult_le_compat_r; assumption).
  assert (Huu : u * u <= (1 # 100000) * u)
    by (apply Qmult_le_compat_r; assumption).
  assert (Heu : eta * u <= (1 # 100000) * u)
    by (apply Qmult_le_compat_r; assumption).
  apply Qabs_le_iff in Hp. destruct Hp as [Hplo Hphi].
  apply Qabs_le_iff. lra.
Qed.

Lemma roundoff_small :
  0 <= 1 # 2 ^ 53 <= 1 # 100000 /\ 0 <= 1 # 2 ^ 1075 <= 1 # 100000.
Proof. vm_compute. repeat split; discriminate. Qed.

(** C3, as amended.  For Multiply, the forward value [s * b] is
    non-decreasing in the blend channel for a fixed source in [0,1]; and
    whenever the catalogue's Multiply inverse of [(s, t)] is a finite number
    [b] (not null, and not the infinity of an overflowing quotient), the
    forward value at [(s, b)] is within 1e-4 of [t]: it is [t] in exact
    arithmetic, and stays within the tolerance when the inverse and the
    product are each rounded to a double. *)
Theorem multiply_monotone_and_inverse
    (m : BlendMode) (s t b b1 b2 : Q) :
  In m blendModes -> name m = "Multiply" ->
  0 <= s <= 1 -> 0 <= t <= 1 ->
  0 <= b1 -> b1 <= b2 -> b2 <= 1 ->
  inverse m s t = Some (Num b) ->
  applyBlendChannel "Multiply" s b1 <= applyBlendChannel "Multiply" s b2
  /\ differsAtMost (1 # 10000) (multiplyForward s (Num b)) t
  /\ (forall b' p,
        rounded b b' -> rounded (applyBlendChannel "Multiply" s b') p ->
        Qabs (p - t) <= 1 # 10000).
Proof.
  intros Hin Hname Hs Ht Hb1 Hb12 Hb2 Hinv.
  cbn [differsAtMost multiplyForward]. unfold_mode. split; [nra |].
  simpl in Hin. in_cases Hin; try discriminate Hname.
  cbn [inverse] in Hinv. unfold inverse_Multiply, divide in Hinv.
  assert (Hexact : 0 <= b /\ s * b == t).
  { destruct (Qeq_dec s 0) as [Hs0 | Hs0].
    - destruct (Qeq_dec t 0) as [Ht0 | Ht0]; [| discriminate Hinv].
      injection Hinv as <-. split; [discriminate | lra].
    - destruct (Qlt_le_dec _ overflowThreshold); [| discriminate Hinv].
      injection Hinv as <-. split; [| field; exact Hs0].
      apply Qle_shift_div_l; lra. }
  destruct Hexact as [Hb Hsb]. split.
  - assert (E : s * b - t == 0) by lra. rewrite E. discriminate.
  - intros b' p Hb' Hp. unfold rounded in Hb', Hp.
    destruct roundoff_small as [Hu He].
    exact (two_roundings _ _ s t b b' p Hu He Hs Ht Hb Hsb Hb' Hp).
Qed.

Lemma multiply_monotone_and_inverse_witness :
  applyBlendChannel "Multiply" (1#2) (1#4)
    <= applyBlendChannel "Multiply" (1#2) (3#4)
  /\ differsAtMost (1 # 10000) (multiplyForward (1#2) (Num ((1#4) / (1#2))))
       (1#4)
  /\ (forall b' p,
        rounded ((1#4) / (1#2)) b' ->
        rounded (applyBlendChannel "Multiply" (1#2) b') p ->
        Qabs (p - (1#4)) <= 1 # 10000).
Proof.
  apply (multiply_monotone_and_inverse
           multiplyMode (1#2) (1#4) ((1#4) / (1#2)) (1#4) (3#4)).
  - simpl. tauto.
  - reflexivity.
  - split; discriminate.
  - split; discriminate.
  - discriminate.
  - discriminate.
  - discriminate.
  - vm_compute. reflexivity.
Defined.

(** C3 as stated fails: for the source channel [2^-1030] and the target 1
    the quotient [t / s] is [2^1030], beyond the largest double.  The
    inverse is then an infinity, which is not null, and the forward value
    at it is no number within 1e-4 of the target. *)
Lemma multiply_inverse_overflows :
  0 <= subnormalChannel <= 1 /\ 0 <= 1 <= 1 /\
  In multiplyMode blendModes /\
  inverse multiplyMode subnormalChannel 1 = Some NonFinite /\
  ~ differsAtMost (1 # 10000) (multiplyForward subnormalChannel NonFinite) 1.
Proof.
  split; [split; discriminate |]. split; [split; discriminate |].
  split; [simpl; tauto |]. split; [vm_compute; reflexivity |].
  intros H. exact H.
Qed.

(** ** Reasoning about recorded evaluations *)

Lemma ensures_ret {A} (I : point -> Prop) (Post : A -> Prop) (a : A) :
  Post a -> ensures I Post (ret a).
Proof. intros Ha log Hlog. split; assumption. Qed.

Lemma ensures_bind {A B} (I : point -> Prop) (Mid : A -> Prop)
    (Post : B -> Prop) (m : Eval A) (k : A -> Eval B) :
  ensures I Mid m ->
  (forall a, Mid a -> ensures I Post (k a)) ->
  ensures I Post (bind m k).
Proof.
  intros Hm Hk log Hlog. unfold bind.
  destruct (Hm log Hlog) as [Ha Hlog'].
  destruct (m log) as [a log']. simpl in *.
  exact (Hk a Ha log' Hlog').
Qed.

Lemma ensures_call (I : point -> Prop) (f : point -> Q) (v : point) :
  I v -> ensures I (fun _ => True) (call f v).
Proof.
  intros Hv log Hlog. split; [exact Logic.I |].
  simpl. apply Forall_app. split; [assumption | by constructor].
Qed.

Lemma ensures_weaken {A} (I : point -> Prop) (P P' : A -> Prop) (m : Eval A) :
  (forall a, P a -> P' a) -> ensures I P m -> ensures I P' m.
Proof.
  intros HPP Hm log Hlog. destruct (Hm log Hlog). split; auto.
Qed.

Lemma ensures_callAll (I : point -> Prop) (f : point -> Q) (vs : list point) :
  Forall I vs ->
  ensures I (fun ys => length ys = length vs) (callAll f vs).
Proof.
  induction vs as [| v vs IH]; intros Hvs.
  - apply ensures_ret. reflexivity.
  - inversion Hvs as [| ? ? Hv Hvs']; subst. simpl.
    eapply ensures_bind; [apply ensures_call; exact Hv |].
    intros y _. eapply ensures_bind; [apply IH; exact Hvs' |].
    intros ys Hys. apply ensures_ret. simpl. by rewrite Hys.
Qed.

(** The record of a run starts with what [callAll] puts there. *)
Lemma callAll_log (f : point -> Q) (vs : list point) (log : list point) :
  callAll f vs log = (map f vs, log ++ vs).
Proof.
  revert log. induction vs as [| v vs IH]; intros log; simpl.
  - unfold ret. by rewrite app_nil_r.
  - unfold bind, call. rewrite IH. unfold ret. simpl.
    by rewrite <- app_assoc.
Qed.

Lemma extends_ret {A} (a : A) : extends (ret a).
Proof. intros log. exists []. simpl. by rewrite app_nil_r. Qed.

Lemma extends_call (f : point -> Q) (v : point) : extends (call f v).
Proof. intros log. exists [v]. reflexivity. Qed.

Lemma extends_bind {A B} (m : Eval A) (k : A -> Eval B) :
  extends m -> (forall a, extends (k a)) -> extends (bind m k).
Proof.
  intros Hm Hk log. unfold bind.
  destruct (Hm log) as [more1 E1]. destruct (m log) as [a log1].
  simpl in E1. subst log1.
  destruct (Hk a (log ++ more1)) as [more2 E2].
  exists (more1 ++ more2). rewrite E2. by rewrite app_assoc.
Qed.

(** ** The stable sort *)

Lemma insertBy_perm {A} (key : A -> Q) (x : A) (l : list A) :
  Permutation (insertBy key x l) (x :: l).
Proof.
  induction l as [| y l IH]; simpl; [reflexivity |].
  destruct (Qlt_le_dec (key y) (key x)); [| reflexivity].
  rewrite IH. apply perm_swap.
Qed.

Lemma sortBy_perm {A} (key : A -> Q) (l : list A) :
  Permutation (sortBy key l) l.
Proof.
  induction l as [| x l IH]; simpl; [reflexivity |].
  rewrite insertBy_perm. by constructor.
Qed.

Lemma insertBy_ascending {A} (key : A -> Q) (x : A) (l : list A) :
  ascending key l -> ascending key (insertBy key x l).
Proof.
  unfold ascending. induction l as [| y l IH]; intros Hs; simpl.
  - repeat constructor.
  - destruct (Qlt_le_dec (key y) (key x)) as [Hlt | Hle].
    + inversion Hs as [| ? ? Hs' Hhd]; subst.
      constructor; [apply IH; exact Hs' |].
      destruct l as [| z l]; simpl.
      * constructor. apply Qlt_le_weak. exact Hlt.
      * destruct (Qlt_le_dec (key z) (key x)).
        -- inversion Hhd; subst. by constructor.
        -- constructor. apply Qlt_le_weak. exact Hlt.
    + constructor; [exact Hs | by constructor].
Qed.

Lemma sortBy_ascending {A} (key : A -> Q) (l : list A) :
  ascending key (sortBy key l).
Proof.
  induction l as [| x l IH]; simpl; [constructor |].
  apply insertBy_ascending. exact IH.
Qed.

Lemma sortedIndices_perm (values : list Q) :
  Permutation (sortedIndices values) (seq 0 (length values)).
Proof. apply sortBy_perm. Qed.

Lemma sortedIndices_lt (values : list Q) (i : nat) :
  In i (sortedIndices values) -> (i < length values)%nat.
Proof.
  intros Hi. apply list_elem_of_In in Hi.
  rewrite sortedIndices_perm in Hi. apply list_elem_of_In in Hi.
  apply in_seq in Hi. lia.
Qed.

Lemma sortedIndices_length (values : list Q) :
  length (sortedIndices values) = length values.
Proof.
  rewrite (Permutation_length (sortedIndices_perm values)).
  apply length_seq.
Qed.

(** ** The simplex loop keeps its vertices inside the clamped set *)

Section SimplexInvariant.

Variable clampParams : point -> point.
Variable fn : point -> Q.
Variable n : nat.
Variable tol : Q.

(** A property every clamped point has. *)
Variable P : point -> Prop.
Hypothesis clampParams_P : forall v, P (clampParams v).

Abbreviation wf := (wellFormed n P).

Lemma nthV_In (i : nat) (simplex : list point) :
  (i < length simplex)%nat -> In (nthV i simplex) simplex.
Proof. intros Hi. unfold nthV. apply nth_In. exact Hi. Qed.

Lemma wellFormed_sortByValue (st : simplexState) :
  wf st -> wf (sortByValue st).
Proof.
  destruct st as [simplex values]. intros (Hs & Hv & HP).
  unfold sortByValue, wellFormed. simpl in *.
  rewrite !length_map, sortedIndices_length.
  split; [exact Hv |]. split; [exact Hv |].
  apply Forall_forall. intros v Hin. apply list_elem_of_In in Hin.
  apply in_map_iff in Hin. destruct Hin as (i & <- & Hi).
  apply sortedIndices_lt in Hi.
  rewrite Forall_forall in HP. apply HP. apply list_elem_of_In.
  apply nthV_In. lia.
Qed.

Lemma wellFormed_insert (st : simplexState) (i : nat) (v : point) (y : Q) :
  wf st -> P v ->
  wf (<[i := v]> (fst st), <[i := y]> (snd st)).
Proof.
  intros (Hs & Hv & HP) Pv. unfold wellFormed. simpl.
  rewrite !length_insert. split; [exact Hs |]. split; [exact Hv |].
  apply Forall_insert; assumption.
Qed.

Lemma ensures_shrinkLoop (count i : nat) (st : simplexState) :
  wf st ->
  ensures P wf (shrinkLoop clampParams fn n i count st).
Proof.
  revert i st. induction count as [| count IH]; intros i st Hwf.
  - apply ensures_ret. exact Hwf.
  - destruct st as [simplex values]. simpl.
    eapply ensures_bind; [apply ensures_call; apply clampParams_P |].
    intros y _. apply IH.
    apply (wellFormed_insert (simplex, values)); [exact Hwf |].
    apply clampParams_P.
Qed.

Lemma ensures_loopBody (st : simplexState) :
  wf st ->
  ensures P (fun t => wf (stateOf t))
    (loopBody clampParams fn n tol st).
Proof.
  intros Hwf. apply wellFormed_sortByValue in Hwf.
  unfold loopBody. destruct (sortByValue st) as [simplex values].
  destruct (Qlt_le_dec _ tol); [apply ensures_ret; exact Hwf |].
  eapply ensures_bind; [apply ensures_call; apply clampParams_P |].
  intros reflectedValue _.
  destruct (geb _ _ && ltb _ _).
  { apply ensures_ret.
    apply (wellFormed_insert (simplex, values)); auto. }
  destruct (ltb reflectedValue _).
  { eapply ensures_bind; [apply ensures_call; apply clampParams_P |].
    intros expandedValue _.
    destruct (ltb expandedValue reflectedValue); apply ensures_ret;
      apply (wellFormed_insert (simplex, values)); auto. }
  eapply ensures_bind; [apply ensures_call; apply clampParams_P |].
  intros contractedValue _.
  destruct (ltb contractedValue _).
  { apply ensures_ret.
    apply (wellFormed_insert (simplex, values)); auto. }
  eapply ensures_bind; [apply ensures_shrinkLoop; exact Hwf |].
  intros st' Hst'. apply ensures_ret. exact Hst'.
Qed.

Lemma ensures_mainLoop (iters : nat) (st : simplexState) :
  wf st ->
  ensures P wf (mainLoop clampParams fn n tol iters st).
Proof.
  revert st. induction iters as [| iters IH]; intros st Hwf.
  - apply ensures_ret. exact Hwf.
  - simpl. eapply ensures_bind; [apply ensures_loopBody; exact Hwf |].
    intros [st' | st'] Hst'; simpl in Hst'.
    + apply ensures_ret. exact Hst'.
    + apply IH. exact Hst'.
Qed.

Lemma indexOfMinFrom_lt (values : list Q) (best : Q) (bestIdx idx : nat) :
  (bestIdx < idx)%nat ->
  (indexOfMinFrom best bestIdx idx values < idx + length values)%nat.
Proof.
  revert best bestIdx idx.
  induction values as [| v values IH]; intros best bestIdx idx Hlt; simpl.
  - lia.
  - destruct (Qlt_le_dec v best).
    + specialize (IH v idx (S idx)). lia.
    + specialize (IH best bestIdx (S idx)). lia.
Qed.

Lemma indexOfMin_lt (values : list Q) :
  values <> [] -> (indexOfMin values < length values)%nat.
Proof.
  destruct values as [| v values]; [congruence |]. intros _. simpl.
  pose proof (indexOfMinFrom_lt values v 0 1). lia.
Qed.

Lemma bestOf_P (st : simplexState) :
  wf st -> P (solution (bestOf st)).
Proof.
  intros (Hs & Hv & HP). unfold bestOf. simpl.
  rewrite Forall_forall in HP. apply HP. apply list_elem_of_In.
  apply nthV_In. rewrite Hs, <- Hv. apply indexOfMin_lt.
  destruct (snd st); [discriminate | congruence].
Qed.

(** From a simplex of [n + 1] vertices in [P], the search evaluates the
    objective on points of [P] only and returns a vertex in [P]. *)
Lemma ensures_simplexSearch (simplex : list point) (iters : nat) :
  length simplex = S n -> Forall P simplex ->
  ensures P (fun found => P (solution found))
    (simplexSearch clampParams fn n tol simplex iters).
Proof.
  intros Hlen HP. unfold simplexSearch.
  eapply ensures_bind; [apply ensures_callAll; exact HP |].
  intros values Hvalues.
  eapply ensures_bind.
  - apply ensures_mainLoop. repeat split; simpl; congruence || assumption.
  - intros st Hst. apply ensures_ret. apply bestOf_P. exact Hst.
Qed.

End SimplexInvariant.

(** ** Bounds and the objective (C1) *)

Lemma boundOf_ordered (configs : list Bound) (idx : nat) :
  ordered configs -> min (boundOf configs idx) <= max (boundOf configs idx).
Proof.
  intros Hord. unfold boundOf.
  destruct (configs !! idx) as [c |] eqn:E; simpl; [| discriminate].
  unfold ordered in Hord. rewrite Forall_forall in Hord.
  apply Hord. eapply list_elem_of_lookup_2. exact E.
Qed.

Lemma clampParams_withinBounds (configs : list Bound) (v : point) :
  ordered configs -> withinBounds configs (MultiStep.clampParams configs v).
Proof.
  intros Hord idx x Hx. unfold MultiStep.clampParams in Hx.
  rewrite list_lookup_imap in Hx.
  destruct (v !! idx) as [val |]; simpl in Hx; [| discriminate].
  injection Hx as <-. apply clamp_bounds.
  apply boundOf_ordered. exact Hord.
Qed.

(** In [nelderMeadMultiDim] every vertex, the starting point included,
    goes through [clampParams] before the objective sees it. *)
Lemma nelderMeadMultiDim_within_bounds
    (objective : point -> Q) (initial : point) (options : Options) :
  ordered (default [] (paramConfigs options)) ->
  Forall (withinBounds (default [] (paramConfigs options)))
    (evaluated (MultiStep.nelderMeadMultiDim objective initial options)).
Proof.
  intros Hord. unfold evaluated, runEval, MultiStep.nelderMeadMultiDim.
  eapply ensures_simplexSearch with (P := withinBounds _).
  - intros v. apply clampParams_withinBounds. exact Hord.
  - simpl. by rewrite length_map, length_seq.
  - constructor; [apply clampParams_withinBounds; exact Hord |].
    apply Forall_forall. intros v Hv. apply list_elem_of_In in Hv.
    apply in_map_iff in Hv. destruct Hv as (i & <- & _).
    apply clampParams_withinBounds. exact Hord.
  - constructor.
Qed.

Ltac extends_step :=
  first [ apply extends_ret | apply extends_call
        | apply extends_bind; [| intros ? ] ].

Lemma extends_shrinkFrom (objective : point -> Q) (count i : nat)
    (st : list point * list Q) :
  extends (Optimizer.shrinkFrom objective i count st).
Proof.
  revert i st. induction count as [| count IH]; intros i [simplex values];
    simpl; [apply extends_ret |].
  apply extends_bind; [apply extends_call | intros y; apply IH].
Qed.

Lemma extends_iteration (objective : point -> Q) (tol : Q)
    (st : list point * list Q) :
  extends (Optimizer.iteration objective tol st).
Proof.
  unfold Optimizer.iteration. destruct (Optimizer.sortSimplex st).
  repeat first [ extends_step | apply extends_shrinkFrom
               | match goal with
                 | |- extends (if ?c then _ else _) => destruct c
                 end ].
Qed.

Lemma extends_iterate (objective : point -> Q) (tol : Q) (iters : nat)
    (st : list point * list Q) :
  extends (Optimizer.iterate objective tol iters st).
Proof.
  revert st. induction iters as [| iters IH]; intros st; simpl;
    [apply extends_ret |].
  apply extends_bind; [apply extends_iteration |].
  intros [st' | st']; [apply extends_ret | apply IH].
Qed.

(** The first four evaluations of [nelderMead] are on the initial simplex,
    whose first vertex is the starting point as it was passed. *)
Lemma nelderMead_evaluated (objective : point -> Q) (initial : point)
    (options : Options) :
  exists more,
    evaluated (Optimizer.nelderMead objective initial options)
    = Optimizer.initialSimplex initial ++ more.
Proof.
  unfold evaluated, runEval, Optimizer.nelderMead, bind at 1.
  rewrite callAll_log. simpl app.
  match goal with
  | |- context [bind ?m ?k] =>
      assert (Hext : extends (bind m k))
  end.
  { apply extends_bind; [apply extends_iterate | intros; apply extends_ret]. }
  destruct (Hext (Optimizer.initialSimplex initial)) as [more Hmore].
  exists more. exact Hmore.
Qed.

(** C1 fails on [nelderMead]: started from [2, 0.5, 0.5], whatever the
    objective and the options, the first point the objective is evaluated
    on is the starting point itself, which lies outside the unit cube;
    the axis vertices keep its first coordinate too. *)
Theorem nelderMead_evaluates_outside_bounds
    (objective : point -> Q) (options : Options) :
  head (evaluated (Optimizer.nelderMead objective [2; 1#2; 1#2] options))
    = Some [2; 1#2; 1#2]
  /\ ~ inUnitCube [2; 1#2; 1#2].
Proof.
  split.
  - destruct (nelderMead_evaluated objective [2; 1#2; 1#2] options)
      as [more ->].
    reflexivity.
  - unfold inUnitCube. intros H. inversion H as [| ? ? [_ Hle] _]; subst.
    apply Hle. reflexivity.
Qed.

(** Apart from the starting point, [nelderMead] clamps what it builds:
    started inside the unit cube, it evaluates the objective inside the
    unit cube only, and returns a point of it. *)
Lemma imap_snd {A} (g : nat -> nat) (l : list A) :
  map snd (imap (fun i v => (g i, v)) l) = l.
Proof.
  revert g. induction l as [| x l IH]; intros g; [reflexivity |].
  rewrite imap_cons. simpl. f_equal. apply (IH (g ∘ S)).
Qed.

Lemma resort_perm (indices : list nat) (values : list Q) (simplex : list point) :
  Permutation (Optimizer.resort indices values simplex) simplex.
Proof.
  unfold Optimizer.resort. rewrite sortBy_perm.
  rewrite (imap_snd (fun i => i)). reflexivity.
Qed.

Lemma nthV_inUnitCube (i : nat) (simplex : list point) :
  Forall inUnitCube simplex -> inUnitCube (nthV i simplex).
Proof.
  intros H. unfold nthV.
  destruct (nth_in_or_default i simplex []) as [Hin | ->]; [| constructor].
  rewrite Forall_forall in H. apply H. apply list_elem_of_In. exact Hin.
Qed.

Lemma imap_inUnitCube (f : nat -> Q -> Q) (v : point) :
  (forall j x, v !! j = Some x -> 0 <= f j x <= 1) -> inUnitCube (imap f v).
Proof.
  intros Hf. apply Forall_lookup. intros j y Hy.
  rewrite list_lookup_imap in Hy.
  destruct (v !! j) as [x |] eqn:E; [| discriminate].
  injection Hy as <-. apply Hf. exact E.
Qed.

Lemma clamped_inUnitCube (f : nat -> Q -> Q) (v : point) :
  inUnitCube (imap (fun j c => clamp (f j c) 0 1) v).
Proof. apply imap_inUnitCube. intros. apply clamp_bounds. discriminate. Qed.

Lemma sortSimplex_inUnitCube (st : list point * list Q) :
  Forall inUnitCube (fst st) ->
  Forall inUnitCube (fst (Optimizer.sortSimplex st)).
Proof.
  destruct st as [simplex values]. intros H. unfold Optimizer.sortSimplex.
  cbn [fst]. apply Forall_forall. intros v Hv.
  apply list_elem_of_In, in_map_iff in Hv. destruct Hv as (i & <- & _).
  apply nthV_inUnitCube. rewrite resort_perm. exact H.
Qed.

Lemma ensures_shrinkFrom (objective : point -> Q) (count i : nat)
    (st : list point * list Q) :
  Forall inUnitCube (fst st) ->
  ensures inUnitCube (fun st' => Forall inUnitCube (fst st'))
    (Optimizer.shrinkFrom objective i count st).
Proof.
  revert i st. induction count as [| count IH]; intros i [simplex values] H.
  - apply ensures_ret. exact H.
  - cbn [fst] in H. cbn [Optimizer.shrinkFrom].
    assert (Hv : inUnitCube
                   (imap (fun j x =>
                            if (j <? Optimizer.n3)%nat
                            then clamp (nthQ j (nthV 0 simplex)
                                        + sigma * (x - nthQ j (nthV 0 simplex))) 0 1
                            else x)
                         (nthV i simplex))).
    { apply imap_inUnitCube. intros j x Hx.
      destruct (j <? Optimizer.n3)%nat; [apply clamp_bounds; discriminate |].
      pose proof (nthV_inUnitCube i simplex H) as Hi.
      unfold inUnitCube in Hi. rewrite Forall_lookup in Hi. exact (Hi j x Hx). }
    eapply ensures_bind; [apply ensures_call; exact Hv |].
    intros y _. apply IH. cbn [fst]. apply Forall_insert; assumption.
Qed.

Lemma ensures_iteration (objective : point -> Q) (tol : Q)
    (st : list point * list Q) :
  Forall inUnitCube (fst st) ->
  ensures inUnitCube (fun t => Forall inUnitCube (fst (stateOf t)))
    (Optimizer.iteration objective tol st).
Proof.
  intros H. apply sortSimplex_inUnitCube in H. unfold Optimizer.iteration.
  destruct (Optimizer.sortSimplex st) as [simplex values]. cbn [fst] in H.
  destruct (Qlt_le_dec _ tol); [apply ensures_ret; exact H |].
  eapply ensures_bind; [apply ensures_call; apply clamped_inUnitCube |].
  intros reflectedValue _.
  destruct (geb _ _ && ltb _ _).
  { apply ensures_ret. cbn [stateOf fst]. apply Forall_insert;
      [exact H | apply clamped_inUnitCube]. }
  destruct (ltb reflectedValue _).
  { eapply ensures_bind; [apply ensures_call; apply clamped_inUnitCube |].
    intros expandedValue _.
    destruct (ltb expandedValue reflectedValue); apply ensures_ret;
      cbn [stateOf fst]; apply Forall_insert;
      solve [exact H | apply clamped_inUnitCube]. }
  eapply ensures_bind; [apply ensures_call; apply clamped_inUnitCube |].
  intros contractedValue _.
  destruct (ltb contractedValue _).
  { apply ensures_ret. cbn [stateOf fst]. apply Forall_insert;
      [exact H | apply clamped_inUnitCube]. }
  eapply ensures_bind; [apply ensures_shrinkFrom; exact H |].
  intros st' Hst'. apply ensures_ret. exact Hst'.
Qed.

Lemma ensures_iterate (objective : point -> Q) (tol : Q) (iters : nat)
    (st : list point * list Q) :
  Forall inUnitCube (fst st) ->
  ensures inUnitCube (fun st' => Forall inUnitCube (fst st'))
    (Optimizer.iterate objective tol iters st).
Proof.
  revert st. induction iters as [| iters IH]; intros st H.
  - apply ensures_ret. exact H.
  - cbn [Optimizer.iterate].
    eapply ensures_bind; [apply ensures_iteration; exact H |].
    intros [st' | st'] Hst'; cbn [stateOf] in Hst'.
    + apply ensures_ret. exact Hst'.
    + apply IH. exact Hst'.
Qed.

Lemma initialSimplex_inUnitCube (initial : point) :
  inUnitCube initial -> Forall inUnitCube (Optimizer.initialSimplex initial).
Proof.
  intros H. unfold Optimizer.initialSimplex. constructor; [exact H |].
  apply Forall_forall. intros v Hv.
  apply list_elem_of_In, in_map_iff in Hv. destruct Hv as (i & <- & _).
  apply Forall_insert; [exact H | apply clamp_bounds; discriminate].
Qed.

Lemma nelderMead_within_unit_cube (objective : point -> Q) (initial : point)
    (options : Options) :
  inUnitCube initial ->
  Forall inUnitCube (evaluated (Optimizer.nelderMead objective initial options))
  /\ inUnitCube (value (Optimizer.nelderMead objective initial options)).
Proof.
  intros H. apply initialSimplex_inUnitCube in H.
  assert (Hrun : ensures inUnitCube inUnitCube
                   (Optimizer.nelderMead objective initial options)).
  { unfold Optimizer.nelderMead.
    eapply ensures_bind; [apply ensures_callAll; exact H |].
    intros values _.
    eapply ensures_bind; [apply ensures_iterate; exact H |].
    intros st Hst. apply ensures_ret. apply nthV_inUnitCube. exact Hst. }
  destruct (Hrun [] ltac:(constructor)) as [Hvalue Hlog].
  split; assumption.
Qed.

(** With a constant objective the run stops at its first convergence test:
    the four evaluations are those of the initial simplex, three of them
    outside the unit cube. *)
Example nelderMead_trace_from_outside :
  evaluated (Optimizer.nelderMead (fun _ => 0) [2; 1#2; 1#2] noOptions)
  = [ [2; 1#2; 1#2];
      [clamp (2 + (1#10)) 0 1; 1#2; 1#2];
      [2; clamp ((1#2) + (1#10)) 0 1; 1#2];
      [2; 1#2; clamp ((1#2) + (1#10)) 0 1] ].
Proof. vm_compute. reflexivity. Qed.

(** Such a starting point reaches [nelderMead] from [optimizeBlend] when a
    weight is negative: the weighted average of clamped inverses then
    leaves [0,1]. *)
Example computeInitialGuess_outside_unit_cube :
  In normalMode blendModes
  /\ Forall2 Qeq
       (Optimizer.computeInitialGuess normalMode
          [blackToWhiteTripled; blackToBlackNegative])
       [3 # 2; 3 # 2; 3 # 2].
Proof.
  split; [simpl; tauto |]. vm_compute. repeat constructor.
Qed.

(** ** The initial guess of the single-blend optimiser (C4) *)

Lemma invertChannels_described (mode : BlendMode) (p : Pair)
    (sRgb tRgb : list Q) :
  hexToRgb (source p) = Some sRgb -> hexToRgb (target p) = Some tRgb ->
  describedInverse (fun b => clamp b 0 1) mode p
  = (fun v => (v, weightOf p))
      <$> Optimizer.invertChannels mode (normalize sRgb) (normalize tRgb) 0 3.
Proof.
  intros Hs Ht. unfold describedInverse. rewrite Hs, Ht. simpl.
  destruct (inverse mode (nthQ 0 _) (nthQ 0 _)) as [[b0 |] |];
    simpl; try reflexivity.
  destruct (inverse mode (nthQ 1 _) (nthQ 1 _)) as [[b1 |] |];
    simpl; try reflexivity.
  destruct (inverse mode (nthQ 2 _) (nthQ 2 _)) as [[b2 |] |];
    simpl; reflexivity.
Qed.

Lemma guessStep_described (mode : BlendMode) (p : Pair)
    (st : list Optimizer.ValidInverse * Q) :
  Optimizer.guessStep mode st p
  = match describedInverse (fun b => clamp b 0 1) mode p with
    | Some e => (fst st ++ [toValid e], snd st + snd e)
    | None => st
    end.
Proof.
  unfold Optimizer.guessStep.
  destruct (hexToRgb (source p)) as [sRgb |] eqn:Hs;
    [| unfold describedInverse; rewrite Hs; reflexivity].
  destruct (hexToRgb (target p)) as [tRgb |] eqn:Ht;
    [| unfold describedInverse; rewrite Hs, Ht; reflexivity].
  rewrite (invertChannels_described mode p sRgb tRgb Hs Ht).
  destruct (Optimizer.invertChannels _ _ _ _ _); reflexivity.
Qed.

Lemma guess_fold (mode : BlendMode) (pairs : list Pair)
    (acc : list Optimizer.ValidInverse) (w : Q) :
  fold_left (Optimizer.guessStep mode) pairs (acc, w)
  = (acc ++ map toValid (omap (describedInverse (fun b => clamp b 0 1) mode) pairs),
     fold_left (fun a e => a + snd e)
       (omap (describedInverse (fun b => clamp b 0 1) mode) pairs) w).
Proof.
  revert acc w. induction pairs as [| p pairs IH]; intros acc w; simpl.
  - by rewrite app_nil_r.
  - rewrite guessStep_described.
    destruct (describedInverse _ mode p) as [e |]; simpl.
    + rewrite IH. by rewrite <- app_assoc.
    + apply IH.
Qed.

Lemma fold_left_Qsum {A} (f : A -> Q) (l : list A) (a : Q) :
  fold_left (fun acc x => acc + f x) l a == a + Qsum (map f l).
Proof.
  revert a. induction l as [| x l IH]; intros a; simpl.
  - ring.
  - rewrite IH. ring.
Qed.

Lemma triple_fold {A} (f0 f1 f2 : A -> Q) (l : list A) (a b c : Q) :
  fold_left
    (fun avg item =>
       [nthQ 0 avg + f0 item; nthQ 1 avg + f1 item; nthQ 2 avg + f2 item])
    l [a; b; c]
  = [ fold_left (fun acc x => acc + f0 x) l a;
      fold_left (fun acc x => acc + f1 x) l b;
      fold_left (fun acc x => acc + f2 x) l c ].
Proof.
  revert a b c. induction l as [| x l IH]; intros a b c; simpl;
    [reflexivity | apply IH].
Qed.

Lemma Qsum_nonneg (l : list Q) : Forall (fun w => 0 <= w) l -> 0 <= Qsum l.
Proof.
  induction 1 as [| w l Hw _ IH]; simpl; [discriminate | lra].
Qed.

Lemma described_weights_nonneg (post : Q -> Q) (mode : BlendMode)
    (pairs : list Pair) :
  Forall (fun p => 0 <= weightOf p) pairs ->
  Forall (fun w => 0 <= w) (map snd (omap (describedInverse post mode) pairs)).
Proof.
  induction 1 as [| p pairs Hp _ IH]; simpl; [constructor |].
  destruct (describedInverse post mode p) as [e |] eqn:E; simpl; [| exact IH].
  constructor; [| exact IH].
  unfold describedInverse in E.
  destruct (hexToRgb (source p)); [| discriminate].
  destruct (hexToRgb (target p)); [| discriminate].
  destruct (forallb _ _); [| discriminate].
  injection E as <-. exact Hp.
Qed.

Lemma match_nonempty {A B} (l : list A) (x y : B) :
  l <> [] -> match l with _ :: _ => x | [] => y end = x.
Proof. destruct l; [congruence | reflexivity]. Qed.

Lemma weighted_fold (valid : list (list Q * Q)) (k : nat) :
  fold_left
    (fun acc x => acc + nthQ k (Optimizer.norm x) * Optimizer.vi_weight x)
    (map toValid valid) 0
  == Qsum (map (fun e => nthQ k (fst e) * snd e) valid).
Proof. rewrite fold_left_Qsum, map_map. simpl. ring. Qed.

Lemma plain_fold (valid : list (list Q * Q)) (k : nat) :
  fold_left (fun acc x => acc + nthQ k (Optimizer.norm x))
    (map toValid valid) 0
  == Qsum (map (fun e => nthQ k (fst e)) valid).
Proof. rewrite fold_left_Qsum, map_map. simpl. ring. Qed.




(** ** The Levels optimiser keeps its constraints (C5) *)

Lemma Qmax_bounds (lo hi x : Q) : lo <= hi -> lo <= Qmax lo (Qmin hi x) <= hi.
Proof. intros H. exact (clamp_bounds x lo hi H). Qed.

Lemma clampParams_levelsOrdered (p : point) :
  levelsOrdered (Levels.clampParams p).
Proof.
  unfold levelsOrdered, Levels.clampParams, nthQ. simpl. split.
  - apply Q.le_max_l.
  - apply Qmax_bounds. discriminate.
Qed.

Lemma Math_round_shift (a b : Q) :
  a + 2 <= b -> Math_round a + 2 <= Math_round b.
Proof.
  intros Hab. unfold Math_round.
  pose proof (Qfloor_le (a + (1#2))) as Ha.
  pose proof (Qlt_floor (b + (1#2))) as Hb.
  assert (Hlt : inject_Z (Qfloor (a + (1#2)) + 2) < inject_Z (Qfloor (b + (1#2)) + 1)).
  { rewrite inject_Z_plus in Hb. rewrite !inject_Z_plus.
    change (inject_Z 2) with 2. change (inject_Z 1) with 1 in *. lra. }
  rewrite <- Zlt_Qlt in Hlt.
  change 2 with (inject_Z 2). rewrite <- inject_Z_plus.
  rewrite <- Zle_Qle. lia.
Qed.

Lemma Math_round_between (x : Q) (lo hi : Z) :
  inject_Z lo <= x -> x <= inject_Z hi ->
  inject_Z lo <= Math_round x <= inject_Z hi.
Proof.
  intros Hlo Hhi. unfold Math_round.
  pose proof (Qfloor_le (x + (1#2))) as Hfl.
  pose proof (Qlt_floor (x + (1#2))) as Hlt.
  split; rewrite <- Zle_Qle.
  - assert (H : inject_Z lo < inject_Z (Qfloor (x + (1#2)) + 1)) by lra.
    rewrite <- Zlt_Qlt in H. lia.
  - assert (H : inject_Z (Qfloor (x + (1#2))) < inject_Z (hi + 1)).
    { rewrite inject_Z_plus. change (inject_Z 1) with 1. lra. }
    rewrite <- Zlt_Qlt in H. lia.
Qed.

Lemma gamma_rounded (g : Q) :
  1 # 10 <= g <= 999 # 100 ->
  1 # 10 <= Math_round (g * 100) / 100 <= 999 # 100.
Proof.
  intros [Hlo Hhi].
  destruct (Math_round_between (g * 100) 10 999) as [H1 H2].
  - change (inject_Z 10) with 10. lra.
  - change (inject_Z 999) with 999. lra.
  - change (inject_Z 10) with 10 in H1. change (inject_Z 999) with 999 in H2.
    assert (E : Math_round (g * 100) / 100 == Math_round (g * 100) * (1 # 100))
      by (field).
    rewrite E. lra.
Qed.

Section LevelsConstraints.

Variable Lab : Type.
Variable rgbToLab : Q -> Q -> Q -> Lab.
Variable deltaE : Lab -> Lab -> Q.
Variable applyLevelsAdjustment : list Q -> Levels.LevelsParams -> list Q.

Lemma nelderMead5D_levelsOrdered (fn : point -> Q) (initial : point)
    (options : Options) :
  levelsOrdered (solution (value (Levels.nelderMead5D fn initial options))).
Proof.
  unfold value, runEval, Levels.nelderMead5D.
  eapply ensures_simplexSearch with (P := levelsOrdered).
  - apply clampParams_levelsOrdered.
  - reflexivity.
  - repeat constructor; apply clampParams_levelsOrdered.
  - constructor.
Qed.

Lemma fold_left_step {A B} (f : A -> B -> A) (x : B) (l : list B) (a : A) :
  fold_left f (x :: l) a = fold_left f l (f a x).
Proof. reflexivity. Qed.

Lemma tryStart_first (objective : point -> Q) (start : point) :
  holdsOrdered (Levels.tryStart objective (None, None) start).
Proof.
  unfold Levels.tryStart. cbn [snd Levels.improves].
  eexists _, _. split; [reflexivity | apply nelderMead5D_levelsOrdered].
Qed.

Lemma tryStart_next (objective : point -> Q) (start : point)
    (best : option point * option Q) :
  holdsOrdered best -> holdsOrdered (Levels.tryStart objective best start).
Proof.
  intros Hbest. unfold Levels.tryStart.
  destruct (Levels.improves _ _); [| exact Hbest].
  eexists _, _. split; [reflexivity | apply nelderMead5D_levelsOrdered].
Qed.

Lemma fold_tryStart (objective : point -> Q) (starts : list point)
    (best : option point * option Q) :
  holdsOrdered best ->
  holdsOrdered (fold_left (Levels.tryStart objective) starts best).
Proof.
  revert best. induction starts as [| start starts IH]; intros best Hbest.
  - exact Hbest.
  - simpl. apply IH. apply tryStart_next. exact Hbest.
Qed.

Lemma restarts_holdsOrdered (objective : point -> Q) :
  holdsOrdered (Levels.restarts objective).
Proof.
  unfold Levels.restarts, Levels.startingPoints.
  rewrite fold_left_step.
  apply fold_tryStart. apply tryStart_first.
Qed.


End LevelsConstraints.


(** ** Basin hopping never worsens the retained value (C6) *)

Lemma ltb_lt (a b : Q) : ltb a b = true -> a < b.
Proof. unfold ltb. destruct (Qlt_le_dec a b); [trivial | discriminate]. Qed.

Lemma ltb_ge (a b : Q) : ltb a b = false -> b <= a.
Proof. unfold ltb. destruct (Qlt_le_dec a b); [discriminate | trivial]. Qed.

Section BasinHopping.

Variable random : nat -> Q.
Variable objective : point -> Q.
Variable paramConfigs : list Bound.

Lemma basinHop_cases (hop : nat) (current : Found) (drawn : nat) :
  fst (MultiStep.basinHop random objective paramConfigs hop current drawn)
    = current
  \/ found_value
       (fst (MultiStep.basinHop random objective paramConfigs hop current drawn))
     < found_value current.
Proof.
  unfold MultiStep.basinHop.
  destruct (MultiStep.perturbSolution _ _ _ _ _) as [perturbed drawn'].
  cbn [fst].
  destruct (ltb _ (found_value current)) eqn:E; [right | left; reflexivity].
  apply ltb_lt. exact E.
Qed.

Lemma basinHop_le (hop : nat) (current : Found) (drawn : nat) :
  found_value
    (fst (MultiStep.basinHop random objective paramConfigs hop current drawn))
  <= found_value current.
Proof.
  destruct (basinHop_cases hop current drawn) as [-> | Hlt].
  - apply Qle_refl.
  - apply Qlt_le_weak. exact Hlt.
Qed.

(** C6.  Whatever the random draws, one basin hop either keeps the current
    solution or adopts one with a strictly lower objective value, so the
    value after a hop is at most the value before it, and the value after
    the whole basin-hopping loop of a restart is at most the value the
    restart's own refinement reached. *)
Theorem basinHopping_never_worsens (hop count : nat) (current : Found)
    (drawn : nat) :
  (fst (MultiStep.basinHop random objective paramConfigs hop current drawn)
     = current
   \/ found_value
        (fst (MultiStep.basinHop random objective paramConfigs hop current drawn))
      < found_value current)
  /\ found_value
       (fst (MultiStep.basinHop random objective paramConfigs hop current drawn))
     <= found_value current
  /\ found_value
       (fst (MultiStep.basinHopping random objective paramConfigs
               hop count current drawn))
     <= found_value current.
Proof.
  split; [apply basinHop_cases |]. split; [apply basinHop_le |].
  revert hop current drawn.
  induction count as [| count IH]; intros hop current drawn.
  - apply Qle_refl.
  - cbn [MultiStep.basinHopping].
    pose proof (basinHop_le hop current drawn) as Hhop.
    destruct (MultiStep.basinHop _ _ _ hop current drawn) as [current' drawn'].
    cbn [fst] in Hhop.
    eapply Qle_trans; [apply IH | exact Hhop].
Qed.

End BasinHopping.

(** ** The retained top solutions (C9) *)

Lemma sortBy_sorted_id {A} (key : A -> Q) (l : list A) :
  ascending key l -> sortBy key l = l.
Proof.
  unfold ascending. induction 1 as [| x l Hs IH Hhd]; simpl; [reflexivity |].
  rewrite IH. destruct Hhd as [| y l' Hxy]; simpl; [reflexivity |].
  destruct (Qlt_le_dec (key y) (key x)) as [Hlt | _]; [| reflexivity].
  exfalso. apply (Qlt_not_le _ _ Hlt). exact Hxy.
Qed.

Lemma ascending_take {A} (key : A -> Q) (k : nat) (l : list A) :
  ascending key l -> ascending key (take k l).
Proof.
  unfold ascending. revert k. induction l as [| x l IH]; intros k Hs.
  - destruct k; constructor.
  - destruct k as [| k]; simpl; [constructor |].
    inversion Hs as [| ? ? Hs' Hhd]; subst.
    constructor; [apply IH; exact Hs' |].
    destruct Hhd as [| y l' Hxy]; [destruct k; constructor |].
    destruct k; simpl; constructor. exact Hxy.
Qed.

Lemma NoDup_take {A} (k : nat) (l : list A) : NoDup l -> NoDup (take k l).
Proof.
  intros H. rewrite <- (take_drop k l) in H.
  apply NoDup_app in H. tauto.
Qed.

Section TopSolutions.

Variable numberToString : Q -> string.

Abbreviation getKey := (MultiStep.getKey numberToString).
Abbreviation updateTopSolutions := (MultiStep.updateTopSolutions numberToString).
Abbreviation avgOf := MultiStep.metaAvgError.
Abbreviation kept := (retained numberToString).
Abbreviation all := (merged numberToString).

Lemma retained_initial (existingBest : option MultiStep.MetaResult) :
  kept (option_list existingBest).
Proof.
  destruct existingBest as [b |]; simpl; repeat split; simpl; try lia.
  - repeat constructor. set_solver.
  - repeat constructor.
  - constructor.
  - constructor.
Qed.

Lemma updateTopSolutions_merged tops newResult :
  updateTopSolutions tops newResult = take 6 (sortBy avgOf (all tops newResult)).
Proof. reflexivity. Qed.

Lemma merged_keys_NoDup tops newResult :
  NoDup (map getKey tops) -> NoDup (map getKey (all tops newResult)).
Proof.
  intros Hnd. unfold merged.
  destruct (list_find _ tops) as [[idx stored] |] eqn:Efind.
  - apply list_find_Some in Efind. destruct Efind as (Hidx & Hkey & _).
    destruct (ltb _ _); [| exact Hnd].
    rewrite list_fmap_insert. rewrite <- Hkey.
    rewrite list_insert_id; [exact Hnd |].
    rewrite list_lookup_fmap, Hidx. reflexivity.
  - apply list_find_None in Efind.
    rewrite map_app. simpl. apply NoDup_app. split; [exact Hnd |].
    split; [| apply NoDup_singleton].
    intros k Hk Hk'. apply list_elem_of_singleton in Hk'. subst k.
    apply list_elem_of_fmap in Hk. destruct Hk as (s & Hs & Hin).
    rewrite Forall_forall in Efind. apply (Efind s Hin). congruence.
Qed.

Lemma merged_length tops newResult :
  (length (all tops newResult) <= S (length tops))%nat.
Proof.
  unfold merged. destruct (list_find _ tops) as [[idx stored] |].
  - destruct (ltb _ _); rewrite ?length_insert; lia.
  - rewrite length_app. simpl. lia.
Qed.

Lemma retained_update tops newResult :
  kept tops -> kept (updateTopSolutions tops newResult).
Proof.
  intros (Hlen & Hnd & Hsorted). rewrite updateTopSolutions_merged.
  repeat split.
  - rewrite length_take. lia.
  - rewrite fmap_take. apply NoDup_take.
    rewrite sortBy_perm. apply merged_keys_NoDup. exact Hnd.
  - apply ascending_take. apply sortBy_ascending.
Qed.

Lemma retained_history (existingBest : option MultiStep.MetaResult)
    (history : list MultiStep.MetaResult) :
  kept (fold_left updateTopSolutions history (option_list existingBest)).
Proof.
  generalize (retained_initial existingBest).
  generalize (option_list existingBest).
  induction history as [| r history IH]; intros tops Htops; simpl.
  - exact Htops.
  - apply IH. apply retained_update. exact Htops.
Qed.

Lemma sortBy_length {A} (key : A -> Q) (l : list A) :
  length (sortBy key l) = length l.
Proof. apply Permutation_length. apply sortBy_perm. Qed.

(** C9.  In every state the search can reach (the stored list starts as the
    carried-over best, if any, and changes only through
    [updateTopSolutions]), a call leaves at most 6 entries, with pairwise
    distinct sequence keys, in ascending order of average error.  If a
    stored entry has the key of the new result, the new result takes its
    place when its average error is strictly lower and the list is left as
    it was otherwise; a result with a new key is added to the list, which
    is then sorted and cut to 6. *)
Theorem updateTopSolutions_retains
    (existingBest : option MultiStep.MetaResult)
    (history : list MultiStep.MetaResult)
    (newResult : MultiStep.MetaResult) :
  let tops := fold_left updateTopSolutions history (option_list existingBest) in
  let tops' := updateTopSolutions tops newResult in
  (length tops' <= 6)%nat
  /\ NoDup (map getKey tops')
  /\ ascending avgOf tops'
  /\ ((exists idx stored,
         tops !! idx = Some stored
         /\ getKey stored = getKey newResult
         /\ avgOf newResult < avgOf stored
         /\ tops' = sortBy avgOf (<[idx := newResult]> tops))
      \/ (exists stored,
            stored ∈ tops
            /\ getKey stored = getKey newResult
            /\ avgOf stored <= avgOf newResult
            /\ tops' = tops)
      \/ (~ In (getKey newResult) (map getKey tops)
          /\ tops' = take 6 (sortBy avgOf (tops ++ [newResult])))).
Proof.
  intros tops tops'.
  pose proof (retained_history existingBest history) as Htops.
  fold tops in Htops.
  destruct (retained_update tops newResult Htops) as (Hlen' & Hnd' & Hsorted').
  fold tops' in Hlen', Hnd', Hsorted'.
  split; [exact Hlen' |]. split; [exact Hnd' |]. split; [exact Hsorted' |].
  destruct Htops as (Hlen & Hnd & Hsorted).
  subst tops'. rewrite updateTopSolutions_merged. unfold merged.
  destruct (list_find _ tops) as [[idx stored] |] eqn:Efind.
  - apply list_find_Some in Efind. destruct Efind as (Hidx & Hkey & _).
    destruct (ltb _ _) eqn:Elt.
    + left. exists idx, stored. repeat split; try assumption.
      * apply ltb_lt. exact Elt.
      * apply take_ge. rewrite sortBy_length, length_insert. exact Hlen.
    + right. left. exists stored. repeat split; try assumption.
      * eapply list_elem_of_lookup_2. exact Hidx.
      * apply ltb_ge. exact Elt.
      * rewrite sortBy_sorted_id by exact Hsorted.
        apply take_ge. exact Hlen.
  - right. right. split; [| reflexivity].
    apply list_find_None in Efind. rewrite Forall_forall in Efind.
    intros Hin. apply list_elem_of_In, list_elem_of_fmap in Hin.
    destruct Hin as (s & Hs & Hin). apply (Efind s Hin). congruence.
Qed.

End TopSolutions.

(** ** Pairs of weight zero (C10) *)

Section ZeroWeights.

Variable Lab : Type.
Variable rgbToLab : Q -> Q -> Q -> Lab.
Variable deltaE : Lab -> Lab -> Q.

Abbreviation computeBlendError := (Optimizer.computeBlendError Lab rgbToLab deltaE).
Abbreviation blendPairResult := (Optimizer.blendPairResult Lab rgbToLab deltaE).
Abbreviation optimizeBlend := (Optimizer.optimizeBlend Lab rgbToLab deltaE).

Abbreviation blendStep := (Optimizer.blendStep Lab rgbToLab deltaE).

Lemma blendPairResult_weight modeName blendNorm pair r :
  blendPairResult modeName blendNorm pair = Some r ->
  pp_weight r = weightOf pair.
Proof.
  unfold Optimizer.blendPairResult.
  destruct (hexToRgb (source pair)); [| discriminate].
  destruct (hexToRgb (target pair)); [| discriminate].
  intros [= <-]. reflexivity.
Qed.

Lemma zero_weight_fold modeName blendNorm (pairs : list Pair) (acc : ErrorAcc) :
  Forall (fun p => weightOf p == 0) pairs ->
  acc_total acc == 0 -> acc_weight acc == 0 ->
  acc_total (fold_left (blendStep modeName blendNorm) pairs acc) == 0
  /\ acc_weight (fold_left (blendStep modeName blendNorm) pairs acc) == 0.
Proof.
  intros Hpairs. revert acc.
  induction Hpairs as [| p pairs Hp _ IH]; intros acc Ht Hw; simpl.
  - split; assumption.
  - apply IH; unfold Optimizer.blendStep;
      destruct (blendPairResult modeName blendNorm p) as [r |] eqn:E;
      try assumption; cbn [accumulate acc_total acc_weight];
      rewrite (blendPairResult_weight _ _ _ _ E), Hp.
    + rewrite Ht. ring.
    + rewrite Hw. ring.
Qed.

Lemma max_fold modeName blendNorm (pairs : list Pair) (acc : ErrorAcc) :
  Forall (fun r => pp_error r <= acc_max acc) (acc_results acc) ->
  Forall (fun r => pp_error r
                   <= acc_max (fold_left (blendStep modeName blendNorm) pairs acc))
         (acc_results (fold_left (blendStep modeName blendNorm) pairs acc)).
Proof.
  revert acc. induction pairs as [| p pairs IH]; intros acc Hacc; simpl.
  - exact Hacc.
  - apply IH. unfold Optimizer.blendStep.
    destruct (blendPairResult modeName blendNorm p) as [r |]; [| exact Hacc].
    cbn [accumulate acc_max acc_results]. apply Forall_app. split.
    + eapply Forall_impl; [exact Hacc |]. cbn beta. intros r' Hr'.
      eapply Qle_trans; [exact Hr' | apply Q.le_max_l].
    + constructor; [apply Q.le_max_r | constructor].
Qed.

Lemma computeBlendError_zero_weights modeName (pairs : list Pair) blendNorm :
  Forall (fun p => weightOf p == 0) pairs ->
  totalError (computeBlendError modeName pairs blendNorm) == 0
  /\ avgError (computeBlendError modeName pairs blendNorm) = 0
  /\ Forall (fun r => pp_error r
                      <= maxError (computeBlendError modeName pairs blendNorm))
            (perPairResults (computeBlendError modeName pairs blendNorm)).
Proof.
  intros Hpairs. unfold Optimizer.computeBlendError.
  destruct (zero_weight_fold modeName blendNorm pairs emptyAcc Hpairs)
    as [Ht Hw]; try reflexivity.
  pose proof (max_fold modeName blendNorm pairs emptyAcc) as Hmax.
  unfold finish. cbn [totalError avgError maxError perPairResults].
  split; [exact Ht |]. split.
  - destruct (Qlt_le_dec 0 _) as [Hpos | _]; [| reflexivity].
    rewrite Hw in Hpos. discriminate Hpos.
  - apply Hmax. constructor.
Qed.

(** C10.  When every complete pair has weight 0 (and there is one),
    [computeBlendError] returns a total and an average error of 0 for every
    blend colour, and [optimizeBlend] reports quality [exact], whatever the
    perceptual distance is; the per-pair errors are still the unweighted
    distances, bounded only by [maxError]. *)
Theorem optimizeBlend_zero_weights_exact (mode : BlendMode) (pairs : list Pair) :
  validPairsOf pairs <> [] ->
  Forall (fun p => weightOf p == 0) (validPairsOf pairs) ->
  (forall blendNorm,
     totalError (computeBlendError (name mode) (validPairsOf pairs) blendNorm) == 0
     /\ avgError (computeBlendError (name mode) (validPairsOf pairs) blendNorm) = 0)
  /\ exists r,
       optimizeBlend mode pairs = Some r
       /\ Optimizer.or_totalError r == 0
       /\ Optimizer.or_avgError r = 0
       /\ Optimizer.quality r = exact
       /\ Forall (fun e => pp_error e <= Optimizer.or_maxError r)
                 (Optimizer.or_perPairResults r).
Proof.
  intros Hvalid Hzero. split.
  - intros blendNorm.
    destruct (computeBlendError_zero_weights (name mode) _ blendNorm Hzero)
      as (Ht & Ha & _).
    split; assumption.
  - unfold Optimizer.optimizeBlend.
    destruct (validPairsOf pairs) as [| pair validPairs] eqn:E; [congruence |].
    eexists. split; [reflexivity |].
    cbn [Optimizer.or_totalError Optimizer.or_avgError Optimizer.quality
         Optimizer.or_maxError Optimizer.or_perPairResults].
    match goal with
    | |- context [Optimizer.computeBlendError _ _ _ ?m ?ps ?b] =>
        destruct (computeBlendError_zero_weights m ps b Hzero) as (Ht & Ha & Hm)
    end.
    split; [exact Ht |]. split; [exact Ha |]. split; [| exact Hm].
    rewrite Ha. reflexivity.
Qed.

End ZeroWeights.

Lemma optimizeBlend_zero_weights_exact_witness :
  (forall blendNorm,
     totalError (Optimizer.computeBlendError unit (fun _ _ _ => tt)
                   (fun _ _ => 100) (name multiplyMode)
                   (validPairsOf [blackToWhiteUnweighted]) blendNorm) == 0
     /\ avgError (Optimizer.computeBlendError unit (fun _ _ _ => tt)
                    (fun _ _ => 100) (name multiplyMode)
                    (validPairsOf [blackToWhiteUnweighted]) blendNorm) = 0)
  /\ exists r,
       Optimizer.optimizeBlend unit (fun _ _ _ => tt) (fun _ _ => 100)
         multiplyMode [blackToWhiteUnweighted] = Some r
       /\ Optimizer.or_totalError r == 0
       /\ Optimizer.or_avgError r = 0
       /\ Optimizer.quality r = exact
       /\ Forall (fun e => pp_error e <= Optimizer.or_maxError r)
                 (Optimizer.or_perPairResults r).
Proof.
  apply (optimizeBlend_zero_weights_exact unit (fun _ _ _ => tt)
           (fun _ _ => 100) multiplyMode [blackToWhiteUnweighted]).
  - discriminate.
  - repeat constructor.
Defined.

(** With a distance of 100 between the achieved and the target colour and a
    weight of 0, the badge is still [exact] while [maxError] is 100. *)
Example optimizeBlend_exact_with_large_error :
  (fun r => (Optimizer.quality r, Qred (Optimizer.or_maxError r)))
    <$> Optimizer.optimizeBlend unit (fun _ _ _ => tt) (fun _ _ => 100)
          multiplyMode [blackToWhiteUnweighted]
  = Some (exact, 100).
Proof. vm_compute. reflexivity. Qed.

(** ** The asynchronous search: empty input and cancellation (C7, C8) *)

Lemma validPairsOf_nil (pairs : list Pair) :
  Forall (fun p => truthy (source p) && truthy (target p) = false) pairs ->
  validPairsOf pairs = [].
Proof.
  unfold validPairsOf. induction 1 as [| p pairs Hp _ IH]; [reflexivity |].
  rewrite filter_cons. destruct (decide _) as [Htrue | _]; [| exact IH].
  congruence.
Qed.

Section AsyncSearch.

Variable Lab : Type.
Variable rgbToLab : Q -> Q -> Q -> Lab.
Variable deltaE : Lab -> Lab -> Q.
Variable applyHslAdjustment : list Q -> Q -> Q -> Q -> list Q.
Variable applyLevelsAdjustment : list Q -> Levels.LevelsParams -> list Q.
Variable numberToString : Q -> string.
Variable random : nat -> Q.
Variable cancelDuring : nat -> bool.
Variable greedySearchSequences :
  list Pair -> nat -> nat -> Q -> Q -> bool -> bool -> nat ->
  completion (list MultiStep.Candidate) * nat.
Variable generateModeSequences :
  nat -> nat -> bool -> bool -> nat -> list (list string) * nat.

Abbreviation optimize :=
  (MultiStep.optimize Lab rgbToLab deltaE applyHslAdjustment
     applyLevelsAdjustment numberToString random cancelDuring
     greedySearchSequences generateModeSequences).
Abbreviation optimizingPhase :=
  (MultiStep.optimizingPhase Lab rgbToLab deltaE applyHslAdjustment
     applyLevelsAdjustment numberToString random cancelDuring).
Abbreviation candidateTurn :=
  (MultiStep.candidateTurn Lab rgbToLab deltaE applyHslAdjustment
     applyLevelsAdjustment numberToString random cancelDuring).
Abbreviation evaluateCandidate :=
  (MultiStep.evaluateCandidate Lab rgbToLab deltaE applyHslAdjustment
     applyLevelsAdjustment numberToString random cancelDuring).
Abbreviation singlePhase := (MultiStep.singlePhase Lab rgbToLab deltaE).
Abbreviation hostTurn := (MultiStep.hostTurn cancelDuring).
Abbreviation report := (MultiStep.report cancelDuring).

(** C8.  When no pair has both a source and a target, each optimiser entry
    point returns null and none of them raises: [optimizeBlend],
    [optimizeHsl], [optimizeLevels] and the multi-step [optimize]. *)
Theorem no_complete_pair_gives_null (mode : BlendMode) (pairs : list Pair)
    (numSteps : nat) (options : MultiStep.SearchOptions) (r0 : MultiStep.Run) :
  Forall (fun p => truthy (source p) && truthy (target p) = false) pairs ->
  Optimizer.optimizeBlend Lab rgbToLab deltaE mode pairs = None
  /\ HslTool.optimizeHsl Lab rgbToLab deltaE applyHslAdjustment pairs
     = Normal None
  /\ Levels.optimizeLevels Lab rgbToLab deltaE applyLevelsAdjustment pairs
     = Normal None
  /\ fst (optimize pairs numSteps options r0) = Normal MultiStep.RetNull.
Proof.
  intros Hpairs. apply validPairsOf_nil in Hpairs.
  unfold Optimizer.optimizeBlend, HslTool.optimizeHsl, Levels.optimizeLevels,
    MultiStep.optimize.
  rewrite !Hpairs. repeat split; reflexivity.
Qed.

(** *** Once set, the flag stays set *)

Lemma cancelled_hostTurn ev r :
  MultiStep.cancelled (MultiStep.this r) = true ->
  MultiStep.cancelled (MultiStep.this (hostTurn ev r)) = true.
Proof.
  intros H. unfold MultiStep.hostTurn. cbn [MultiStep.this].
  destruct (cancelDuring _); [reflexivity | exact H].
Qed.

Lemma cancelled_report options ev r :
  MultiStep.cancelled (MultiStep.this r) = true ->
  MultiStep.cancelled (MultiStep.this (report options ev r)) = true.
Proof.
  intros H. unfold MultiStep.report.
  destruct (MultiStep.onProgress options); [apply cancelled_hostTurn |];
    exact H.
Qed.

Lemma cancelled_evaluateCandidate options validPairs minOp maxOp nrb bhc
    bestMode bestError candidate r :
  MultiStep.cancelled (MultiStep.this r) = true ->
  MultiStep.cancelled
    (MultiStep.this
       (evaluateCandidate options validPairs minOp maxOp nrb bhc
          bestMode bestError candidate r)) = true.
Proof.
  intros H. unfold MultiStep.evaluateCandidate.
  destruct (MultiStep.jointOptimizeModeSequenceEnhanced _ _ _ _ _ _ _ _ _ _
              _ _ _ _ _) as [[[res |] |] d];
    try exact H.
  destruct (MultiStep.onBestFound options);
    [apply cancelled_hostTurn |]; exact H.
Qed.

Lemma cancelled_candidateTurn options validPairs minOp maxOp nrb bhc
    bestMode bestError candidate evaluated total r :
  MultiStep.cancelled (MultiStep.this r) = true ->
  MultiStep.cancelled
    (MultiStep.this
       (candidateTurn options validPairs minOp maxOp nrb bhc
          bestMode bestError candidate evaluated total r)) = true.
Proof.
  intros H. unfold MultiStep.candidateTurn.
  destruct (Nat.eqb _ 0); [apply cancelled_hostTurn |];
    apply cancelled_evaluateCandidate, cancelled_report; exact H.
Qed.

(** *** The cancellation check points *)

Section Phase3.

Variable options : MultiStep.SearchOptions.
Variable validPairs : list Pair.
Variables minOp maxOp : Q.
Variables numRestartsBase basinHopsCount : nat.
Variable bestMode : option string.
Variable bestError : option Q.
Variable total : nat.

Abbreviation phase3 :=
  (optimizingPhase options validPairs minOp maxOp numRestartsBase
     basinHopsCount bestMode bestError).
Abbreviation turns :=
  (runTurns Lab rgbToLab deltaE applyHslAdjustment applyLevelsAdjustment
     numberToString random cancelDuring options validPairs minOp maxOp
     numRestartsBase basinHopsCount bestMode bestError total).
Abbreviation turnOf :=
  (candidateTurn options validPairs minOp maxOp numRestartsBase
     basinHopsCount bestMode bestError).

(** At the head of either loop, a set flag ends the run with the best
    result held at that moment; nothing runs in between. *)
Lemma singlePhase_cancelled (this : MultiStep.Instance) (mode : BlendMode)
    (modes : list BlendMode) (best : option string * option Q) :
  MultiStep.cancelled this = true ->
  singlePhase this validPairs (mode :: modes) best
  = inl (MultiStep.RetBest (MultiStep.bestResult this)).
Proof. intros H. cbn [MultiStep.singlePhase]. rewrite H. reflexivity. Qed.

Lemma optimizingPhase_cancelled (candidate : MultiStep.Candidate)
    (candidates : list MultiStep.Candidate) (evaluated : nat)
    (r : MultiStep.Run) :
  MultiStep.cancelled (MultiStep.this r) = true ->
  phase3 (candidate :: candidates) evaluated total r
  = (MultiStep.RetBest (MultiStep.bestResult (MultiStep.this r)), r).
Proof. intros H. cbn [MultiStep.optimizingPhase]. rewrite H. reflexivity. Qed.

Lemma cancelled_runTurns processed evaluated r :
  MultiStep.cancelled (MultiStep.this r) = true ->
  MultiStep.cancelled (MultiStep.this (turns processed evaluated r)) = true.
Proof.
  revert evaluated r.
  induction processed as [| c processed IH]; intros evaluated r H; simpl.
  - exact H.
  - apply IH. apply cancelled_candidateTurn. exact H.
Qed.

End Phase3.

(** *** The run as a whole *)

(** A host that cancels during the first progress report gets the
    carried-over best back, before any optimisation has run. *)
Lemma optimize_cancelled_at_first_report (pairs : list Pair) (numSteps : nat)
    (options : MultiStep.SearchOptions) (r0 : MultiStep.Run) :
  validPairsOf pairs <> [] ->
  MultiStep.onProgress options = true ->
  cancelDuring (MultiStep.hostTurns r0) = true ->
  fst (optimize pairs numSteps options r0)
  = Normal (MultiStep.RetBest (MultiStep.existingBest options)).
Proof.
  intros Hvalid Hprogress Hcancel. unfold MultiStep.optimize.
  destruct (validPairsOf pairs) as [| pair validPairs]; [congruence |].
  unfold MultiStep.report at 1. rewrite Hprogress.
  match goal with
  | |- context [singlePhase (MultiStep.this ?r) _ _ _] =>
      assert (Hstate : MultiStep.cancelled (MultiStep.this r) = true
                       /\ MultiStep.bestResult (MultiStep.this r)
                          = MultiStep.existingBest options)
  end.
  { unfold MultiStep.hostTurn, MultiStep.withThis.
    cbn [MultiStep.this MultiStep.hostTurns]. rewrite Hcancel.
    split; reflexivity. }
  destruct Hstate as [Hflag Hbest].
  unfold blendModes. rewrite singlePhase_cancelled by exact Hflag.
  cbn [fst]. rewrite Hbest. reflexivity.
Qed.

(** The run raises only if the greedy search does. *)
Lemma optimize_throws_only_from_greedy (pairs : list Pair) (numSteps : nat)
    (options : MultiStep.SearchOptions) (r0 : MultiStep.Run) :
  (forall vp k trials lo hi hsl lvl d,
     fst (greedySearchSequences vp k trials lo hi hsl lvl d) <> Throw) ->
  fst (optimize pairs numSteps options r0) <> Throw.
Proof.
  intros Hgreedy. unfold MultiStep.optimize.
  destruct (validPairsOf pairs) as [| pair validPairs]; [discriminate |].
  destruct (singlePhase _ _ _ _) as [ret | [bestMode bestError]];
    [discriminate |].
  match goal with
  | |- context [greedySearchSequences ?vp ?k ?t ?lo ?hi ?h ?l ?d] =>
      pose proof (Hgreedy vp k t lo hi h l d) as Hg;
      destruct (greedySearchSequences vp k t lo hi h l d) as [[cands |] d']
  end.
  - destruct (generateModeSequences _ _ _ _ _) as [enumerated d''].
    destruct (optimizingPhase _ _ _ _ _ _ _ _ _ _ _ _). discriminate.
  - exfalso. apply Hg. reflexivity.
Qed.

(** The stored best result never gets worse while a candidate is handled. *)
Lemma evaluateCandidate_best options validPairs minOp maxOp nrb bhc
    bestMode bestError candidate r b0 :
  MultiStep.bestResult (MultiStep.this r) = Some b0 ->
  exists b,
    MultiStep.bestResult
      (MultiStep.this
         (evaluateCandidate options validPairs minOp maxOp nrb bhc
            bestMode bestError candidate r)) = Some b
    /\ MultiStep.metaAvgError b <= MultiStep.metaAvgError b0.
Proof.
  intros Hb0. unfold MultiStep.evaluateCandidate.
  destruct (MultiStep.jointOptimizeModeSequenceEnhanced _ _ _ _ _ _ _ _ _ _
              _ _ _ _ _) as [[[res |] |] d];
    try (exists b0; split; [exact Hb0 | apply Qle_refl]).
  cbn [MultiStep.withDrawn MultiStep.this MultiStep.bestResult].
  rewrite Hb0.
  destruct (ltb _ (MultiStep.metaAvgError b0)) eqn:E.
  - eexists. split.
    + destruct (MultiStep.onBestFound options); unfold MultiStep.hostTurn;
        cbn [MultiStep.this MultiStep.withThis];
        try destruct (cancelDuring _); reflexivity.
    + apply Qlt_le_weak, ltb_lt. exact E.
  - exists b0. split; [| apply Qle_refl].
    destruct (MultiStep.onBestFound options); unfold MultiStep.hostTurn;
      cbn [MultiStep.this MultiStep.withThis];
      try destruct (cancelDuring _); reflexivity.
Qed.

(** *** Where the flag is looked at, and what is returned there *)

Abbreviation begun := (started cancelDuring).
Abbreviation prepared :=
  (prepare cancelDuring greedySearchSequences generateModeSequences).
Abbreviation singleOf := (singleBest Lab rgbToLab deltaE).
Abbreviation resultsOf :=
  (outcomes Lab rgbToLab deltaE applyHslAdjustment applyLevelsAdjustment
     numberToString random).
Abbreviation stateAfter :=
  (handled Lab rgbToLab deltaE applyHslAdjustment applyLevelsAdjustment
     numberToString random cancelDuring).
Abbreviation turnsFrom :=
  (runTurns Lab rgbToLab deltaE applyHslAdjustment applyLevelsAdjustment
     numberToString random cancelDuring).

Lemma singlePhase_clear (this : MultiStep.Instance) (validPairs : list Pair)
    (modes : list BlendMode) (best : option string * option Q) :
  MultiStep.cancelled this = false ->
  singlePhase this validPairs modes best
  = inr (fold_left
           (fun best mode =>
              match Optimizer.optimizeBlend Lab rgbToLab deltaE mode validPairs with
              | Some res =>
                  if Levels.improves (Optimizer.or_avgError res) (snd best)
                  then (Some (name mode), Some (Optimizer.or_avgError res))
                  else best
              | None => best
              end)
           modes best).
Proof.
  intros Hclear. revert best.
  induction modes as [| mode modes IH]; intros best; [reflexivity |].
  cbn [MultiStep.singlePhase fold_left]. rewrite Hclear. apply IH.
Qed.

Lemma hostTurn_best (ev : MultiStep.HostEvent) (r : MultiStep.Run) :
  MultiStep.bestResult (MultiStep.this (hostTurn ev r))
  = MultiStep.bestResult (MultiStep.this r).
Proof.
  unfold MultiStep.hostTurn. cbn [MultiStep.this].
  destruct (cancelDuring _); reflexivity.
Qed.

Lemma report_best (options : MultiStep.SearchOptions)
    (ev : MultiStep.HostEvent) (r : MultiStep.Run) :
  MultiStep.bestResult (MultiStep.this (report options ev r))
  = MultiStep.bestResult (MultiStep.this r).
Proof.
  unfold MultiStep.report.
  destruct (MultiStep.onProgress options); [apply hostTurn_best | reflexivity].
Qed.

Lemma started_best (options : MultiStep.SearchOptions) (r0 : MultiStep.Run) :
  MultiStep.bestResult (MultiStep.this (begun options r0))
  = MultiStep.existingBest options.
Proof. unfold started. rewrite report_best. reflexivity. Qed.

(** The check at the head of the single-mode loop. *)
Lemma optimize_first_check (pairs : list Pair) (numSteps : nat)
    (options : MultiStep.SearchOptions) (r0 : MultiStep.Run) :
  validPairsOf pairs <> [] ->
  MultiStep.cancelled (MultiStep.this (begun options r0)) = true ->
  optimize pairs numSteps options r0
  = (Normal (MultiStep.RetBest (MultiStep.existingBest options)),
     begun options r0).
Proof.
  intros Hvalid Hset. unfold MultiStep.optimize.
  destruct (validPairsOf pairs) as [| pair validPairs]; [congruence |].
  fold (begun options r0). unfold blendModes.
  rewrite singlePhase_cancelled by exact Hset.
  rewrite started_best. reflexivity.
Qed.

(** Past that check, the run is phases 1 and 2 followed by the candidate
    loop. *)
Lemma optimize_phases (pairs : list Pair) (numSteps : nat)
    (options : MultiStep.SearchOptions) (r0 : MultiStep.Run) :
  validPairsOf pairs <> [] ->
  MultiStep.cancelled (MultiStep.this (begun options r0)) = false ->
  match prepared pairs numSteps options (begun options r0) with
  | None => fst (optimize pairs numSteps options r0) = Throw
  | Some prep =>
      optimize pairs numSteps options r0
      = let '(ret, r) :=
          optimizingPhase options (validPairsOf pairs)
            (minOpacityOf options) (maxOpacityOf options)
            (numRestartsBaseOf options) (basinHopsCountOf options)
            (fst (singleOf (validPairsOf pairs)))
            (snd (singleOf (validPairsOf pairs)))
            (allCandidates prep) 0 (length (allCandidates prep))
            (atLoop prep) in
        (Normal ret, r)
  end.
Proof.
  intros Hvalid Hclear. unfold MultiStep.optimize, prepare, singleBest.
  destruct (validPairsOf pairs) as [| pair validPairs] eqn:Epairs;
    [congruence |].
  fold (begun options r0).
  rewrite (singlePhase_clear _ _ _ _ Hclear).
  match goal with
  | |- context [fold_left ?f blendModes (None, None)] =>
      destruct (fold_left f blendModes (None, None)) as [bestMode bestError]
  end.
  cbn [fst snd].
  fold (minOpacityOf options). fold (maxOpacityOf options).
  destruct (greedySearchSequences _ _ _ _ _ _ _ _) as [[greedyCandidates |] d];
    [| reflexivity].
  destruct (generateModeSequences _ _ _ _ _) as [enumerated d'].
  cbn [allCandidates atLoop].
  reflexivity.
Qed.

(** Phases 1 and 2 leave the stored best result as it was. *)
Lemma prepare_best (pairs : list Pair) (numSteps : nat)
    (options : MultiStep.SearchOptions) (r1 : MultiStep.Run) (prep : Prepared) :
  prepared pairs numSteps options r1 = Some prep ->
  MultiStep.bestResult (MultiStep.this (atLoop prep))
  = MultiStep.bestResult (MultiStep.this r1).
Proof.
  unfold prepare.
  destruct (greedySearchSequences _ _ _ _ _ _ _ _) as [[greedyCandidates |] d];
    [| discriminate].
  destruct (generateModeSequences _ _ _ _ _) as [enumerated d'].
  intros H. injection H as <-. cbn [atLoop]. unfold MultiStep.sleep.
  rewrite hostTurn_best. cbn [MultiStep.withDrawn MultiStep.this].
  rewrite report_best, hostTurn_best. cbn [MultiStep.withDrawn MultiStep.this].
  rewrite report_best, hostTurn_best. reflexivity.
Qed.

(** The candidate loop returns at the first check that finds the flag
    set. *)
Lemma optimizingPhase_first_flag (options : MultiStep.SearchOptions)
    (validPairs : list Pair) (minOp maxOp : Q) (nrb bhc : nat)
    (bestMode : option string) (bestError : option Q) (total : nat)
    (processed : list MultiStep.Candidate) (next : MultiStep.Candidate)
    (rest : list MultiStep.Candidate) (evaluated : nat) (r : MultiStep.Run) :
  (forall k, (k < length processed)%nat ->
     MultiStep.cancelled
       (MultiStep.this
          (turnsFrom options validPairs minOp maxOp nrb bhc bestMode bestError
             total (take k processed) evaluated r)) = false) ->
  MultiStep.cancelled
    (MultiStep.this
       (turnsFrom options validPairs minOp maxOp nrb bhc bestMode bestError
          total processed evaluated r)) = true ->
  optimizingPhase options validPairs minOp maxOp nrb bhc bestMode bestError
    (processed ++ next :: rest) evaluated total r
  = (MultiStep.RetBest
       (MultiStep.bestResult
          (MultiStep.this
             (turnsFrom options validPairs minOp maxOp nrb bhc bestMode
                bestError total processed evaluated r))),
     turnsFrom options validPairs minOp maxOp nrb bhc bestMode bestError
       total processed evaluated r).
Proof.
  revert evaluated r.
  induction processed as [| c processed IH]; intros evaluated r Hclear Hset.
  - cbn [app runTurns] in *. cbn [MultiStep.optimizingPhase].
    rewrite Hset. reflexivity.
  - pose proof (Hclear 0%nat ltac:(simpl; lia)) as Hr. cbn [take runTurns] in Hr.
    cbn [app MultiStep.optimizingPhase runTurns]. rewrite Hr.
    apply IH.
    + intros k Hk. apply (Hclear (S k)). simpl. lia.
    + exact Hset.
Qed.

(** With the flag clear at every check, the loop handles every candidate
    and the run returns the list of top solutions. *)
Lemma optimizingPhase_no_flag (options : MultiStep.SearchOptions)
    (validPairs : list Pair) (minOp maxOp : Q) (nrb bhc : nat)
    (bestMode : option string) (bestError : option Q) (total : nat)
    (candidates : list MultiStep.Candidate) (evaluated : nat)
    (r : MultiStep.Run) :
  (forall k, (k < length candidates)%nat ->
     MultiStep.cancelled
       (MultiStep.this
          (turnsFrom options validPairs minOp maxOp nrb bhc bestMode bestError
             total (take k candidates) evaluated r)) = false) ->
  let final :=
    report options (MultiStep.Progress MultiStep.done None None None)
      (turnsFrom options validPairs minOp maxOp nrb bhc bestMode bestError
         total candidates evaluated r) in
  optimizingPhase options validPairs minOp maxOp nrb bhc bestMode bestError
    candidates evaluated total r
  = (MultiStep.RetTop (MultiStep.topSolutions (MultiStep.this final)), final).
Proof.
  revert evaluated r.
  induction candidates as [| c candidates IH]; intros evaluated r Hclear final.
  - reflexivity.
  - pose proof (Hclear 0%nat ltac:(simpl; lia)) as Hr. cbn [take runTurns] in Hr.
    subst final. cbn [MultiStep.optimizingPhase runTurns]. rewrite Hr.
    apply IH. intros k Hk. apply (Hclear (S k)). simpl. lia.
Qed.

(** What handling one candidate does to the stored best result and to the
    position in the stream of random draws. *)
Lemma candidateTurn_best (options : MultiStep.SearchOptions)
    (validPairs : list Pair) (minOp maxOp : Q) (nrb bhc : nat)
    (bestMode : option string) (bestError : option Q)
    (candidate : MultiStep.Candidate) (evaluated total : nat)
    (r : MultiStep.Run) :
  let run :=
    MultiStep.jointOptimizeModeSequenceEnhanced Lab rgbToLab deltaE
      applyHslAdjustment applyLevelsAdjustment numberToString random
      validPairs (MultiStep.cand_modeSequence candidate)
      (MultiStep.cand_initialBlends candidate)
      (match MultiStep.cand_initialBlends candidate with
       | Some _ => nrb
       | None => (nrb + 2)%nat
       end)
      bhc minOp maxOp (MultiStep.drawn r) in
  let r' :=
    candidateTurn options validPairs minOp maxOp nrb bhc bestMode bestError
      candidate evaluated total r in
  MultiStep.drawn r' = snd run
  /\ MultiStep.bestResult (MultiStep.this r')
     = match fst run with
       | Normal (Some res) =>
           match MultiStep.bestResult (MultiStep.this r) with
           | None => Some (MultiStep.metaOf res bestMode bestError)
           | Some b =>
               if ltb (MultiStep.metaAvgError
                         (MultiStep.metaOf res bestMode bestError))
                      (MultiStep.metaAvgError b)
               then Some (MultiStep.metaOf res bestMode bestError)
               else Some b
           end
       | _ => MultiStep.bestResult (MultiStep.this r)
       end.
Proof.
  intros run r'. subst run r'.
  unfold MultiStep.candidateTurn, MultiStep.evaluateCandidate, MultiStep.sleep,
    MultiStep.report.
  assert (Hhost : forall ev x,
            MultiStep.drawn (hostTurn ev x) = MultiStep.drawn x
            /\ MultiStep.bestResult (MultiStep.this (hostTurn ev x))
               = MultiStep.bestResult (MultiStep.this x)).
  { intros ev x. split; [reflexivity | apply hostTurn_best]. }
  set (r1 := if MultiStep.onProgress options then hostTurn _ r else r).
  assert (H1 : MultiStep.drawn r1 = MultiStep.drawn r
               /\ MultiStep.bestResult (MultiStep.this r1)
                  = MultiStep.bestResult (MultiStep.this r)).
  { subst r1. destruct (MultiStep.onProgress options); [apply Hhost |].
    split; reflexivity. }
  destruct H1 as [Hd Hb]. rewrite Hd.
  destruct (MultiStep.jointOptimizeModeSequenceEnhanced _ _ _ _ _ _ _ _ _ _
              _ _ _ _ _) as [outcome d].
  cbn [fst snd].
  assert (Hfinal : forall x : MultiStep.Run,
            MultiStep.drawn
              (if Nat.eqb (evaluated mod 3) 0
               then hostTurn MultiStep.Sleep x else x)
            = MultiStep.drawn x
            /\ MultiStep.bestResult
                 (MultiStep.this
                    (if Nat.eqb (evaluated mod 3) 0
                     then hostTurn MultiStep.Sleep x else x))
               = MultiStep.bestResult (MultiStep.this x)).
  { intros x. destruct (Nat.eqb _ 0); [apply Hhost | split; reflexivity]. }
  destruct outcome as [[res |] |];
    match goal with
    | |- context [if Nat.eqb _ 0 then hostTurn _ ?x else ?x] =>
        destruct (Hfinal x) as [-> ->]
    end.
  - destruct (MultiStep.onBestFound options).
    + match goal with
      | |- context [hostTurn ?ev ?x] => destruct (Hhost ev x) as [-> ->]
      end.
      cbn [MultiStep.withThis MultiStep.withDrawn MultiStep.drawn
           MultiStep.this MultiStep.bestResult].
      rewrite Hb. split; reflexivity.
    + cbn [MultiStep.withThis MultiStep.withDrawn MultiStep.drawn
           MultiStep.this MultiStep.bestResult].
      rewrite Hb. split; reflexivity.
  - cbn [MultiStep.withDrawn MultiStep.drawn MultiStep.this]. rewrite Hb.
    split; reflexivity.
  - cbn [MultiStep.withDrawn MultiStep.drawn MultiStep.this]. rewrite Hb.
    split; reflexivity.
Qed.

Lemma bestAmong_initial (existing : option MultiStep.MetaResult) :
  bestAmong (option_list existing) existing.
Proof.
  destruct existing as [m |]; [| reflexivity].
  split; [left; reflexivity |]. repeat constructor. apply Qle_refl.
Qed.

Lemma bestAmong_next (found : list MultiStep.MetaResult)
    (best : option MultiStep.MetaResult) (new : MultiStep.MetaResult) :
  bestAmong found best ->
  bestAmong (found ++ [new])
    match best with
    | None => Some new
    | Some b =>
        if ltb (MultiStep.metaAvgError new) (MultiStep.metaAvgError b)
        then Some new else Some b
    end.
Proof.
  destruct best as [b |]; cbn [bestAmong].
  - intros [Hin Hmin].
    destruct (ltb _ _) eqn:E; cbn [bestAmong].
    + apply ltb_lt in E. split; [apply in_or_app; right; left; reflexivity |].
      apply Forall_app. split; [| repeat constructor; apply Qle_refl].
      eapply Forall_impl; [exact Hmin |]. intros x Hx. simpl in Hx. lra.
    + apply ltb_ge in E. split; [apply in_or_app; left; exact Hin |].
      apply Forall_app. split; [exact Hmin |]. repeat constructor. exact E.
  - intros ->. split; [left; reflexivity |]. repeat constructor. apply Qle_refl.
Qed.

(** The stored best result is the best among what it was and what the
    candidates handled since have given. *)
Lemma handled_best (pairs : list Pair) (options : MultiStep.SearchOptions)
    (total : nat) (processed : list MultiStep.Candidate) (evaluated : nat)
    (r : MultiStep.Run) (found : list MultiStep.MetaResult) :
  bestAmong found (MultiStep.bestResult (MultiStep.this r)) ->
  bestAmong
    (found ++ resultsOf (validPairsOf pairs) options processed (MultiStep.drawn r))
    (MultiStep.bestResult
       (MultiStep.this
          (turnsFrom options (validPairsOf pairs)
             (minOpacityOf options) (maxOpacityOf options)
             (numRestartsBaseOf options) (basinHopsCountOf options)
             (fst (singleOf (validPairsOf pairs)))
             (snd (singleOf (validPairsOf pairs)))
             total processed evaluated r))).
Proof.
  revert evaluated r found.
  induction processed as [| c processed IH]; intros evaluated r found Hbest.
  - cbn [outcomes runTurns]. rewrite app_nil_r. exact Hbest.
  - cbn [outcomes runTurns].
    destruct (candidateTurn_best options (validPairsOf pairs)
                (minOpacityOf options) (maxOpacityOf options)
                (numRestartsBaseOf options) (basinHopsCountOf options)
                (fst (singleOf (validPairsOf pairs)))
                (snd (singleOf (validPairsOf pairs)))
                c (S evaluated) total r) as [Hd Hb].
    destruct (MultiStep.jointOptimizeModeSequenceEnhanced _ _ _ _ _ _ _ _ _ _
                _ _ _ _ _) as [outcome d].
    cbn [fst snd] in Hd, Hb.
    destruct outcome as [[res |] |].
    + rewrite (app_assoc found [_] _ : found ++ _ :: _ = (found ++ [_]) ++ _).
      rewrite <- Hd. apply IH. rewrite Hb. apply bestAmong_next. exact Hbest.
    + rewrite <- Hd. apply IH. rewrite Hb. exact Hbest.
    + rewrite <- Hd. apply IH. rewrite Hb. exact Hbest.
Qed.


End AsyncSearch.

(** *** Concrete runs *)

Lemma no_complete_pair_gives_null_witness :
  Optimizer.optimizeBlend unit (fun _ _ _ => tt) (fun _ _ => 0)
    multiplyMode [whiteOnly] = None
  /\ HslTool.optimizeHsl unit (fun _ _ _ => tt) (fun _ _ => 0)
       (fun rgb _ _ _ => rgb) [whiteOnly] = Normal None
  /\ Levels.optimizeLevels unit (fun _ _ _ => tt) (fun _ _ => 0)
       (fun rgb _ => rgb) [whiteOnly] = Normal None
  /\ fst (MultiStep.optimize unit (fun _ _ _ => tt) (fun _ _ => 0)
            (fun rgb _ _ _ => rgb) (fun rgb _ => rgb) (fun _ => EmptyString)
            (fun _ => 0) (fun _ => false)
            (fun _ _ _ _ _ _ _ d => (Normal [], d)) (fun _ _ _ _ d => ([], d))
            [whiteOnly] 2 quietOptions freshRun)
     = Normal MultiStep.RetNull.
Proof.
  apply (no_complete_pair_gives_null unit (fun _ _ _ => tt) (fun _ _ => 0)
           (fun rgb _ _ _ => rgb) (fun rgb _ => rgb) (fun _ => EmptyString)
           (fun _ => 0) (fun _ => false)
           (fun _ _ _ _ _ _ _ d => (Normal [], d)) (fun _ _ _ _ d => ([], d))
           multiplyMode [whiteOnly] 2%nat quietOptions freshRun).
  repeat constructor.
Defined.


(** What that run returns: the result of the first candidate. *)
Example cancelled_run_returns_first_result :
  exists m,
    fst (MultiStep.optimize unit (fun _ _ _ => tt) (fun _ _ => 5)
           (fun rgb _ _ _ => rgb) (fun rgb _ => rgb) (fun _ => EmptyString)
           (fun _ => 1#2) (cancelAt 6) greedyProposingNothing
           normalThenMultiply [greyToDarkGrey] 1 quietOptions freshRun)
    = Normal (MultiStep.RetBest (Some m))
    /\ MultiStep.modeSequence (MultiStep.result m) = ["Normal"]
    /\ MultiStep.metaAvgError m == 5.
Proof.
  eexists. split; [vm_compute; reflexivity |]. split; reflexivity.
Qed.


(* ================================================================== *)
(** * Further properties                                               *)
(* ================================================================== *)

(** ** Colours in hexadecimal *)

Lemma clamp_id (x lo hi : Q) : lo <= x <= hi -> clamp x lo hi == x.
Proof.
  intros [Hlo Hhi]. unfold clamp.
  rewrite (Q.min_r hi x) by exact Hhi. apply Q.max_r. exact Hlo.
Qed.

Lemma Math_round_integer (x : Q) (z : Z) :
  x == inject_Z z -> Math_round x = inject_Z z.
Proof.
  intros Hx. unfold Math_round. f_equal.
  pose proof (Qfloor_le (x + (1#2))) as Hle.
  pose proof (Qlt_floor (x + (1#2))) as Hlt.
  assert (H1 : inject_Z (Qfloor (x + (1#2))) < inject_Z (z + 1)).
  { rewrite inject_Z_plus. change (inject_Z 1) with 1. lra. }
  assert (H2 : inject_Z z < inject_Z (Qfloor (x + (1#2)) + 1)).
  { rewrite inject_Z_plus in Hlt |- *. change (inject_Z 1) with 1 in *. lra. }
  rewrite <- Zlt_Qlt in H1, H2. lia.
Qed.

Lemma hexByte_hexChar (n : Z) :
  (0 <= n <= 255)%Z ->
  hexByte (hexChar (n / 16)) (hexChar (n mod 16)) = Some n.
Proof.
  intros Hn.
  assert (Hall :
    forallb (fun k =>
               match hexByte (hexChar (Z.of_nat k / 16))
                             (hexChar (Z.of_nat k mod 16)) with
               | Some m => (m =? Z.of_nat k)%Z
               | None => false
               end) (seq 0 256) = true) by (vm_compute; reflexivity).
  rewrite forallb_forall in Hall.
  specialize (Hall (Z.to_nat n)). rewrite Z2Nat.id in Hall by lia.
  destruct (hexByte _ _) as [m |].
  - f_equal. apply Z.eqb_eq. apply Hall. apply in_seq. lia.
  - discriminate Hall. apply in_seq. lia.
Qed.

Lemma rounded_byte (x : Q) :
  (0 <= Qfloor (clamp x 0 255 + (1#2)) <= 255)%Z.
Proof.
  destruct (Math_round_between (clamp x 0 255) 0 255) as [H1 H2].
  - apply clamp_bounds. discriminate.
  - apply clamp_bounds. discriminate.
  - unfold Math_round in H1, H2. rewrite <- Zle_Qle in H1, H2. lia.
Qed.

Lemma hexToRgb_printed (r g b : Q) :
  hexToRgb (Some (rgbToHex r g b))
  = Some [ Math_round (clamp r 0 255);
           Math_round (clamp g 0 255);
           Math_round (clamp b 0 255) ].
Proof.
  unfold rgbToHex, hexPair, Math_round. rewrite !Qfloor_Z.
  cbv beta iota delta [hexToRgb sixDigits String.append].
  rewrite !hexByte_hexChar by apply rounded_byte. reflexivity.
Qed.

Lemma hexDigit_range (c : ascii) (d : Z) :
  hexDigit c = Some d -> (0 <= d <= 15)%Z.
Proof.
  unfold hexDigit.
  repeat match goal with
         | |- context [if ?c then _ else _] => destruct c eqn:?
         end; intros H; try discriminate; injection H as <-; lia.
Qed.

Lemma hexByte_range (hi lo : ascii) (v : Z) :
  hexByte hi lo = Some v -> (0 <= v <= 255)%Z.
Proof.
  unfold hexByte.
  destruct (hexDigit hi) as [h |] eqn:Eh; [| discriminate].
  destruct (hexDigit lo) as [l |] eqn:El; [| discriminate].
  apply hexDigit_range in Eh, El. intros H. injection H as <-. lia.
Qed.

Lemma sixDigits_bytes (s : string) (rgb : list Q) :
  sixDigits s = Some rgb ->
  exists r g b, rgb = [r; g; b] /\ isByte r /\ isByte g /\ isByte b.
Proof.
  unfold sixDigits.
  destruct s as [| r1 [| r2 [| g1 [| g2 [| b1 [| b2 [|]]]]]]]; try discriminate.
  destruct (hexByte r1 r2) as [r |] eqn:Er; [| discriminate].
  destruct (hexByte g1 g2) as [g |] eqn:Eg; [| discriminate].
  destruct (hexByte b1 b2) as [b |] eqn:Eb; [| discriminate].
  apply hexByte_range in Er, Eg, Eb. intros H. injection H as <-.
  exists (inject_Z r), (inject_Z g), (inject_Z b).
  split; [reflexivity |]. repeat split; eexists; (split; [| reflexivity]); lia.
Qed.

Lemma hexToRgb_bytes (hex : option string) (rgb : list Q) :
  hexToRgb hex = Some rgb ->
  exists r g b, rgb = [r; g; b] /\ isByte r /\ isByte g /\ isByte b.
Proof.
  unfold hexToRgb. destruct hex as [s |]; [| discriminate].
  destruct s as [| c rest]; [discriminate |].
  destruct (Ascii.eqb c "#") eqn:E.
  - apply Ascii.eqb_eq in E. subst c. apply sixDigits_bytes.
  - intros H. apply (sixDigits_bytes (String c rest)).
    rewrite <- H. destruct c as [[] [] [] [] [] [] [] []]; try reflexivity.
    discriminate E.
Qed.

Lemma Math_round_byte (x : Q) : isByte x -> Math_round (clamp x 0 255) = x.
Proof.
  intros (n & Hn & ->). apply Math_round_integer. apply clamp_id.
  change 0 with (inject_Z 0). change 255 with (inject_Z 255).
  rewrite <- !Zle_Qle. lia.
Qed.

(** X1.  [hexToRgb] reads back what [rgbToHex] prints, which is the three
    channels clamped to [0, 255] and rounded; and a colour that parses is
    a triplet of integers between 0 and 255 that [rgbToHex] prints as a
    string parsing to the same triplet. *)
Theorem hex_round_trip :
  (forall r g b : Q,
      hexToRgb (Some (rgbToHex r g b))
      = Some [ Math_round (clamp r 0 255);
               Math_round (clamp g 0 255);
               Math_round (clamp b 0 255) ])
  /\ (forall (hex : option string) (rgb : list Q),
        hexToRgb hex = Some rgb ->
        Forall isByte rgb
        /\ length rgb = 3%nat
        /\ hexToRgb (Some (spread rgbToHex rgb)) = Some rgb).
Proof.
  split; [exact hexToRgb_printed |].
  intros hex rgb H.
  destruct (hexToRgb_bytes hex rgb H) as (r & g & b & -> & Hr & Hg & Hb).
  split; [repeat constructor; assumption |]. split; [reflexivity |].
  unfold spread, nthQ. cbn [nth]. rewrite hexToRgb_printed.
  rewrite !Math_round_byte by assumption. reflexivity.
Qed.

(** ** Blend modes that mirror each other *)

(** X2.  Overlay is Hard Light with source and blend exchanged, and Screen
    is Multiply on the complements, complemented. *)
Theorem swapped_and_inverted_modes (s b : Q) :
  applyBlendChannel "Overlay" s b == applyBlendChannel "Hard Light" b s
  /\ applyBlendChannel "Screen" s b
     == 1 - applyBlendChannel "Multiply" (1 - s) (1 - b).
Proof.
  unfold_mode. split.
  - destruct (Qlt_le_dec s (1#2)); ring.
  - ring.
Qed.

(** ** The result of the single-blend optimiser *)

Lemma weighted_sum_bounds {A} (x w : A -> Q) (l : list A) :
  Forall (fun e => 0 <= x e <= 1 /\ 0 <= w e) l ->
  0 <= Qsum (map (fun e => x e * w e) l) <= Qsum (map w l).
Proof.
  induction 1 as [| e l [[Hx0 Hx1] Hw] _ IH]; simpl; [lra |].
  assert (0 <= x e * w e) by (apply Qmult_le_0_compat; assumption).
  assert (0 <= (1 - x e) * w e) by (apply Qmult_le_0_compat; lra).
  lra.
Qed.

Lemma plain_sum_bounds {A} (x : A -> Q) (l : list A) :
  Forall (fun e => 0 <= x e <= 1) l ->
  0 <= Qsum (map x l) <= inject_Z (Z.of_nat (length l)).
Proof.
  induction 1 as [| e l [Hx0 Hx1] _ IH]; [split; discriminate |].
  cbn [map Qsum fold_right length]. rewrite Nat2Z.inj_succ, <- Z.add_1_r.
  rewrite inject_Z_plus. change (inject_Z 1) with 1.
  unfold Qsum in IH. lra.
Qed.

Lemma unit_quotient (a b : Q) : 0 < b -> 0 <= a <= b -> 0 <= a / b <= 1.
Proof.
  intros Hb [Ha0 Ha1]. split.
  - apply Qle_shift_div_l; [exact Hb | lra].
  - apply Qle_shift_div_r; [exact Hb | lra].
Qed.

Lemma describedInverse_clamped (mode : BlendMode) (p : Pair) (e : list Q * Q) :
  describedInverse (fun b => clamp b 0 1) mode p = Some e ->
  (forall k, (k < 3)%nat -> 0 <= nthQ k (fst e) <= 1) /\ snd e = weightOf p.
Proof.
  unfold describedInverse.
  destruct (hexToRgb (source p)); [| discriminate].
  destruct (hexToRgb (target p)); [| discriminate].
  destruct (forallb _ _); [| discriminate].
  intros H. injection H as <-. split; [| reflexivity].
  intros k Hk. cbn [fst map].
  destruct k as [| [| [| k]]]; try lia; unfold nthQ; cbn [nth];
    apply clamp_bounds; discriminate.
Qed.

Lemma described_valid (mode : BlendMode) (pairs : list Pair) (k : nat) :
  (k < 3)%nat ->
  Forall (fun p => 0 <= weightOf p) pairs ->
  Forall (fun e => 0 <= nthQ k (fst e) <= 1 /\ 0 <= snd e)
    (omap (describedInverse (fun b => clamp b 0 1) mode) pairs).
Proof.
  intros Hk. induction 1 as [| p pairs Hp _ IH]; simpl; [constructor |].
  destruct (describedInverse _ mode p) as [e |] eqn:E; [| exact IH].
  constructor; [| exact IH].
  apply describedInverse_clamped in E. destruct E as [Hx Hw].
  split; [apply Hx; exact Hk | rewrite Hw; exact Hp].
Qed.

Lemma unit_quotient_eq (a a' b b' : Q) :
  a == a' -> b == b' -> 0 < b -> 0 <= a' <= b' -> 0 <= a / b <= 1.
Proof.
  intros Ea Eb Hb Ha. apply unit_quotient; [exact Hb |].
  rewrite Ea, Eb. exact Ha.
Qed.

Lemma computeInitialGuess_in_unit_cube (mode : BlendMode) (pairs : list Pair) :
  Forall (fun p => 0 <= weightOf p) pairs ->
  length (Optimizer.computeInitialGuess mode pairs) = 3%nat
  /\ inUnitCube (Optimizer.computeInitialGuess mode pairs).
Proof.
  intros Hw.
  pose proof (fun k Hk => described_valid mode pairs k Hk Hw) as Hvalid.
  unfold Optimizer.computeInitialGuess. rewrite guess_fold. simpl app.
  generalize dependent (omap (describedInverse (fun b => clamp b 0 1) mode) pairs).
  intros valid Hvalid.
  assert (Etotal : fold_left (fun a e => a + snd e) valid 0
                   == Qsum (map snd valid))
    by (rewrite fold_left_Qsum; ring).
  destruct (decide (valid = [])) as [-> | Hne].
  { split; [reflexivity |]. repeat constructor; discriminate. }
  assert (Hne' : map toValid valid <> []) by (destruct valid; [congruence | discriminate]).
  rewrite !match_nonempty by exact Hne'.
  rewrite !triple_fold.
  destruct (Qlt_le_dec 0 _) as [Hpos | Hnonpos].
  - split; [reflexivity |].
    repeat (apply Forall_cons; split); [| | | apply Forall_nil_2].
    + apply (unit_quotient_eq _ _ _ _ (weighted_fold valid 0) Etotal Hpos).
      apply (weighted_sum_bounds (fun e => nthQ 0 (fst e)) snd), Hvalid. lia.
    + apply (unit_quotient_eq _ _ _ _ (weighted_fold valid 1) Etotal Hpos).
      apply (weighted_sum_bounds (fun e => nthQ 1 (fst e)) snd), Hvalid. lia.
    + apply (unit_quotient_eq _ _ _ _ (weighted_fold valid 2) Etotal Hpos).
      apply (weighted_sum_bounds (fun e => nthQ 2 (fst e)) snd), Hvalid. lia.
  - split; [reflexivity |]. rewrite length_map.
    assert (Hlen : 0 < inject_Z (Z.of_nat (length valid))).
    { destruct valid; [congruence |]. cbn [length]. change 0 with (inject_Z 0).
      rewrite <- Zlt_Qlt. lia. }
    repeat (apply Forall_cons; split); [| | | apply Forall_nil_2].
    + apply (unit_quotient_eq _ _ _ _ (plain_fold valid 0) (Qeq_refl _) Hlen).
      apply (plain_sum_bounds (fun e => nthQ 0 (fst e))).
      eapply Forall_impl; [apply (Hvalid 0%nat); lia |]. intros e He. apply He.
    + apply (unit_quotient_eq _ _ _ _ (plain_fold valid 1) (Qeq_refl _) Hlen).
      apply (plain_sum_bounds (fun e => nthQ 1 (fst e))).
      eapply Forall_impl; [apply (Hvalid 1%nat); lia |]. intros e He. apply He.
    + apply (unit_quotient_eq _ _ _ _ (plain_fold valid 2) (Qeq_refl _) Hlen).
      apply (plain_sum_bounds (fun e => nthQ 2 (fst e))).
      eapply Forall_impl; [apply (Hvalid 2%nat); lia |]. intros e He. apply He.
Qed.

Lemma clamped_unitTriple (f : nat -> Q -> Q) (v : point) :
  length v = 3%nat -> unitTriple (imap (fun j c => clamp (f j c) 0 1) v).
Proof.
  intros Hlen. split; [by rewrite length_imap | apply clamped_inUnitCube].
Qed.

Lemma centroidOf_length (n : nat) (simplex : list point) :
  length (centroidOf n simplex) = n.
Proof. unfold centroidOf. by rewrite length_map, length_seq. Qed.

Lemma wellFormed_nthV (n : nat) (P : point -> Prop) (st : simplexState) (i : nat) :
  wellFormed n P st -> (i <= n)%nat -> P (nthV i (fst st)).
Proof.
  intros (Hs & _ & HP) Hi. rewrite Forall_forall in HP. apply HP.
  apply list_elem_of_In, nthV_In. lia.
Qed.

Lemma wellFormed_sortSimplex (P : point -> Prop) (st : list point * list Q) :
  wellFormed 3 P st -> wellFormed 3 P (Optimizer.sortSimplex st).
Proof.
  destruct st as [simplex values]. intros (Hs & Hv & HP).
  unfold Optimizer.sortSimplex, wellFormed. cbn [fst snd] in *.
  rewrite !length_map, sortedIndices_length.
  split; [exact Hv |]. split; [exact Hv |].
  apply Forall_forall. intros v Hin.
  apply list_elem_of_In, in_map_iff in Hin. destruct Hin as (i & <- & Hi).
  apply sortedIndices_lt in Hi.
  assert (HP' : Forall P (Optimizer.resort (sortedIndices values) values simplex))
    by (rewrite resort_perm; exact HP).
  rewrite Forall_forall in HP'. apply HP'. apply list_elem_of_In, nthV_In.
  rewrite (Permutation_length (resort_perm _ _ _)). lia.
Qed.

Lemma ensures_shrinkFrom_triple (objective : point -> Q) (count i : nat)
    (st : list point * list Q) :
  (i + count <= 4)%nat ->
  wellFormed 3 unitTriple st ->
  ensures unitTriple (wellFormed 3 unitTriple)
    (Optimizer.shrinkFrom objective i count st).
Proof.
  revert i st. induction count as [| count IH]; intros i [simplex values] Hi Hwf.
  - apply ensures_ret. exact Hwf.
  - cbn [Optimizer.shrinkFrom].
    assert (Hv : unitTriple
                   (imap (fun j x =>
                            if (j <? Optimizer.n3)%nat
                            then clamp (nthQ j (nthV 0 simplex)
                                        + sigma * (x - nthQ j (nthV 0 simplex))) 0 1
                            else x)
                         (nthV i simplex))).
    { destruct (wellFormed_nthV 3 unitTriple (simplex, values) i Hwf ltac:(lia))
        as [Hlen Hcube].
      cbn [fst] in Hlen, Hcube. split; [by rewrite length_imap |].
      apply imap_inUnitCube. intros j x Hx.
      destruct (j <? Optimizer.n3)%nat; [apply clamp_bounds; discriminate |].
      unfold inUnitCube in Hcube. rewrite Forall_lookup in Hcube.
      exact (Hcube j x Hx). }
    eapply ensures_bind; [apply ensures_call; exact Hv |].
    intros y _. apply IH; [lia |].
    apply (wellFormed_insert 3 unitTriple (simplex, values)); assumption.
Qed.

Lemma ensures_iteration_triple (objective : point -> Q) (tol : Q)
    (st : list point * list Q) :
  wellFormed 3 unitTriple st ->
  ensures unitTriple (fun t => wellFormed 3 unitTriple (stateOf t))
    (Optimizer.iteration objective tol st).
Proof.
  intros Hwf. apply wellFormed_sortSimplex in Hwf. unfold Optimizer.iteration.
  destruct (Optimizer.sortSimplex st) as [simplex values].
  pose proof (centroidOf_length Optimizer.n3 simplex) as Hc.
  destruct (Qlt_le_dec _ tol); [apply ensures_ret; exact Hwf |].
  eapply ensures_bind; [apply ensures_call; apply clamped_unitTriple, Hc |].
  intros reflectedValue _.
  destruct (geb _ _ && ltb _ _).
  { apply ensures_ret. cbn [stateOf].
    apply (wellFormed_insert 3 unitTriple (simplex, values));
      [exact Hwf | apply clamped_unitTriple, Hc]. }
  destruct (ltb reflectedValue _).
  { eapply ensures_bind; [apply ensures_call; apply clamped_unitTriple, Hc |].
    intros expandedValue _.
    destruct (ltb expandedValue reflectedValue); apply ensures_ret;
      cbn [stateOf];
      apply (wellFormed_insert 3 unitTriple (simplex, values));
      solve [exact Hwf | apply clamped_unitTriple, Hc]. }
  eapply ensures_bind; [apply ensures_call; apply clamped_unitTriple, Hc |].
  intros contractedValue _.
  destruct (ltb contractedValue _).
  { apply ensures_ret. cbn [stateOf].
    apply (wellFormed_insert 3 unitTriple (simplex, values));
      [exact Hwf | apply clamped_unitTriple, Hc]. }
  eapply ensures_bind;
    [apply ensures_shrinkFrom_triple; [unfold Optimizer.n3; lia | exact Hwf] |].
  intros st' Hst'. apply ensures_ret. exact Hst'.
Qed.

Lemma ensures_iterate_triple (objective : point -> Q) (tol : Q) (iters : nat)
    (st : list point * list Q) :
  wellFormed 3 unitTriple st ->
  ensures unitTriple (wellFormed 3 unitTriple)
    (Optimizer.iterate objective tol iters st).
Proof.
  revert st. induction iters as [| iters IH]; intros st H.
  - apply ensures_ret. exact H.
  - cbn [Optimizer.iterate].
    eapply ensures_bind; [apply ensures_iteration_triple; exact H |].
    intros [st' | st'] Hst'; cbn [stateOf] in Hst'.
    + apply ensures_ret. exact Hst'.
    + apply IH. exact Hst'.
Qed.

Lemma initialSimplex_triple (initial : point) :
  unitTriple initial -> Forall unitTriple (Optimizer.initialSimplex initial).
Proof.
  intros [Hlen Hcube]. unfold Optimizer.initialSimplex.
  constructor; [split; assumption |].
  apply Forall_forall. intros v Hv.
  apply list_elem_of_In, in_map_iff in Hv. destruct Hv as (i & <- & _).
  split; [by rewrite length_insert |].
  apply Forall_insert; [exact Hcube | apply clamp_bounds; discriminate].
Qed.

Lemma ensures_nelderMead_triple (objective : point -> Q) (initial : point)
    (options : Options) :
  unitTriple initial ->
  ensures unitTriple unitTriple (Optimizer.nelderMead objective initial options).
Proof.
  intros H. apply initialSimplex_triple in H. unfold Optimizer.nelderMead.
  eapply ensures_bind; [apply ensures_callAll; exact H |].
  intros values Hvalues.
  eapply ensures_bind.
  - apply ensures_iterate_triple. split; [reflexivity |]. split; [| exact H].
    cbn [snd]. rewrite Hvalues. reflexivity.
  - intros st Hst. apply ensures_ret.
    apply (wellFormed_nthV 3 unitTriple st _ Hst).
    destruct Hst as (_ & Hv & _).
    pose proof (indexOfMin_lt (snd st)) as Hlt.
    destruct (snd st); [discriminate |]. specialize (Hlt ltac:(discriminate)).
    simpl in Hv. simpl length in Hlt. lia.
Qed.

Lemma rounded_channel_byte (c : Q) : 0 <= c <= 1 -> isByte (Math_round (c * 255)).
Proof.
  intros [H0 H1].
  destruct (Math_round_between (c * 255) 0 255) as [Hlo Hhi].
  - change (inject_Z 0) with 0. lra.
  - change (inject_Z 255) with 255. lra.
  - unfold Math_round in *. rewrite <- Zle_Qle in Hlo, Hhi.
    eexists. split; [| reflexivity]. lia.
Qed.

Lemma validPairs_weights (pairs : list Pair) :
  Forall (fun p => 0 <= weightOf p) pairs ->
  Forall (fun p => 0 <= weightOf p) (validPairsOf pairs).
Proof.
  intros H. unfold validPairsOf. rewrite Forall_forall in *.
  intros p Hp. apply list_elem_of_filter in Hp. apply H, Hp.
Qed.

Section BlendResult.

Variable Lab : Type.
Variable rgbToLab : Q -> Q -> Q -> Lab.
Variable deltaE : Lab -> Lab -> Q.


End BlendResult.


(** ** The Hue/Saturation tool keeps its ranges *)

Lemma HslTool_clampParams_box (p : point) : hslBox (HslTool.clampParams p).
Proof.
  unfold hslBox, HslTool.clampParams, nthQ. cbn [nth].
  split; [reflexivity |]. repeat split; apply Qmax_bounds; discriminate.
Qed.

Lemma ensures_nelderMead3D (fn : point -> Q) (initial : point)
    (options : Options) :
  hslBox initial ->
  ensures hslBox (fun found => hslBox (solution found))
    (HslTool.nelderMead3D fn initial options).
Proof.
  intros Hinit. unfold HslTool.nelderMead3D.
  apply ensures_simplexSearch.
  - apply HslTool_clampParams_box.
  - reflexivity.
  - constructor; [exact Hinit |].
    apply Forall_forall. intros v Hv.
    apply list_elem_of_In, in_map_iff in Hv. destruct Hv as (i & <- & _).
    apply HslTool_clampParams_box.
Qed.

(** X4.  Started from three parameters inside their ranges (hue in
    [-180, 180], saturation and lightness in [-100, 100]), [nelderMead3D]
    evaluates its objective at such points only, and returns one as its
    solution. *)
Theorem nelderMead3D_within_ranges (fn : point -> Q) (initial : point)
    (options : Options) :
  hslBox initial ->
  Forall hslBox (evaluated (HslTool.nelderMead3D fn initial options))
  /\ hslBox (solution (value (HslTool.nelderMead3D fn initial options))).
Proof.
  intros Hinit.
  destruct (ensures_nelderMead3D fn initial options Hinit [] ltac:(constructor))
    as [Hvalue Hlog].
  split; assumption.
Qed.

Lemma nelderMead3D_within_ranges_witness :
  Forall hslBox (evaluated (HslTool.nelderMead3D (fun p => nthQ 0 p) [0; -50; 0]
                              noOptions))
  /\ hslBox (solution (value (HslTool.nelderMead3D (fun p => nthQ 0 p)
                                [0; -50; 0] noOptions))).
Proof.
  apply (nelderMead3D_within_ranges (fun p => nthQ 0 p) [0; -50; 0] noOptions).
  unfold hslBox, nthQ. cbn [nth].
  split; [reflexivity |]. repeat split; discriminate.
Defined.

Lemma holds_fold {S : Type} (P : point -> Prop)
    (step : option point * option Q -> S -> option point * option Q)
    (Q0 : S -> Prop) (starts : list S) (best : option point * option Q) :
  (forall best start, Q0 start -> holds P best -> holds P (step best start)) ->
  Forall Q0 starts -> holds P best -> holds P (fold_left step starts best).
Proof.
  intros Hstep Hstarts. revert best.
  induction Hstarts as [| start starts Hs _ IH]; intros best Hbest;
    [exact Hbest |].
  cbn [fold_left]. apply IH. apply Hstep; assumption.
Qed.

Lemma startingPoints_hslBox : Forall hslBox HslTool.startingPoints.
Proof.
  unfold HslTool.startingPoints, hslBox, nthQ.
  repeat constructor; discriminate.
Qed.

Lemma HslTool_restarts_box (objective : point -> Q) :
  holds hslBox (HslTool.restarts objective).
Proof.
  unfold HslTool.restarts.
  pose proof startingPoints_hslBox as Hstarts.
  destruct HslTool.startingPoints as [| start starts] eqn:E; [discriminate |].
  rewrite fold_left_step.
  inversion Hstarts as [| ? ? Hstart Hrest]; subst.
  apply (holds_fold hslBox (HslTool.tryStart objective) hslBox).
  - intros best s Hs Hbest. unfold HslTool.tryStart.
    destruct (Levels.improves _ _); [| exact Hbest].
    eexists _, _. split; [reflexivity |].
    apply (ensures_nelderMead3D objective s _ Hs [] ltac:(constructor)).
  - exact Hrest.
  - unfold HslTool.tryStart. cbn [snd Levels.improves].
    eexists _, _. split; [reflexivity |].
    apply (ensures_nelderMead3D objective _ _ Hstart [] ltac:(constructor)).
Qed.

Lemma Math_round_tenths (x lo hi : Q) (zlo zhi : Z) :
  lo * 10 == inject_Z zlo -> hi * 10 == inject_Z zhi ->
  lo <= x <= hi ->
  lo <= Math_round (x * 10) / 10 <= hi.
Proof.
  intros Elo Ehi [Hlo Hhi].
  destruct (Math_round_between (x * 10) zlo zhi) as [H1 H2]; [lra | lra |].
  split.
  - apply Qle_shift_div_l; [reflexivity | lra].
  - apply Qle_shift_div_r; [reflexivity | lra].
Qed.

Section HslResult.

Variable Lab : Type.
Variable rgbToLab : Q -> Q -> Q -> Lab.
Variable deltaE : Lab -> Lab -> Q.
Variable applyHslAdjustment : list Q -> Q -> Q -> Q -> list Q.


End HslResult.


(** ** The joint optimiser: the shape of its result, and when it raises *)

Section Joint.

Variable Lab : Type.
Variable rgbToLab : Q -> Q -> Q -> Lab.
Variable deltaE : Lab -> Lab -> Q.
Variable applyHslAdjustment : list Q -> Q -> Q -> Q -> list Q.
Variable applyLevelsAdjustment : list Q -> Levels.LevelsParams -> list Q.
Variable numberToString : Q -> string.
Variable random : nat -> Q.

Lemma layout_counts (minOpacity maxOpacity : Q) (modeSequence : list string)
    (acc : list MultiStep.StepConfig * list Bound * nat) :
  map MultiStep.paramCount
    (fst (fst (fold_left
                 (fun '(stepConfigs, paramConfigs, currentIdx) mode =>
                    let count := MultiStep.getModeParamCount mode in
                    (stepConfigs ++ [{| MultiStep.paramCount := count;
                                        MultiStep.startIndex := currentIdx |}],
                     paramConfigs ++ replicate count {| min := 0; max := 1 |}
                                  ++ [{| min := minOpacity; max := maxOpacity |}],
                     (currentIdx + count + 1)%nat))
                 modeSequence acc)))
  = map MultiStep.paramCount (fst (fst acc))
    ++ map MultiStep.getModeParamCount modeSequence.
Proof.
  revert acc. induction modeSequence as [| mode rest IH]; intros [[sc pc] idx].
  - cbn. by rewrite app_nil_r.
  - cbn [fold_left]. rewrite IH. cbn [fst map]. rewrite map_app, <- app_assoc.
    reflexivity.
Qed.

Lemma configAt_count (minOpacity maxOpacity : Q) (modeSequence : list string)
    (i : nat) (mode : string) :
  modeSequence !! i = Some mode ->
  MultiStep.paramCount
    (MultiStep.configAt
       (fst (fst (MultiStep.layout modeSequence minOpacity maxOpacity))) i)
  = MultiStep.getModeParamCount mode.
Proof.
  intros Hi. unfold MultiStep.configAt, MultiStep.layout.
  match goal with
  | |- context [fst (fst ?folded)] => set (configs := fst (fst folded))
  end.
  assert (H : map MultiStep.paramCount configs
              = map MultiStep.getModeParamCount modeSequence)
    by exact (layout_counts minOpacity maxOpacity modeSequence ([], [], O)).
  assert (Hl : map MultiStep.paramCount configs !! i
               = Some (MultiStep.getModeParamCount mode)).
  { rewrite H. change map with (@fmap list _). rewrite list_lookup_fmap, Hi.
    reflexivity. }
  change map with (@fmap list _) in Hl. rewrite list_lookup_fmap in Hl.
  destruct (configs !! i) as [c |]; [| discriminate]. cbn in Hl |- *. congruence.
Qed.

Lemma buildStep_fields (best : point) (minOpacity maxOpacity : Q)
    (mode : string) (config : MultiStep.StepConfig) :
  let s := MultiStep.buildStep best minOpacity maxOpacity mode config in
  MultiStep.modeName s = mode
  /\ MultiStep.step_blend s
     = map (fun j => clamp (nthQ (MultiStep.startIndex config + j) best) 0 1)
           (seq 0 (MultiStep.paramCount config))
  /\ MultiStep.opacity s
     = clamp (nthQ (MultiStep.startIndex config + MultiStep.paramCount config) best)
             minOpacity maxOpacity.
Proof.
  unfold MultiStep.buildStep.
  destruct (String.eqb mode MultiStep.HSL_MODE_NAME);
    [| destruct (String.eqb mode MultiStep.LEVELS_MODE_NAME)];
    repeat split.
Qed.

Lemma buildStep_inRange (best : point) (minOpacity maxOpacity : Q)
    (mode : string) (config : MultiStep.StepConfig) :
  minOpacity <= maxOpacity ->
  MultiStep.paramCount config = MultiStep.getModeParamCount mode ->
  stepInRange minOpacity maxOpacity
    (MultiStep.buildStep best minOpacity maxOpacity mode config).
Proof.
  intros Hop Hcount.
  destruct (buildStep_fields best minOpacity maxOpacity mode config)
    as (Hname & Hblend & Hopacity).
  unfold stepInRange. rewrite Hname, Hblend, Hopacity.
  split; [by rewrite length_map, length_seq |]. split.
  - apply Forall_forall. intros x Hx.
    apply list_elem_of_In, in_map_iff in Hx. destruct Hx as (j & <- & _).
    apply clamp_bounds. discriminate.
  - apply clamp_bounds. exact Hop.
Qed.

Lemma scaled_between (c k lo : Q) (zlo zhi : Z) :
  0 <= c <= 1 -> 0 <= k ->
  inject_Z zlo == lo -> inject_Z zhi == k + lo ->
  inject_Z zlo <= Math_round (c * k + lo) <= inject_Z zhi.
Proof.
  intros [H0 H1] Hk Elo Ehi.
  assert (0 <= c * k) by (apply Qmult_le_0_compat; assumption).
  assert (0 <= (1 - c) * k) by (apply Qmult_le_0_compat; lra).
  apply Math_round_between; lra.
Qed.

Lemma buildStep_display (best : point) (minOpacity maxOpacity : Q)
    (mode : string) (config : MultiStep.StepConfig) :
  displayInRange (MultiStep.buildStep best minOpacity maxOpacity mode config).
Proof.
  unfold MultiStep.buildStep.
  set (blend := map _ (seq 0 (MultiStep.paramCount config))).
  assert (Hunit : forall k, 0 <= nthQ k blend <= 1).
  { intros k. unfold nthQ.
    destruct (nth_in_or_default k blend 0) as [Hin | ->]; [| split; discriminate].
    subst blend. apply in_map_iff in Hin. destruct Hin as (j & <- & _).
    apply clamp_bounds. discriminate. }
  clearbody blend.
  destruct (String.eqb mode MultiStep.HSL_MODE_NAME);
    [| destruct (String.eqb mode MultiStep.LEVELS_MODE_NAME)];
    unfold displayInRange;
    cbn [MultiStep.hslValues MultiStep.levelsValues MultiStep.hv_h MultiStep.hv_s
         MultiStep.hv_l Levels.inputBlack Levels.inputWhite Levels.inputGamma
         Levels.outputBlack Levels.outputWhite];
    try (split; exact I).
  - split; [| exact I].
    split; [| split].
    + apply (scaled_between (nthQ 0 blend) 360 (-180) (-180) 180);
        [apply Hunit | discriminate | reflexivity | reflexivity].
    + apply (scaled_between (nthQ 1 blend) 200 (-100) (-100) 100);
        [apply Hunit | discriminate | reflexivity | reflexivity].
    + apply (scaled_between (nthQ 2 blend) 200 (-100) (-100) 100);
        [apply Hunit | discriminate | reflexivity | reflexivity].
  - split; [exact I |].
    pose proof (Q.le_min_l 253 (Qmax 0 (Math_round (nthQ 0 blend * 255)))) as Hib1.
    assert (Hib0 : 0 <= Qmin 253 (Qmax 0 (Math_round (nthQ 0 blend * 255)))).
    { apply Q.min_glb; [discriminate | apply Q.le_max_l]. }
    set (ib := Qmin 253 _) in *.
    split; [split; assumption |]. split; [| split; [| split]].
    + split; [apply Q.le_max_l |].
      apply Q.max_lub; [lra | apply Q.le_min_l].
    + apply gamma_rounded. apply Qmax_bounds. discriminate.
    + apply (Math_round_between _ 0 255).
      * change (inject_Z 0) with 0. destruct (Hunit 3%nat). nra.
      * change (inject_Z 255) with 255. destruct (Hunit 3%nat). lra.
    + apply (Math_round_between _ 0 255).
      * change (inject_Z 0) with 0. destruct (Hunit 4%nat). nra.
      * change (inject_Z 255) with 255. destruct (Hunit 4%nat). lra.
Qed.

(** The per-step error loop changes [stepError] only. *)
Lemma stepErrors_fields (validPairs : list Pair) (totalWeight : Q)
    (steps0 steps1 : list MultiStep.Step) (currentColors : list (list Q)) :
  MultiStep.stepErrors Lab rgbToLab deltaE applyHslAdjustment
    applyLevelsAdjustment validPairs totalWeight currentColors steps0
  = Some steps1 ->
  Forall2 (fun s0 s1 =>
             MultiStep.modeName s1 = MultiStep.modeName s0
             /\ MultiStep.step_blend s1 = MultiStep.step_blend s0
             /\ MultiStep.opacity s1 = MultiStep.opacity s0
             /\ MultiStep.hslValues s1 = MultiStep.hslValues s0
             /\ MultiStep.levelsValues s1 = MultiStep.levelsValues s0)
          steps0 steps1.
Proof.
  revert steps1 currentColors.
  induction steps0 as [| step steps0 IH]; intros steps1 currentColors H.
  - injection H as <-. constructor.
  - cbn [MultiStep.stepErrors] in H.
    destruct (MultiStep.stepWeightedError _ _ _ _ _) as [weighted |];
      [| discriminate].
    destruct (MultiStep.stepErrors _ _ _ _ _ _ _ _ steps0) as [rest |] eqn:E;
      [| discriminate].
    injection H as <-. constructor; [repeat split | eapply IH; exact E].
Qed.


Lemma restartLoop_keeps (objective : point -> Q)
    (initialBlends : option (list point)) (modeSequence : list string)
    (stepConfigs : list MultiStep.StepConfig) (maxOpacity : Q) (totalDims : nat)
    (paramConfigs : list Bound) (basinHops : nat) (count restart : nat)
    (st : option point * option Q * nat) :
  is_Some (fst (fst st)) ->
  is_Some (fst (fst (MultiStep.restartLoop random objective initialBlends
                       modeSequence stepConfigs maxOpacity totalDims
                       paramConfigs basinHops restart count st))).
Proof.
  revert restart st. induction count as [| count IH]; intros restart st Hst;
    [exact Hst |].
  destruct st as [[globalBest globalBestValue] drawn].
  cbn [MultiStep.restartLoop].
  destruct (MultiStep.initialOf _ _ _ _ _ _ _ _ _) as [initial drawn1].
  destruct (MultiStep.basinHopping _ _ _ _ _ _ _) as [hopped drawn2].
  apply IH. destruct (Levels.improves _ _); [by eexists | exact Hst].
Qed.

Lemma restartLoop_finds (objective : point -> Q)
    (initialBlends : option (list point)) (modeSequence : list string)
    (stepConfigs : list MultiStep.StepConfig) (maxOpacity : Q) (totalDims : nat)
    (paramConfigs : list Bound) (basinHops : nat) (count : nat) (drawn : nat) :
  is_Some (fst (fst (MultiStep.restartLoop random objective initialBlends
                       modeSequence stepConfigs maxOpacity totalDims
                       paramConfigs basinHops 0 count (None, None, drawn))))
  <-> count <> O.
Proof.
  destruct count as [| count].
  - cbn. split; [intros [x Hx]; discriminate | congruence].
  - split; [discriminate | intros _].
    cbn [MultiStep.restartLoop].
    destruct (MultiStep.initialOf _ _ _ _ _ _ _ _ _) as [initial drawn1].
    destruct (MultiStep.basinHopping _ _ _ _ _ _ _) as [hopped drawn2].
    apply restartLoop_keeps. cbn [Levels.improves fst]. by eexists.
Qed.

Lemma Forall_indexed {A} (P : A -> Prop) (l : list A) :
  Forall (fun e : nat * A => P (snd e)) (imap (fun idx p => (idx, p)) l)
  <-> Forall P l.
Proof.
  rewrite !Forall_lookup. split.
  - intros H i x Hi. apply (H i (i, x)).
    rewrite list_lookup_imap, Hi. reflexivity.
  - intros H i [j x] Hi. rewrite list_lookup_imap in Hi.
    destruct (l !! i) as [y |] eqn:E; [| discriminate].
    injection Hi as <- <-. exact (H i y E).
Qed.

Lemma stepWeightedError_result (validPairs : list Pair)
    (currentColors : list (list Q)) :
  is_Some (MultiStep.stepWeightedError Lab rgbToLab deltaE validPairs currentColors)
  <-> targetsParse validPairs.
Proof.
  unfold MultiStep.stepWeightedError, targetsParse.
  rewrite <- (Forall_indexed (fun p => is_Some (hexToRgb (target p)))).
  generalize (imap (fun idx p => (idx, p)) validPairs).
  intros l.
  assert (Hgen : forall acc : option Q,
             is_Some
               (fold_left
                  (fun (acc : option Q) '(idx, p) =>
                     match acc, hexToRgb (target p) with
                     | Some total, Some targetRgb =>
                         Some (total +
                               deltaE (spread rgbToLab targetRgb)
                                 (spread rgbToLab
                                    (map (fun c => Math_round (c * 255))
                                       (default [] (currentColors !! idx))))
                               * weightOf p)
                     | _, _ => None
                     end) l acc)
             <-> is_Some acc
                 /\ Forall (fun e : nat * Pair => is_Some (hexToRgb (target (snd e)))) l).
  { induction l as [| [idx p] l IH]; intros acc.
    - cbn. split; [intros H; split; [exact H | constructor] | intros [H _]; exact H].
    - cbn [fold_left]. rewrite IH, Forall_cons. cbn [snd].
      destruct acc as [total |], (hexToRgb (target p)) as [targetRgb |];
        split; intros H; try (destruct H as [[x Hx] _]; discriminate);
        try (destruct H as [_ [[x Hx] _]]; discriminate);
        try (destruct H as [[x Hx] _]; discriminate).
      + destruct H as [_ H]. split; [by eexists | split; [by eexists | exact H]].
      + destruct H as [_ [_ H]]. split; [by eexists | exact H]. }
  rewrite Hgen. split; [intros [_ H]; exact H | intros H; split; [by eexists | exact H]].
Qed.

Lemma stepErrors_result (validPairs : list Pair) (totalWeight : Q)
    (steps0 : list MultiStep.Step) (currentColors : list (list Q)) :
  is_Some (MultiStep.stepErrors Lab rgbToLab deltaE applyHslAdjustment
             applyLevelsAdjustment validPairs totalWeight currentColors steps0)
  <-> steps0 = [] \/ targetsParse validPairs.
Proof.
  revert currentColors. induction steps0 as [| step steps0 IH]; intros currentColors.
  - cbn. split; [intros _; left; reflexivity | intros _; by eexists].
  - cbn [MultiStep.stepErrors].
    match goal with
    | |- context [MultiStep.stepWeightedError _ _ _ ?vp ?cc] =>
        pose proof (stepWeightedError_result vp cc) as Hw;
        pose proof (IH cc) as Hrest;
        destruct (MultiStep.stepWeightedError Lab rgbToLab deltaE vp cc)
          as [weighted |]
    end.
    + assert (Hparse : targetsParse validPairs) by (apply Hw; by eexists).
      destruct (MultiStep.stepErrors _ _ _ _ _ _ _ _ steps0) as [rest |].
      * split; [intros _; right; exact Hparse | intros _; by eexists].
      * exfalso. assert (H : is_Some (@None (list MultiStep.Step)))
          by (apply Hrest; right; exact Hparse).
        destruct H as [x Hx]. discriminate.
    + split; [intros [x Hx]; discriminate |].
      intros [H | H]; [discriminate |]. apply Hw in H.
      destruct H as [x Hx]. discriminate.
Qed.

Lemma built_in_range (best : point) (minOpacity maxOpacity : Q)
    (modeSequence : list string) :
  minOpacity <= maxOpacity ->
  let steps0 :=
    imap (fun i mode =>
            MultiStep.buildStep best minOpacity maxOpacity mode
              (MultiStep.configAt
                 (fst (fst (MultiStep.layout modeSequence minOpacity maxOpacity)))
                 i))
         modeSequence in
  map MultiStep.modeName steps0 = modeSequence
  /\ Forall (stepInRange minOpacity maxOpacity) steps0
  /\ Forall displayInRange steps0.
Proof.
  intros Hop steps0. split; [| split].
  - subst steps0. apply list_eq. intros i.
    change map with (@fmap list _). rewrite list_lookup_fmap, list_lookup_imap.
    destruct (modeSequence !! i) as [mode |]; [| reflexivity]. cbn.
    f_equal. apply buildStep_fields.
  - apply Forall_lookup. intros i s Hs. subst steps0.
    rewrite list_lookup_imap in Hs.
    destruct (modeSequence !! i) as [mode |] eqn:Hi; [| discriminate].
    injection Hs as <-. apply buildStep_inRange; [exact Hop |].
    apply configAt_count. exact Hi.
  - apply Forall_lookup. intros i s Hs. subst steps0.
    rewrite list_lookup_imap in Hs.
    destruct (modeSequence !! i) as [mode |]; [| discriminate].
    injection Hs as <-. apply buildStep_display.
Qed.

Lemma stepErrors_in_range (minOpacity maxOpacity : Q)
    (steps0 steps1 : list MultiStep.Step) :
  Forall2 (fun s0 s1 =>
             MultiStep.modeName s1 = MultiStep.modeName s0
             /\ MultiStep.step_blend s1 = MultiStep.step_blend s0
             /\ MultiStep.opacity s1 = MultiStep.opacity s0
             /\ MultiStep.hslValues s1 = MultiStep.hslValues s0
             /\ MultiStep.levelsValues s1 = MultiStep.levelsValues s0)
          steps0 steps1 ->
  map MultiStep.modeName steps1 = map MultiStep.modeName steps0
  /\ (Forall (stepInRange minOpacity maxOpacity) steps0 ->
      Forall (stepInRange minOpacity maxOpacity) steps1)
  /\ (Forall displayInRange steps0 -> Forall displayInRange steps1).
Proof.
  induction 1 as [| s0 s1 steps0 steps1 (Hn & Hb & Ho & Hh & Hl) _ (IHn & IHr & IHd)].
  - repeat split; trivial.
  - split; [| split].
    + cbn [map]. by rewrite Hn, IHn.
    + intros Hall. apply Forall_cons in Hall. destruct Hall as [Hs Hall].
      constructor; [| exact (IHr Hall)].
      unfold stepInRange in *. by rewrite Hn, Hb, Ho.
    + intros Hall. apply Forall_cons in Hall. destruct Hall as [Hs Hall].
      constructor; [| exact (IHd Hall)].
      unfold displayInRange in *. by rewrite Hh, Hl.
Qed.

(** X6.  With [minOpacity <= maxOpacity] and initial blends of the shape
    of the sequence, a result of [jointOptimizeModeSequenceEnhanced] has
    one step per mode of the sequence, in order; every step has as many
    parameters as its mode takes, each in [0,1], and an opacity in
    [minOpacity, maxOpacity]; and the display values of a Hue/Saturation or
    Levels step lie in the ranges of the two tools.  (The shape of the
    initial blends keeps every read of a parameter vector inside the
    vector.) *)
Theorem joint_result_in_range (pairs : list Pair) (modeSequence : list string)
    (initialBlends : option (list point)) (numRestarts basinHops : nat)
    (minOpacity maxOpacity : Q) (drawn : nat)
    (res : MultiStep.SequenceResult) (drawn' : nat) :
  minOpacity <= maxOpacity ->
  wellShaped modeSequence initialBlends ->
  MultiStep.jointOptimizeModeSequenceEnhanced Lab rgbToLab deltaE
    applyHslAdjustment applyLevelsAdjustment numberToString random pairs
    modeSequence initialBlends numRestarts basinHops minOpacity maxOpacity
    drawn
  = (Normal (Some res), drawn') ->
  MultiStep.modeSequence res = modeSequence
  /\ map MultiStep.modeName (MultiStep.steps res) = modeSequence
  /\ Forall (stepInRange minOpacity maxOpacity) (MultiStep.steps res)
  /\ Forall displayInRange (MultiStep.steps res).
Proof.
  intros Hop _. unfold MultiStep.jointOptimizeModeSequenceEnhanced.
  destruct (validPairsOf pairs) as [| pair validPairs]; [discriminate |].
  pose proof (fun best => built_in_range best minOpacity maxOpacity modeSequence Hop)
    as Hbuilt.
  destruct (MultiStep.layout modeSequence minOpacity maxOpacity)
    as [[stepConfigs paramConfigs] totalDims].
  cbn [fst] in Hbuilt.
  destruct (MultiStep.restartLoop _ _ _ _ _ _ _ _ _ _ _ _)
    as [[globalBest globalBestValue] d].
  set (built := match modeSequence with [] => _ | _ => _ end).
  assert (Hsteps0 : forall steps0, built = Some steps0 ->
            map MultiStep.modeName steps0 = modeSequence
            /\ Forall (stepInRange minOpacity maxOpacity) steps0
            /\ Forall displayInRange steps0).
  { subst built. intros steps0 E.
    destruct modeSequence as [| mode rest].
    - injection E as <-. repeat split; constructor.
    - destruct globalBest as [best |]; [| discriminate].
      injection E as <-. apply (Hbuilt best). }
  destruct built as [steps0 |]; [| discriminate].
  destruct (Hsteps0 steps0 eq_refl) as (Hnames & Hrange & Hdisplay).
  destruct (mapM _ _) as [currentColors |]; [| discriminate].
  destruct (MultiStep.stepErrors _ _ _ _ _ _ _ _ _) as [steps1 |] eqn:E;
    [| discriminate].
  intros H. injection H as <- _.
  cbn [MultiStep.modeSequence MultiStep.steps].
  apply stepErrors_fields in E.
  destruct (stepErrors_in_range minOpacity maxOpacity steps0 steps1 E)
    as (Hn & Hr & Hd).
  split; [reflexivity |]. split; [by rewrite Hn |].
  split; [exact (Hr Hrange) | exact (Hd Hdisplay)].
Qed.


End Joint.

Lemma joint_result_in_range_witness :
  exists res drawn',
    MultiStep.jointOptimizeModeSequenceEnhanced unit (fun _ _ _ => tt)
      (fun _ _ => 5) HslAdjust.applyHslAdjustment (fun rgb _ => rgb)
      (fun _ => EmptyString) (fun _ => 1#2)
      [greyToDarkGrey] ["Multiply"; "Hue/Saturation"] None 1 0 (1#10) 1 0
    = (Normal (Some res), drawn')
    /\ MultiStep.modeSequence res = ["Multiply"; "Hue/Saturation"]
    /\ map MultiStep.modeName (MultiStep.steps res)
       = ["Multiply"; "Hue/Saturation"]
    /\ Forall (stepInRange (1#10) 1) (MultiStep.steps res)
    /\ Forall displayInRange (MultiStep.steps res).
Proof.
  eexists _, _. split; [vm_compute; reflexivity |].
  apply (joint_result_in_range unit (fun _ _ _ => tt) (fun _ _ => 5)
           HslAdjust.applyHslAdjustment (fun rgb _ => rgb)
           (fun _ => EmptyString)
           (fun _ => 1#2) [greyToDarkGrey] ["Multiply"; "Hue/Saturation"]
           None 1%nat 0%nat (1#10) 1 0%nat _ 8%nat).
  - discriminate.
  - exact I.
  - vm_compute. reflexivity.
Defined.


(** ** The enumeration of mode sequences *)

Lemma modeNamesOf_NoDup (allowHsl allowLevels : bool) :
  NoDup (Enumeration.modeNamesOf allowHsl allowLevels).
Proof.
  destruct allowHsl, allowLevels;
    apply (bool_decide_unpack _); vm_compute; exact I.
Qed.

Lemma generate_members (modeNames : list string) (remaining : nat)
    (current s : list string) :
  In s (Enumeration.generate modeNames remaining current)
  <-> exists t, s = current ++ t /\ length t = remaining
                /\ Forall (fun m => In m modeNames) t.
Proof.
  revert current. induction remaining as [| remaining IH]; intros current.
  - cbn. split.
    + intros [<- | []]. exists []. rewrite app_nil_r. repeat split. constructor.
    + intros (t & -> & Hlen & _). destruct t; [| discriminate].
      left. by rewrite app_nil_r.
  - cbn [Enumeration.generate]. rewrite in_flat_map. split.
    + intros (mode & Hmode & Hs). apply IH in Hs.
      destruct Hs as (t & -> & Hlen & Hall).
      exists (mode :: t). rewrite <- app_assoc. split; [reflexivity |].
      split; [cbn; by rewrite Hlen | by constructor].
    + intros (t & -> & Hlen & Hall). destruct t as [| mode t]; [discriminate |].
      apply Forall_cons in Hall. destruct Hall as [Hmode Hall].
      exists mode. split; [exact Hmode |]. apply IH. exists t.
      rewrite <- app_assoc. split; [reflexivity |].
      split; [by injection Hlen | exact Hall].
Qed.

Lemma flat_map_length_const {A B} (f : A -> list B) (l : list A) (k : nat) :
  (forall x, In x l -> length (f x) = k) ->
  length (flat_map f l) = (length l * k)%nat.
Proof.
  induction l as [| x l IH]; intros H; [reflexivity |].
  cbn [flat_map length]. rewrite length_app, IH, H.
  - lia.
  - by left.
  - intros y Hy. apply H. by right.
Qed.

Lemma generate_length (modeNames : list string) (remaining : nat)
    (current : list string) :
  length (Enumeration.generate modeNames remaining current)
  = (length modeNames ^ remaining)%nat.
Proof.
  revert current. induction remaining as [| remaining IH]; intros current;
    [reflexivity |].
  cbn [Enumeration.generate]. rewrite (flat_map_length_const _ _ (length modeNames ^ remaining)).
  - cbn [Nat.pow]. reflexivity.
  - intros mode _. apply IH.
Qed.

Lemma flat_map_NoDup {A B} (f : A -> list B) (l : list A) :
  NoDup l ->
  (forall x, In x l -> NoDup (f x)) ->
  (forall x y b, In x l -> In y l -> In b (f x) -> In b (f y) -> x = y) ->
  NoDup (flat_map f l).
Proof.
  induction 1 as [| x l Hx Hl IH]; intros Heach Hsep; [constructor |].
  cbn [flat_map]. apply NoDup_app. split; [apply Heach; by left |]. split.
  - intros b Hb Hb'. apply list_elem_of_In in Hb, Hb'.
    apply in_flat_map in Hb'. destruct Hb' as (y & Hy & Hby).
    apply Hx. apply list_elem_of_In.
    rewrite (Hsep x y b); [exact Hy | by left | by right | exact Hb | exact Hby].
  - apply IH.
    + intros y Hy. apply Heach. by right.
    + intros y z b Hy Hz. apply Hsep; by right.
Qed.

Lemma generate_NoDup (modeNames : list string) (remaining : nat)
    (current : list string) :
  NoDup modeNames -> NoDup (Enumeration.generate modeNames remaining current).
Proof.
  intros Hnames. revert current.
  induction remaining as [| remaining IH]; intros current.
  - cbn. apply NoDup_singleton.
  - cbn [Enumeration.generate]. apply flat_map_NoDup; [exact Hnames | |].
    + intros mode _. apply IH.
    + intros x y s _ _ Hx Hy. apply generate_members in Hx, Hy.
      destruct Hx as (t & -> & _), Hy as (t' & E & _).
      rewrite <- !app_assoc in E. apply app_inv_head in E.
      by injection E.
Qed.

Lemma generate_one (modeNames : list string) :
  Enumeration.generate modeNames 1 [] = map (fun m => [m]) modeNames.
Proof.
  cbn [Enumeration.generate app].
  induction modeNames as [| m l IH]; [reflexivity |].
  cbn [flat_map map app]. by rewrite IH.
Qed.

(** X8.  For one step, or when the number of sequences of [numSteps]
    modes is at most [maxSequences], [generateModeSequences] returns,
    without drawing a random number, every sequence of [numSteps] mode names
    exactly once. *)
Theorem generateModeSequences_exhaustive (random : nat -> Q)
    (fuel numSteps maxSequences : nat) (allowHsl allowLevels : bool)
    (drawn : nat) :
  numSteps = 1%nat
  \/ (length (Enumeration.modeNamesOf allowHsl allowLevels) ^ numSteps
      <= maxSequences)%nat ->
  exists sequences,
    Enumeration.generateModeSequences random fuel numSteps maxSequences
      allowHsl allowLevels drawn
    = (Some sequences, drawn)
    /\ NoDup sequences
    /\ length sequences
       = (length (Enumeration.modeNamesOf allowHsl allowLevels) ^ numSteps)%nat
    /\ (forall s,
          In s sequences
          <-> length s = numSteps
              /\ Forall (fun m => In m (Enumeration.modeNamesOf allowHsl allowLevels)) s).
Proof.
  intros Hcase.
  exists (Enumeration.generate (Enumeration.modeNamesOf allowHsl allowLevels)
            numSteps []).
  split.
  - unfold Enumeration.generateModeSequences.
    destruct (Nat.eqb_spec numSteps 1) as [-> | Hne].
    + by rewrite generate_one.
    + destruct Hcase as [H | H]; [contradiction |].
      apply Nat.leb_le in H. by rewrite H.
  - split; [apply generate_NoDup, modeNamesOf_NoDup |].
    split; [apply generate_length |].
    intros s. rewrite generate_members. split.
    + intros (t & -> & Hlen & Hall). split; assumption.
    + intros [Hlen Hall]. exists s. repeat split; assumption.
Qed.

Lemma generateModeSequences_exhaustive_witness :
  exists sequences,
    Enumeration.generateModeSequences (fun _ => 1#2) 0 2 600 true true 0
    = (Some sequences, 0%nat)
    /\ NoDup sequences
    /\ length sequences
       = (length (Enumeration.modeNamesOf true true) ^ 2)%nat
    /\ (forall s,
          In s sequences
          <-> length s = 2%nat
              /\ Forall (fun m => In m (Enumeration.modeNamesOf true true)) s).
Proof.
  apply (generateModeSequences_exhaustive (fun _ => 1#2) 0 2 600 true true 0).
  right. vm_compute. lia.
Defined.

(** ** The merge of the candidate lists *)

Lemma dedupe_fold (candidates : list MultiStep.Candidate) :
  MultiStep.dedupe candidates = fst (fold_left dedupeStep candidates ([], ∅)).
Proof. reflexivity. Qed.

Lemma keysOf_step st c : keysOf st -> keysOf (dedupeStep st c).
Proof.
  intros [Hset Hnd]. unfold dedupeStep.
  destruct (bool_decide_reflect (sequenceKey c ∈ snd st)) as [Hin | Hout];
    [split; assumption |].
  split; cbn [fst snd].
  - intros k. rewrite map_app, elem_of_union, elem_of_singleton, elem_of_app.
    rewrite Hset. cbn [map]. rewrite list_elem_of_singleton. tauto.
  - rewrite map_app. apply NoDup_app. split; [exact Hnd |].
    split; [| apply NoDup_singleton].
    intros k Hk Hk'. apply list_elem_of_singleton in Hk'. subst k.
    apply Hout, Hset, Hk.
Qed.

Lemma keysOf_fold candidates st :
  keysOf st -> keysOf (fold_left dedupeStep candidates st).
Proof.
  revert st. induction candidates as [| c candidates IH]; intros st Hst;
    [exact Hst |].
  cbn [fold_left]. apply IH, keysOf_step, Hst.
Qed.

Lemma dedupe_fold_sublist candidates st :
  exists more,
    fst (fold_left dedupeStep candidates st) = fst st ++ more
    /\ sublist more candidates.
Proof.
  revert st. induction candidates as [| c candidates IH]; intros st.
  - exists []. split; [by rewrite app_nil_r | constructor].
  - cbn [fold_left]. destruct (IH (dedupeStep st c)) as (more & -> & Hsub).
    unfold dedupeStep. destruct (bool_decide _); cbn [fst].
    + exists more. split; [reflexivity | by apply sublist_cons].
    + exists (c :: more). split; [by rewrite <- app_assoc | by apply sublist_skip].
Qed.

Lemma dedupe_fold_keeps candidates st c :
  c ∈ fst st -> c ∈ fst (fold_left dedupeStep candidates st).
Proof.
  intros Hc. destruct (dedupe_fold_sublist candidates st) as (more & -> & _).
  apply elem_of_app. left. exact Hc.
Qed.

Lemma dedupe_fold_first l1 c l2 st :
  keysOf st ->
  sequenceKey c ∉ map sequenceKey (fst st) ->
  sequenceKey c ∉ map sequenceKey l1 ->
  c ∈ fst (fold_left dedupeStep (l1 ++ c :: l2) st).
Proof.
  revert st. induction l1 as [| c1 l1 IH]; intros st Hst Hacc Hl1.
  - cbn [app fold_left]. apply dedupe_fold_keeps.
    unfold dedupeStep.
    destruct (bool_decide_reflect (sequenceKey c ∈ snd st)) as [Hin | Hout].
    + exfalso. apply Hacc. apply Hst, Hin.
    + cbn [fst]. apply elem_of_app. right. by apply list_elem_of_singleton.
  - cbn [app fold_left]. apply IH.
    + apply keysOf_step, Hst.
    + unfold dedupeStep. destruct (bool_decide _); [exact Hacc |].
      cbn [fst]. rewrite map_app. intros Hin. apply elem_of_app in Hin.
      destruct Hin as [Hin | Hin]; [exact (Hacc Hin) |].
      apply Hl1. cbn [map]. apply list_elem_of_singleton in Hin.
      rewrite Hin. left.
    + intros Hin. apply Hl1. cbn [map]. right. exact Hin.
Qed.

(** X9.  The merged candidate list of [optimize] holds no mode sequence
    twice, keeps the candidates in their order, and keeps the first
    candidate of every mode sequence. *)
Theorem dedupe_keeps_first_occurrences (candidates : list MultiStep.Candidate) :
  NoDup (map sequenceKey (MultiStep.dedupe candidates))
  /\ sublist (MultiStep.dedupe candidates) candidates
  /\ (forall l1 c l2,
        candidates = l1 ++ c :: l2 ->
        sequenceKey c ∉ map sequenceKey l1 ->
        c ∈ MultiStep.dedupe candidates).
Proof.
  rewrite dedupe_fold.
  assert (Hinit : keysOf ([], ∅)).
  { split; [| constructor]. intros k. cbn [fst snd map]. set_solver. }
  split; [apply (keysOf_fold candidates _ Hinit) |]. split.
  - destruct (dedupe_fold_sublist candidates ([], ∅)) as (more & -> & Hsub).
    exact Hsub.
  - intros l1 c l2 -> Hfirst. apply dedupe_fold_first; [exact Hinit | | exact Hfirst].
    cbn [fst map]. set_solver.
Qed.

(** ** The best result heads the stored list *)

Lemma insertBy_least {A} (key : A -> Q) (x : A) (l : list A) :
  Forall (fun y => key x <= key y) l -> insertBy key x l = x :: l.
Proof.
  destruct 1 as [| y l Hy _]; [reflexivity |]. cbn [insertBy].
  destruct (Qlt_le_dec (key y) (key x)) as [Hlt |]; [| reflexivity].
  exfalso. apply (Qlt_not_le _ _ Hlt). exact Hy.
Qed.

Lemma sortBy_least_first {A} (key : A -> Q) (x : A) (l : list A) :
  Forall (fun y => key x <= key y) l -> sortBy key (x :: l) = x :: sortBy key l.
Proof.
  intros H. cbn [sortBy]. apply insertBy_least. rewrite sortBy_perm. exact H.
Qed.

Lemma ascending_head_least {A} (key : A -> Q) (x : A) (l : list A) :
  ascending key (x :: l) -> Forall (fun y => key x <= key y) l.
Proof.
  unfold ascending. intros H.
  apply Sorted_StronglySorted in H.
  - inversion H; assumption.
  - intros a b c Hab Hbc. eapply Qle_trans; eassumption.
Qed.

Lemma sortBy_strict_least {A} (key : A -> Q) (new : A) (l : list A) :
  new ∈ l ->
  Forall (fun y => y = new \/ key new < key y) l ->
  head (sortBy key l) = Some new.
Proof.
  intros Hin Hall.
  pose proof (sortBy_ascending key l) as Hsorted.
  pose proof (sortBy_perm key l) as Hperm.
  destruct (sortBy key l) as [| h rest] eqn:E.
  - apply Permutation_nil in Hperm. subst l. inversion Hin.
  - cbn [head]. f_equal.
    assert (Hh : h ∈ l) by (rewrite <- Hperm; left).
    rewrite Forall_forall in Hall. destruct (Hall h Hh) as [-> | Hlt];
      [reflexivity |].
    exfalso.
    assert (Hnew : new ∈ h :: rest) by (rewrite Hperm; exact Hin).
    apply elem_of_cons in Hnew. destruct Hnew as [-> | Hnew].
    + exact (Qlt_irrefl _ Hlt).
    + pose proof (ascending_head_least key h rest Hsorted) as Hleast.
      rewrite Forall_forall in Hleast. specialize (Hleast new Hnew).
      exact (Qlt_not_le _ _ Hlt Hleast).
Qed.

Lemma head_take {A} (k : nat) (l : list A) : head (take (S k) l) = head l.
Proof. destruct l; reflexivity. Qed.

Section BestIsFirst.

Variable numberToString : Q -> string.

Abbreviation updateTop := (MultiStep.updateTopSolutions numberToString).
Abbreviation avg := MultiStep.metaAvgError.

Lemma update_keeps_best_first (tops : list MultiStep.MetaResult)
    (best : option MultiStep.MetaResult) (new : MultiStep.MetaResult) :
  ascending avg tops -> head tops = best ->
  head (updateTop tops new)
  = match best with
    | None => Some new
    | Some b => if ltb (avg new) (avg b) then Some new else Some b
    end.
Proof.
  intros Hsorted Hhead. rewrite updateTopSolutions_merged, head_take.
  destruct tops as [| b rest]; cbn [head] in Hhead; subst best.
  { reflexivity. }
  pose proof (ascending_head_least avg b rest Hsorted) as Hleast.
  unfold merged.
  destruct (ltb (avg new) (avg b)) eqn:Enew.
  - apply ltb_lt in Enew. apply sortBy_strict_least.
    + destruct (list_find _ _) as [[idx stored] |] eqn:Efind.
      * apply list_find_Some in Efind. destruct Efind as (Hidx & _ & _).
        assert (Hst : avg b <= avg stored).
        { destruct idx; cbn in Hidx; [injection Hidx as <-; apply Qle_refl |].
          rewrite Forall_forall in Hleast. apply Hleast.
          eapply list_elem_of_lookup_2. exact Hidx. }
        assert (Hlt : ltb (avg new) (avg stored) = true).
        { unfold ltb. destruct (Qlt_le_dec _ _); [reflexivity | lra]. }
        rewrite Hlt. eapply list_elem_of_lookup_2.
        apply list_lookup_insert_eq. eapply lookup_lt_Some. exact Hidx.
      * apply elem_of_app. right. by apply list_elem_of_singleton.
    + assert (Hall : Forall (fun y => y = new \/ avg new < avg y) (b :: rest)).
      { constructor; [right; exact Enew |].
        eapply Forall_impl; [exact Hleast |]. intros y Hy. right. simpl in Hy. lra. }
      destruct (list_find _ _) as [[idx stored] |].
      * destruct (ltb _ (avg stored)); [| exact Hall].
        apply Forall_insert; [exact Hall | left; reflexivity].
      * apply Forall_app. split; [exact Hall |].
        repeat constructor.
  - apply ltb_ge in Enew.
    assert (Hshape : exists rest',
               match list_find
                       (fun s => MultiStep.getKey numberToString s
                                 = MultiStep.getKey numberToString new)
                       (b :: rest) with
               | Some (idx, stored) =>
                   if ltb (avg new) (avg stored)
                   then <[idx := new]> (b :: rest) else b :: rest
               | None => (b :: rest) ++ [new]
               end = b :: rest'
               /\ Forall (fun y => avg b <= avg y) rest').
    { destruct (list_find _ _) as [[idx stored] |] eqn:Efind.
      - apply list_find_Some in Efind. destruct Efind as (Hidx & _ & _).
        destruct (ltb (avg new) (avg stored)) eqn:Elt.
        + destruct idx as [| idx].
          * cbn in Hidx. injection Hidx as <-. apply ltb_lt in Elt. lra.
          * exists (<[idx := new]> rest). split; [reflexivity |].
            apply Forall_insert; assumption.
        + exists rest. split; [reflexivity | exact Hleast].
      - exists (rest ++ [new]). split; [reflexivity |].
        apply Forall_app. split; [exact Hleast |]. repeat constructor. exact Enew. }
    destruct Hshape as (rest' & -> & Hleast').
    rewrite sortBy_least_first by exact Hleast'. reflexivity.
Qed.

End BestIsFirst.

Section BestFirstRun.

Variable Lab : Type.
Variable rgbToLab : Q -> Q -> Q -> Lab.
Variable deltaE : Lab -> Lab -> Q.
Variable applyHslAdjustment : list Q -> Q -> Q -> Q -> list Q.
Variable applyLevelsAdjustment : list Q -> Levels.LevelsParams -> list Q.
Variable numberToString : Q -> string.
Variable random : nat -> Q.
Variable cancelDuring : nat -> bool.
Variable greedySearchSequences :
  list Pair -> nat -> nat -> Q -> Q -> bool -> bool -> nat ->
  completion (list MultiStep.Candidate) * nat.
Variable generateModeSequences :
  nat -> nat -> bool -> bool -> nat -> list (list string) * nat.

Lemma bestFirst_hostTurn ev r :
  bestFirst (MultiStep.this r) ->
  bestFirst (MultiStep.this (MultiStep.hostTurn cancelDuring ev r)).
Proof.
  unfold MultiStep.hostTurn. cbn [MultiStep.this].
  destruct (cancelDuring _); intros H; exact H.
Qed.

Lemma bestFirst_report options ev r :
  bestFirst (MultiStep.this r) ->
  bestFirst (MultiStep.this (MultiStep.report cancelDuring options ev r)).
Proof.
  unfold MultiStep.report.
  destruct (MultiStep.onProgress options); [apply bestFirst_hostTurn | trivial].
Qed.

Lemma bestFirst_evaluateCandidate options validPairs minOp maxOp nrb bhc
    bestMode bestError candidate r :
  bestFirst (MultiStep.this r) ->
  bestFirst
    (MultiStep.this
       (MultiStep.evaluateCandidate Lab rgbToLab deltaE applyHslAdjustment
          applyLevelsAdjustment numberToString random cancelDuring
          options validPairs minOp maxOp nrb bhc bestMode bestError
          candidate r)).
Proof.
  intros [Hsorted Hhead]. unfold MultiStep.evaluateCandidate.
  destruct (MultiStep.jointOptimizeModeSequenceEnhanced _ _ _ _ _ _ _ _ _ _
              _ _ _ _ _) as [[[res |] |] d];
    try (split; assumption).
  assert (Hnew : bestFirst
                   {| MultiStep.cancelled :=
                        MultiStep.cancelled (MultiStep.this (MultiStep.withDrawn r d));
                      MultiStep.bestResult :=
                        match MultiStep.bestResult
                                (MultiStep.this (MultiStep.withDrawn r d)) with
                        | None => Some (MultiStep.metaOf res bestMode bestError)
                        | Some b =>
                            if ltb (MultiStep.metaAvgError
                                      (MultiStep.metaOf res bestMode bestError))
                                   (MultiStep.metaAvgError b)
                            then Some (MultiStep.metaOf res bestMode bestError)
                            else Some b
                        end;
                      MultiStep.topSolutions :=
                        MultiStep.updateTopSolutions numberToString
                          (MultiStep.topSolutions
                             (MultiStep.this (MultiStep.withDrawn r d)))
                          (MultiStep.metaOf res bestMode bestError) |}).
  { split; cbn [MultiStep.topSolutions MultiStep.bestResult MultiStep.withDrawn
                MultiStep.this].
    - rewrite updateTopSolutions_merged.
      apply ascending_take, sortBy_ascending.
    - apply update_keeps_best_first; assumption. }
  destruct (MultiStep.onBestFound options); [apply bestFirst_hostTurn |];
    exact Hnew.
Qed.

Lemma bestFirst_candidateTurn options validPairs minOp maxOp nrb bhc
    bestMode bestError candidate evaluated total r :
  bestFirst (MultiStep.this r) ->
  bestFirst
    (MultiStep.this
       (MultiStep.candidateTurn Lab rgbToLab deltaE applyHslAdjustment
          applyLevelsAdjustment numberToString random cancelDuring
          options validPairs minOp maxOp nrb bhc bestMode bestError
          candidate evaluated total r)).
Proof.
  intros H. unfold MultiStep.candidateTurn, MultiStep.sleep.
  destruct (Nat.eqb _ 0); [apply bestFirst_hostTurn |];
    apply bestFirst_evaluateCandidate, bestFirst_report; exact H.
Qed.

Lemma bestFirst_optimizingPhase options validPairs minOp maxOp nrb bhc
    bestMode bestError candidates evaluated total r :
  bestFirst (MultiStep.this r) ->
  bestFirst
    (MultiStep.this
       (snd (MultiStep.optimizingPhase Lab rgbToLab deltaE applyHslAdjustment
               applyLevelsAdjustment numberToString random cancelDuring
               options validPairs minOp maxOp nrb bhc bestMode bestError
               candidates evaluated total r))).
Proof.
  revert evaluated r.
  induction candidates as [| c candidates IH]; intros evaluated r H.
  - cbn [MultiStep.optimizingPhase snd]. apply bestFirst_report. exact H.
  - cbn [MultiStep.optimizingPhase].
    destruct (MultiStep.cancelled (MultiStep.this r)); [exact H |].
    apply IH. apply bestFirst_candidateTurn. exact H.
Qed.

(** X10.  Whatever the host does and however the run ends, [optimize]
    leaves [this.topSolutions] in ascending order of average error and
    [this.bestResult] equal to its first entry (null when the list is
    empty): what a cancelled run returns is the head of the list a
    completed run returns. *)
Theorem optimize_best_is_first_of_top (pairs : list Pair) (numSteps : nat)
    (options : MultiStep.SearchOptions) (r0 : MultiStep.Run) :
  bestFirst
    (MultiStep.this
       (snd (MultiStep.optimize Lab rgbToLab deltaE applyHslAdjustment
               applyLevelsAdjustment numberToString random cancelDuring
               greedySearchSequences generateModeSequences
               pairs numSteps options r0))).
Proof.
  unfold MultiStep.optimize.
  set (r := MultiStep.withThis r0 _).
  assert (Hr : bestFirst (MultiStep.this r)).
  { subst r. cbn [MultiStep.withThis MultiStep.this]. split.
    - apply (retained_initial numberToString).
    - cbn [MultiStep.topSolutions MultiStep.bestResult].
      destruct (MultiStep.existingBest options); reflexivity. }
  clearbody r.
  destruct (validPairsOf pairs) as [| pair validPairs]; [exact Hr |].
  assert (H1 := bestFirst_report options
                  (MultiStep.Progress MultiStep.single None None None) r Hr).
  destruct (MultiStep.singlePhase _ _ _ _ _ _ _) as [ret | [bestMode bestError]];
    [exact H1 |].
  assert (H2 := bestFirst_report options
                  (MultiStep.Progress MultiStep.greedy None None None) _
                  (bestFirst_hostTurn MultiStep.Sleep _ H1)).
  unfold MultiStep.sleep.
  destruct (greedySearchSequences _ _ _ _ _ _ _ _) as [[greedyCandidates |] d];
    [| exact H2].
  match goal with
  | |- context [generateModeSequences ?a ?b ?c ?e ?f] =>
      destruct (generateModeSequences a b c e f) as [enumerated d']
  end.
  match goal with
  | |- context [MultiStep.optimizingPhase _ _ _ _ _ _ _ _ ?o ?vp ?lo ?hi ?n ?h ?bm ?be ?cs ?ev ?tot ?x] =>
      pose proof (bestFirst_optimizingPhase o vp lo hi n h bm be cs ev tot x) as H3;
      destruct (MultiStep.optimizingPhase _ _ _ _ _ _ _ _ o vp lo hi n h bm be cs ev tot x)
        as [ret rfin]
  end.
  cbn [snd] in *. apply H3.
  apply bestFirst_hostTurn. cbn [MultiStep.withDrawn MultiStep.this].
  apply bestFirst_report. apply bestFirst_hostTurn.
  cbn [MultiStep.withDrawn MultiStep.this]. exact H2.
Qed.

End BestFirstRun.

(** ** The Hue/Saturation adjustment *)

Lemma isByte_bounds (x : Q) : isByte x -> 0 <= x <= 255.
Proof.
  intros (n & Hn & ->). change 0 with (inject_Z 0). change 255 with (inject_Z 255).
  rewrite <- !Zle_Qle. exact Hn.
Qed.

Lemma clamp_eq (x v lo hi : Q) : lo <= v <= hi -> x == v -> clamp x lo hi == v.
Proof.
  intros [Hlo Hhi] Hx. unfold clamp.
  rewrite (Q.min_r hi x) by lra. rewrite Q.max_r by lra. exact Hx.
Qed.

Lemma max3_spec (r g b : Q) :
  (HslAdjust.max3 r g b == r \/ HslAdjust.max3 r g b == g
   \/ HslAdjust.max3 r g b == b)
  /\ r <= HslAdjust.max3 r g b /\ g <= HslAdjust.max3 r g b
  /\ b <= HslAdjust.max3 r g b.
Proof.
  unfold HslAdjust.max3.
  destruct (Q.max_spec r g) as [[H1 E1] | [H1 E1]];
    destruct (Q.max_spec (Qmax r g) b) as [[H2 E2] | [H2 E2]];
    rewrite E2; rewrite E1 in *; intuition lra.
Qed.

Lemma min3_spec (r g b : Q) :
  (HslAdjust.min3 r g b == r \/ HslAdjust.min3 r g b == g
   \/ HslAdjust.min3 r g b == b)
  /\ HslAdjust.min3 r g b <= r /\ HslAdjust.min3 r g b <= g
  /\ HslAdjust.min3 r g b <= b.
Proof.
  unfold HslAdjust.min3.
  destruct (Q.min_spec r g) as [[H1 E1] | [H1 E1]];
    destruct (Q.min_spec (Qmin r g) b) as [[H2 E2] | [H2 E2]];
    rewrite E2; rewrite E1 in *; intuition lra.
Qed.

Lemma Qfloor_unique (x : Q) (k : Z) :
  inject_Z k <= x -> x < inject_Z k + 1 -> Qfloor x = k.
Proof.
  intros Hlo Hhi.
  pose proof (Qfloor_le x) as Hle. pose proof (Qlt_floor x) as Hlt.
  rewrite inject_Z_plus in Hlt. change (inject_Z 1) with 1 in Hlt.
  assert (H1 : inject_Z (Qfloor x) < inject_Z (k + 1)).
  { rewrite inject_Z_plus. change (inject_Z 1) with 1. lra. }
  assert (H2 : inject_Z k < inject_Z (Qfloor x + 1)).
  { rewrite inject_Z_plus. change (inject_Z 1) with 1. lra. }
  rewrite <- Zlt_Qlt in H1, H2. lia.
Qed.

Lemma remainder_360 (a : Q) (k : Z) :
  0 <= a ->
  360 * inject_Z k <= a -> a < 360 * inject_Z k + 360 ->
  HslAdjust.remainder a 360 == a - 360 * inject_Z k.
Proof.
  intros Ha Hlo Hhi. unfold HslAdjust.remainder, HslAdjust.trunc.
  assert (E : a / 360 == a * (1 # 360)) by reflexivity.
  destruct (Qlt_le_dec (a / 360) 0) as [Hneg | _]; [lra |].
  rewrite (Qfloor_unique (a / 360) k) by lra. reflexivity.
Qed.

(** The hue as [applyHslAdjustment] hands it on with a shift of 0, and as
    [hslToRgb] normalises it. *)
Lemma hue_normalised (H : Q) :
  0 <= H < 360 ->
  let h1 := HslAdjust.remainder (H + 0) 360 in
  let h2 := if Qlt_le_dec h1 0 then h1 + 360 else h1 in
  HslAdjust.remainder (HslAdjust.remainder h2 360 + 360) 360 / 360 == H / 360.
Proof.
  intros [H0 H1] h1 h2.
  assert (E1 : h1 == H).
  { subst h1. rewrite (remainder_360 (H + 0) 0); change (inject_Z 0) with 0; lra. }
  assert (E2 : h2 == H).
  { subst h2. destruct (Qlt_le_dec h1 0); lra. }
  assert (E3 : HslAdjust.remainder h2 360 == H).
  { rewrite (remainder_360 h2 0); change (inject_Z 0) with 0; lra. }
  assert (E4 : HslAdjust.remainder (HslAdjust.remainder h2 360 + 360) 360 == H).
  { rewrite (remainder_360 _ 1); change (inject_Z 1) with 1; lra. }
  rewrite E4. reflexivity.
Qed.

Lemma hue2rgb_proper (p q t p' q' t' : Q) :
  p == p' -> q == q' -> t == t' ->
  HslAdjust.hue2rgb p q t == HslAdjust.hue2rgb p' q' t'.
Proof.
  intros Hp Hq Ht. unfold HslAdjust.hue2rgb.
  split_comparisons;
    try lra; rewrite ?Hp, ?Hq, ?Ht; reflexivity.
Qed.

Lemma quotient_bounds (a d lo hi : Q) :
  0 < d -> lo * d <= a -> a <= hi * d -> lo <= a / d <= hi.
Proof.
  intros Hd Hlo Hhi. split.
  - apply Qle_shift_div_l; assumption.
  - apply Qle_shift_div_r; assumption.
Qed.

(** The three channels read off the hue computed by [rgbToHsl]. *)
Lemma sector_values (r g b mx mn : Q) :
  mx == r \/ mx == g \/ mx == b ->
  r <= mx -> g <= mx -> b <= mx ->
  mn == r \/ mn == g \/ mn == b ->
  mn <= r -> mn <= g -> mn <= b ->
  mn < mx ->
  let d := mx - mn in
  let h :=
    if Qeq_dec mx r then ((g - b) / d + (if Qlt_le_dec g b then 6 else 0)) / 6
    else if Qeq_dec mx g then ((b - r) / d + 2) / 6
    else ((r - g) / d + 4) / 6 in
  0 <= h * 360 < 360
  /\ HslAdjust.hue2rgb mn mx (h + (1#3)) == r
  /\ HslAdjust.hue2rgb mn mx h == g
  /\ HslAdjust.hue2rgb mn mx (h - (1#3)) == b.
Proof.
  intros Hmx Hr Hg Hb Hmn Hr' Hg' Hb' Hlt d h.
  assert (Hd : 0 < d) by (subst d; lra).
  subst h.
  destruct (Qeq_dec mx r) as [Er | Nr].
  - assert (Hx : (g - b) / d * d == g - b) by (field; lra).
    destruct (Qlt_le_dec g b) as [Hgb | Hgb].
    + assert (Emn : mn == g) by (destruct Hmn as [E | [E | E]]; lra).
      destruct (quotient_bounds (g - b) d (-1) 0 Hd) as [Hx1 Hx2];
        [subst d; lra | lra |].
      assert (Hx3 : (g - b) / d < 0) by (apply Qlt_shift_div_r; lra).
      set (x := (g - b) / d) in *. clearbody x. subst d. sixths.
      split; [lra |]. split; [| split]; hue_cases x Hx.
    + assert (Emn : mn == b) by (destruct Hmn as [E | [E | E]]; lra).
      destruct (quotient_bounds (g - b) d 0 1 Hd) as [Hx1 Hx2];
        [lra | subst d; lra |].
      set (x := (g - b) / d) in *. clearbody x. subst d. sixths.
      split; [lra |]. split; [| split]; hue_cases x Hx.
  - destruct (Qeq_dec mx g) as [Eg | Ng].
    + assert (Hx : (b - r) / d * d == b - r) by (field; lra).
      destruct Hmn as [E | [E | E]]; [| lra |].
      * destruct (quotient_bounds (b - r) d 0 1 Hd) as [Hx1 Hx2];
          [lra | subst d; lra |].
        set (x := (b - r) / d) in *. clearbody x. subst d. sixths.
        split; [lra |]. split; [| split]; hue_cases x Hx.
      * destruct (quotient_bounds (b - r) d (-1) 0 Hd) as [Hx1 Hx2];
          [subst d; lra | lra |].
        set (x := (b - r) / d) in *. clearbody x. subst d. sixths.
        split; [lra |]. split; [| split]; hue_cases x Hx.
    + assert (Eb : mx == b)
        by (destruct Hmx as [E | [E | E]]; [contradiction | contradiction | exact E]).
      assert (Hx : (r - g) / d * d == r - g) by (field; lra).
      destruct Hmn as [E | [E | E]]; [| | lra].
      * destruct (quotient_bounds (r - g) d (-1) 0 Hd) as [Hx1 Hx2];
          [subst d; lra | lra |].
        set (x := (r - g) / d) in *. clearbody x. subst d. sixths.
        split; [lra |]. split; [| split]; hue_cases x Hx.
      * destruct (quotient_bounds (r - g) d 0 1 Hd) as [Hx1 Hx2];
          [lra | subst d; lra |].
        set (x := (r - g) / d) in *. clearbody x. subst d. sixths.
        split; [lra |]. split; [| split]; hue_cases x Hx.
Qed.

(** Saturation and lightness give back the extremes. *)
Lemma chroma_extremes (mx mn : Q) :
  0 <= mn -> mn < mx -> mx <= 1 ->
  let l := (mx + mn) / 2 in
  let d := mx - mn in
  let s := if Qlt_le_dec (1#2) l then d / (2 - mx - mn) else d / (mx + mn) in
  let q := if Qlt_le_dec l (1#2) then l * (1 + s) else l + s - l * s in
  ~ s == 0 /\ q == mx /\ 2 * l - q == mn.
Proof.
  intros H0 Hlt H1 l d s q.
  assert (El : l == (mx + mn) * (1 # 2)) by reflexivity.
  clearbody l. subst s q d.
  destruct (Qlt_le_dec (1#2) l) as [Hl | Hl].
  - assert (Hy : (mx - mn) / (2 - mx - mn) * (2 - mx - mn) == mx - mn)
      by (field; lra).
    set (y := (mx - mn) / (2 - mx - mn)) in *. clearbody y.
    destruct (Qlt_le_dec l (1#2)); [lra |].
    split; [intros E; rewrite E in Hy; lra |].
    rewrite El. split; lra.
  - assert (Hy : (mx - mn) / (mx + mn) * (mx + mn) == mx - mn) by (field; lra).
    set (y := (mx - mn) / (mx + mn)) in *. clearbody y.
    split; [intros E; rewrite E in Hy; lra |].
    destruct (Qlt_le_dec l (1#2)).
    + rewrite El. split; lra.
    + assert (E : mx + mn == 1) by lra. rewrite E in Hy.
      assert (Ehalf : l == 1 # 2) by lra. rewrite Ehalf. split; lra.
Qed.

Lemma channel_of_byte (x : Q) (n : Z) (c : Q) :
  x = inject_Z n -> c == x / 255 -> Math_round (c * 255) = x.
Proof.
  intros -> Hc. apply Math_round_integer. rewrite Hc. field.
Qed.

(** [hslToRgb] gives back the channels [rgbToHsl] was given, when the hue
    goes through a shift of 0. *)
Lemma rgbToHsl_hslToRgb (r0 g0 b0 : Q) :
  isByte r0 -> isByte g0 -> isByte b0 ->
  let hsl := HslAdjust.rgbToHsl r0 g0 b0 in
  let h1 := HslAdjust.remainder (nthQ 0 hsl + 0) 360 in
  let h2 := if Qlt_le_dec h1 0 then h1 + 360 else h1 in
  HslAdjust.hslToRgb h2 (nthQ 1 hsl) (nthQ 2 hsl) = [r0; g0; b0].
Proof.
  intros Br Bg Bb.
  pose proof (isByte_bounds r0 Br) as Hr0.
  pose proof (isByte_bounds g0 Bg) as Hg0.
  pose proof (isByte_bounds b0 Bb) as Hb0.
  destruct Br as (nr & _ & Er), Bg as (ng & _ & Eg), Bb as (nb & _ & Eb).
  unfold HslAdjust.rgbToHsl.
  assert (Rr : r0 / 255 == r0 * (1 # 255)) by reflexivity.
  assert (Rg : g0 / 255 == g0 * (1 # 255)) by reflexivity.
  assert (Rb : b0 / 255 == b0 * (1 # 255)) by reflexivity.
  set (r := r0 / 255) in *. set (g := g0 / 255) in *. set (b := b0 / 255) in *.
  destruct (max3_spec r g b) as (Hmx & Hmr & Hmg & Hmb).
  destruct (min3_spec r g b) as (Hmn & Hnr & Hng & Hnb).
  set (mx := HslAdjust.max3 r g b) in *. set (mn := HslAdjust.min3 r g b) in *.
  clearbody mx mn.
  destruct (Qeq_dec mx mn) as [Eq | Ne].
  - cbv zeta. unfold nthQ. cbn [nth]. unfold HslAdjust.hslToRgb.
    destruct (Qeq_dec 0 0) as [_ | N]; [| exfalso; apply N; reflexivity].
    assert (El : (mx + mn) / 2 == (mx + mn) * (1 # 2)) by reflexivity.
    f_equal; [| f_equal; [| f_equal]].
    + apply (channel_of_byte r0 nr); [exact Er |]. fold r. rewrite El. lra.
    + apply (channel_of_byte g0 ng); [exact Eg |]. fold g. rewrite El. lra.
    + apply (channel_of_byte b0 nb); [exact Eb |]. fold b. rewrite El. lra.
  - assert (Hlt : mn < mx) by (destruct Hmx as [E | [E | E]]; lra).
    destruct (chroma_extremes mx mn) as (Hs & Hq & Hp); [lra | lra | lra |].
    destruct (sector_values r g b mx mn Hmx Hmr Hmg Hmb Hmn Hnr Hng Hnb Hlt)
      as (Hh & Vr & Vg & Vb).
    cbv zeta in Hs, Hq, Hp, Hh, Vr, Vg, Vb |- *.
    set (h := if Qeq_dec mx r then _ else _) in *.
    set (s := if Qlt_le_dec (1#2) ((mx + mn) / 2) then _ else _) in *.
    set (l := (mx + mn) / 2) in *.
    unfold nthQ. cbn [nth]. fold (nthQ 0).
    pose proof (hue_normalised (h * 360) Hh) as Hn. cbv zeta in Hn.
    unfold HslAdjust.hslToRgb.
    set (hn := HslAdjust.remainder _ 360 / 360) in *.
    assert (Ehn : hn == h) by (rewrite Hn; field).
    destruct (Qeq_dec s 0) as [E | _]; [contradiction |].
    set (q := if Qlt_le_dec l (1#2) then _ else _) in *.
    f_equal; [| f_equal; [| f_equal]].
    + apply (channel_of_byte r0 nr); [exact Er |]. fold r. rewrite <- Vr.
      apply hue2rgb_proper; [exact Hp | exact Hq | rewrite Ehn; reflexivity].
    + apply (channel_of_byte g0 ng); [exact Eg |]. fold g. rewrite <- Vg.
      apply hue2rgb_proper; [exact Hp | exact Hq | exact Ehn].
    + apply (channel_of_byte b0 nb); [exact Eb |]. fold b. rewrite <- Vb.
      apply hue2rgb_proper; [exact Hp | exact Hq | rewrite Ehn; reflexivity].
Qed.

Lemma clamp_proper (x y lo hi : Q) : x == y -> clamp x lo hi == clamp y lo hi.
Proof. intros E. unfold clamp. rewrite E. reflexivity. Qed.

Lemma extremes_of_equal (v : Q) :
  HslAdjust.max3 v v v == v /\ HslAdjust.min3 v v v == v.
Proof.
  unfold HslAdjust.max3, HslAdjust.min3.
  rewrite !Q.max_id, !Q.min_id. split; reflexivity.
Qed.

Lemma neutral_tail (r g b : Q) :
  0 <= r <= 255 -> 0 <= g <= 255 -> 0 <= b <= 255 ->
  let gray := (HslAdjust.max3 r g b + HslAdjust.min3 r g b) / 2 in
  let satMultiplier := 1 / (1 - 0 / 100) in
  Forall2 Qeq
    [ clamp (gray + (r - gray) * satMultiplier
             + (255 - (gray + (r - gray) * satMultiplier)) * (0 / 100)) 0 255;
      clamp (gray + (g - gray) * satMultiplier
             + (255 - (gray + (g - gray) * satMultiplier)) * (0 / 100)) 0 255;
      clamp (gray + (b - gray) * satMultiplier
             + (255 - (gray + (b - gray) * satMultiplier)) * (0 / 100)) 0 255 ]
    [r; g; b].
Proof.
  intros Hr Hg Hb gray satMultiplier.
  assert (E1 : satMultiplier == 1) by reflexivity.
  assert (E0 : 0 / 100 == 0) by reflexivity.
  clearbody gray satMultiplier.
  repeat constructor; (apply clamp_eq; [assumption |]); rewrite E1, E0; ring.
Qed.

(** X11.  With a hue shift, a saturation and a lightness adjustment of 0,
    [applyHslAdjustment] gives back the colour it is given: the conversion
    to HSL and back, roundings included, loses nothing on channels that are
    integers between 0 and 255. *)
Theorem applyHslAdjustment_neutral (r g b : Q) :
  isByte r -> isByte g -> isByte b ->
  Forall2 Qeq (HslAdjust.applyHslAdjustment [r; g; b] 0 0 0) [r; g; b].
Proof.
  intros Br Bg Bb. unfold HslAdjust.applyHslAdjustment. cbv zeta.
  change (nthQ 0 [r; g; b]) with r. change (nthQ 1 [r; g; b]) with g.
  change (nthQ 2 [r; g; b]) with b.
  pose proof (rgbToHsl_hslToRgb r g b Br Bg Bb) as Hround. cbv zeta in Hround.
  rewrite Hround. unfold nthQ. cbn [nth].
  destruct (Qlt_le_dec 0 0) as [H | _]; [discriminate H |].
  destruct (Qeq_dec 0 100) as [H | _]; [discriminate H |].
  apply neutral_tail; apply isByte_bounds; assumption.
Qed.

Lemma applyHslAdjustment_neutral_witness :
  Forall2 Qeq (HslAdjust.applyHslAdjustment [10; 200; 30] 0 0 0) [10; 200; 30].
Proof.
  apply (applyHslAdjustment_neutral 10 200 30);
    eexists; (split; [| reflexivity]); lia.
Defined.

Lemma rgbToHsl_grey (v : Q) :
  exists l, HslAdjust.rgbToHsl v v v = [0; 0; l] /\ l * 255 == v.
Proof.
  unfold HslAdjust.rgbToHsl.
  destruct (extremes_of_equal (v / 255)) as [Emx Emn].
  set (mx := HslAdjust.max3 _ _ _) in *. set (mn := HslAdjust.min3 _ _ _) in *.
  clearbody mx mn. cbv zeta.
  destruct (Qeq_dec mx mn) as [_ | N]; [| exfalso; apply N; by rewrite Emx, Emn].
  eexists. split; [reflexivity |]. rewrite Emx, Emn. field.
Qed.

Lemma hslToRgb_grey (h l : Q) :
  HslAdjust.hslToRgb h 0 l
  = [Math_round (l * 255); Math_round (l * 255); Math_round (l * 255)].
Proof.
  unfold HslAdjust.hslToRgb.
  destruct (Qeq_dec 0 0) as [_ | N]; [reflexivity | exfalso; apply N; reflexivity].
Qed.

(** X12.  A grey is left as it is by every hue shift and every saturation
    adjustment, the lightness adjustment being 0. *)
Theorem applyHslAdjustment_grey_fixed (v hueShift satAdj : Q) :
  isByte v ->
  Forall2 Qeq (HslAdjust.applyHslAdjustment [v; v; v] hueShift satAdj 0)
    [v; v; v].
Proof.
  intros Bv. pose proof (isByte_bounds v Bv) as Hv.
  destruct Bv as (n & _ & En).
  destruct (rgbToHsl_grey v) as (l & Ehsl & El).
  unfold HslAdjust.applyHslAdjustment.
  change (nthQ 0 [v; v; v]) with v. change (nthQ 1 [v; v; v]) with v.
  change (nthQ 2 [v; v; v]) with v.
  rewrite Ehsl. cbv zeta.
  change (nthQ 1 [0; 0; l]) with 0. change (nthQ 2 [0; 0; l]) with l.
  rewrite hslToRgb_grey.
  assert (Ev : Math_round (l * 255) = v).
  { subst v. apply Math_round_integer. exact El. }
  rewrite Ev. unfold nthQ. cbn [nth].
  destruct (extremes_of_equal v) as [Emx Emn].
  assert (Egray : (HslAdjust.max3 v v v + HslAdjust.min3 v v v) / 2 == v)
    by (rewrite Emx, Emn; field).
  set (gray := (HslAdjust.max3 v v v + HslAdjust.min3 v v v) / 2) in *.
  clearbody gray.
  set (satMultiplier := if Qlt_le_dec satAdj 0 then _ else _). clearbody satMultiplier.
  destruct (Qlt_le_dec 0 0) as [H | _]; [discriminate H |].
  assert (E0 : 0 / 100 == 0) by reflexivity.
  repeat constructor; (apply clamp_eq; [exact Hv |]); rewrite Egray, E0; ring.
Qed.

Lemma applyHslAdjustment_grey_fixed_witness :
  Forall2 Qeq (HslAdjust.applyHslAdjustment [128; 128; 128] 90 (-40) 0)
    [128; 128; 128].
Proof.
  apply (applyHslAdjustment_grey_fixed 128 90 (-40)).
  eexists. split; [| reflexivity]. lia.
Defined.


